(** * gonoto: classifier, selector, composer, seek buffer and chunk encoder

    A shallow embedding of [main.go] and of the [seekBuffer] type of the
    [gonoto] command, together with the properties of its specification.

    Conventions.  Go's [int] and [int64] are 64-bit two's complement
    integers, modelled as [Z] with the wrap-around written out
    ([wrap64]).  Go strings are byte strings and are modelled as
    [string]; byte slices are [list byte].  A [*fontDesc] is never
    mutated after its creation, so a pointer is modelled by the record
    it points to; the [filename] field tells two descriptors of equal
    axis values apart. *)

From Stdlib Require Import ZArith Lia List Bool Ascii String.
From Stdlib.Strings Require Import Byte.
From stdpp Require Import base option list gmap sets strings sorting pretty.

Local Open Scope Z_scope.

(** ** Machine integers *)

Definition wrap64 (z : Z) : Z := (z + 2 ^ 63) mod 2 ^ 64 - 2 ^ 63.

Definition add64 (a b : Z) : Z := wrap64 (a + b).
Definition sub64 (a b : Z) : Z := wrap64 (a - b).
Definition mul64 (a b : Z) : Z := wrap64 (a * b).
Definition neg64 (a : Z) : Z := wrap64 (- a).

Definition minInt64 : Z := - 2 ^ 63.
Definition maxInt64 : Z := 2 ^ 63 - 1.

(** ** Data model *)

Record fontDesc : Type := mkFontDesc {
  filename : string;
  weight : Z;
  hDensity : Z;
  vDensity : Z;
  style : Z
}.

Definition fontDesc_eqb (a b : fontDesc) : bool :=
  String.eqb (filename a) (filename b) && (weight a =? weight b)
  && (hDensity a =? hDensity b) && (vDensity a =? vDensity b)
  && (style a =? style b).

(** The axis enumerations of [generateFonts]. *)

Definition families : list string :=
  ["SerifDisplay"; "SansDisplay"; "SansMono"; "Serif"; "Sans"; "Mono";
   "Emoji"; "KufiArabic"; "NaskhArabic"; "NastaliqUrdu"]%string.

Definition weights : list string :=
  ["Thin"; "ExtraLight"; "Light"; "DemiLight"; "Regular"; "Medium";
   "SemiBold"; "Bold"; "ExtraBold"; "Black"]%string.

Definition hDensities : list string :=
  ["ExtraCondensed"; "Condensed"; "SemiCondensed"; ""]%string.

Definition vDensities : list string := ["UI"; ""]%string.

Definition styles : list string := [""; "Italic"]%string.

(** ** Selector: [appendMatchingFonts] *)

(** [|a - b|] as the source computes it: a subtraction and, when the
    difference is negative, a negation, both on machine integers. *)
Definition axisDist (target x : Z) : Z :=
  let dist := sub64 target x in
  if dist <? 0 then neg64 dist else dist.

(** The closure [descDistance]; the four target indices it captures are
    its first arguments. *)
Definition descDistance (tWeight tHDensity tVDensity tStyle : Z)
    (d : fontDesc) : Z :=
  let weightDist := axisDist tWeight (weight d) in
  let hDensityDist := axisDist tHDensity (hDensity d) in
  let vDensityDist := axisDist tVDensity (vDensity d) in
  let styleDist := axisDist tStyle (style d) in
  sub64 (sub64 (sub64 (sub64
    (add64 (add64 (add64 (mul64 100000000000000 styleDist)
                         (mul64 1000000000000 weightDist))
                  (mul64 10000000000 hDensityDist))
           (mul64 100000000 vDensityDist))
    (mul64 1000000 (style d)))
    (mul64 10000 (weight d)))
    (mul64 100 (hDensity d)))
    (vDensity d).

(** The [for _, d := range descriptions] loop, with the loop variables
    [match] ([None] is the nil pointer) and [matchDist]. *)
Fixpoint matchLoop (dist : fontDesc -> Z) (descriptions : list fontDesc)
    (match_ : option fontDesc) (matchDist : Z) : option fontDesc :=
  match descriptions with
  | [] => match_
  | d :: rest =>
      let dd := dist d in
      match match_ with
      | None => matchLoop dist rest (Some d) dd
      | Some _ =>
          if dd <? matchDist then matchLoop dist rest (Some d) dd
          else matchLoop dist rest match_ matchDist
      end
  end.

Definition appendMatchingFonts (out descriptions : list fontDesc)
    (tWeight tHDensity tVDensity tStyle : Z) : list fontDesc :=
  match matchLoop (descDistance tWeight tHDensity tVDensity tStyle)
          descriptions None 0 with
  | Some m => out ++ [m]
  | None => out
  end.

(** The comparison the specification describes: the tuple of axis
    distances in priority order, then the raw indices, larger first. *)
Definition lexKey (tWeight tHDensity tVDensity tStyle : Z) (d : fontDesc)
    : list Z :=
  [ Z.abs (tStyle - style d); Z.abs (tWeight - weight d);
    Z.abs (tHDensity - hDensity d); Z.abs (tVDensity - vDensity d);
    - style d; - weight d; - hDensity d; - vDensity d ].

Fixpoint lexLtb (a b : list Z) : bool :=
  match a, b with
  | x :: a', y :: b' => (x <? y) || ((x =? y) && lexLtb a' b')
  | _, _ => false
  end.

(** Index ranges: a descriptor holds indices into the enumerations, a
    target holds results of [exactIndexOf], which may be [-1]. *)
Definition axisLen (l : list string) : Z := Z.of_nat (length l).

Definition validDesc (d : fontDesc) : Prop :=
  0 <= weight d < axisLen weights /\
  0 <= hDensity d < axisLen hDensities /\
  0 <= vDensity d < axisLen vDensities /\
  0 <= style d < axisLen styles.

Definition validTarget (tWeight tHDensity tVDensity tStyle : Z) : Prop :=
  -1 <= tWeight < axisLen weights /\
  -1 <= tHDensity < axisLen hDensities /\
  -1 <= tVDensity < axisLen vDensities /\
  -1 <= tStyle < axisLen styles.

(** ** Classifier: [indexOf], [exactIndexOf] and the per-entry closure *)

(** [strings.HasPrefix s x] and the slice [s[len(x):]]. *)
Definition HasPrefix (s x : string) : bool := String.prefix x s.

Definition dropPrefix (s x : string) : string :=
  String.substring (String.length x) (String.length s - String.length x) s.

(** [strings.HasSuffix s x] and the slice [s[:len(s)-len(x)]]. *)
Definition HasSuffix (s x : string) : bool :=
  (String.length x <=? String.length s)%nat
  && String.eqb
       (String.substring (String.length s - String.length x)
          (String.length x) s) x.

Definition dropSuffix (s x : string) : string :=
  String.substring 0 (String.length s - String.length x) s.

(** The loop of [indexOf], at index [i] with the current default [def]. *)
Fixpoint indexOfLoop (s : string) (l : list string) (prefix : bool)
    (i def : Z) : Z * string * string :=
  match l with
  | [] => (def, s, EmptyString)
  | x :: l' =>
      if String.eqb x EmptyString then indexOfLoop s l' prefix (i + 1) i
      else if prefix then
        if HasPrefix s x then (i, dropPrefix s x, x)
        else indexOfLoop s l' prefix (i + 1) def
      else
        if HasSuffix s x then (i, dropSuffix s x, x)
        else indexOfLoop s l' prefix (i + 1) def
  end.

Definition indexOf (s : string) (l : list string) (prefix : bool)
    : Z * string * string :=
  indexOfLoop s l prefix 0 (-1).

Fixpoint exactIndexOfLoop (s : string) (l : list string) (i : Z) : Z :=
  match l with
  | [] => -1
  | x :: l' => if String.eqb x s then i else exactIndexOfLoop s l' (i + 1)
  end.

Definition exactIndexOf (s : string) (l : list string) : Z :=
  exactIndexOfLoop s l 0.

(** The test [indexOf] applies to an entry, and the string it stands
    for when the entry [x] was cut off leaving [rest]. *)
Definition matchesEntry (prefix : bool) (s x : string) : bool :=
  if prefix then HasPrefix s x else HasSuffix s x.

Definition glue (prefix : bool) (x rest : string) : string :=
  if prefix then (x ++ rest)%string else (rest ++ x)%string.


(** [filepath.Ext]: scan backwards from the end of the path, stop at a
    path separator, return the suffix that starts at the first dot met.
    [n] is one more than the index under inspection. *)
Fixpoint extScan (path : string) (n : nat) : string :=
  match n with
  | O => EmptyString
  | S i =>
      match String.get i path with
      | Some c =>
          if Ascii.eqb c "/" then EmptyString
          else if Ascii.eqb c "."
               then String.substring i (String.length path - i) path
               else extScan path i
      | None => EmptyString
      end
  end.

Definition Ext (path : string) : string := extScan path (String.length path).

(** [strings.SplitN(name, "-", 2)]: [None] stands for the one-element
    result returned when [name] holds no separator. *)
Fixpoint splitDash (name : string) : option (string * string) :=
  match name with
  | EmptyString => None
  | String c rest =>
      if Ascii.eqb c "-" then Some (EmptyString, rest)
      else match splitDash rest with
           | Some (a, b) => Some (String c a, b)
           | None => None
           end
  end.

(** What the closure run for one archive entry records under the lock:
    the family name, the language code and the descriptor.  [None] is
    the silent [return nil] of a name that is skipped. *)
Definition classify (fname : string) : option (string * string * fontDesc) :=
  let ext := Ext fname in
  if (String.length fname <? 9)%nat then None
  else if negb (String.eqb ext ".otf") && negb (String.eqb ext ".ttf")
  then None
  else if negb (String.eqb (String.substring 0 4 fname) "Noto") then None
  else
    let name :=
      String.substring 4 (String.length fname - String.length ext - 4) fname in
    match splitDash name with
    | None => None
    | Some (domain, styling) =>
        let '(family, domain, familyName) := indexOf domain families true in
        if family <? 0 then None
        else
          let '(vDensity, domain, _) := indexOf domain vDensities false in
          let language := domain in
          let '(style, styling, _) := indexOf styling styles false in
          let '(hDensity, styling, _) := indexOf styling hDensities true in
          let '(weight, styling, _) := indexOf styling weights true in
          let weight :=
            if weight <? 0 then exactIndexOf "Regular" weights else weight in
          if negb (String.eqb styling EmptyString) then None
          else Some (familyName, language,
                     mkFontDesc fname weight hDensity vDensity style)
    end.

(** ** Composer: the merge sequence of one output family *)

Record outputFamily : Type := mkOutputFamily {
  name : string;
  inputFamily : string;
  oWeight : string;
  oHDensity : string;
  oVDensity : string;
  oStyle : string;
  prependComboFamilies : list string;
  appendComboFamilies : list string;
  description : string
}.

(** [fontDescriptions[family][language]]: a missing key of either map
    yields the nil slice. *)
Definition group (fontDescriptions : gmap string (gmap string (list fontDesc)))
    (family language : string) : list fontDesc :=
  match fontDescriptions !! family with
  | Some byLanguage => default [] (byLanguage !! language)
  | None => []
  end.

(** Byte-wise order on strings, the order of [sort.Strings]. *)
Definition string_le (a b : string) : Prop := String.leb a b = true.

Global Instance string_le_dec a b : Decision (string_le a b).
Proof. unfold string_le. apply _. Defined.

(** [languages]: the keys of [languageSet], sorted. *)
Definition sortedLanguages (languageSet : gset string) : list string :=
  merge_sort string_le (elements languageSet).

(** The body of the per-output-family closure up to the call of
    [generateFont]: the list [sourceFonts]. *)
Definition sourceFontsOf
    (fontDescriptions : gmap string (gmap string (list fontDesc)))
    (languages : list string) (outFamily : outputFamily) : list fontDesc :=
  let weight := exactIndexOf (oWeight outFamily) weights in
  let hDensity := exactIndexOf (oHDensity outFamily) hDensities in
  let vDensity := exactIndexOf (oVDensity outFamily) vDensities in
  let style := exactIndexOf (oStyle outFamily) styles in
  let sourceFonts :=
    appendMatchingFonts []
      (group fontDescriptions (inputFamily outFamily) EmptyString)
      weight hDensity vDensity style in
  let sourceFonts :=
    fold_left
      (fun acc comboFamily =>
         appendMatchingFonts acc
           (group fontDescriptions comboFamily EmptyString)
           weight hDensity vDensity style)
      (prependComboFamilies outFamily) sourceFonts in
  let sourceFonts :=
    fold_left
      (fun acc l =>
         if String.eqb l EmptyString then acc
         else appendMatchingFonts acc
                (group fontDescriptions (inputFamily outFamily) l)
                weight hDensity vDensity style)
      languages sourceFonts in
  fold_left
    (fun acc comboFamily =>
       appendMatchingFonts acc
         (group fontDescriptions comboFamily EmptyString)
         weight hDensity vDensity style)
    (appendComboFamilies outFamily) sourceFonts.

(** The groups [sourceFontsOf] consults, in the order in which it
    consults them, each as a family and a language code. *)
Definition mergeSteps (languages : list string) (outFamily : outputFamily)
    : list (string * string) :=
  (inputFamily outFamily, EmptyString)
    :: map (fun c => (c, EmptyString)) (prependComboFamilies outFamily)
    ++ map (fun l => (inputFamily outFamily, l))
         (filter (fun l => l <> EmptyString) languages)
    ++ map (fun c => (c, EmptyString)) (appendComboFamilies outFamily).

(** What one group contributes: its selected descriptor, if it has
    one, tagged with the family and the language code of the group. *)
Definition selectedEntries
    (fontDescriptions : gmap string (gmap string (list fontDesc)))
    (tWeight tHDensity tVDensity tStyle : Z) (st : string * string)
    : list (string * string * fontDesc) :=
  map (fun m => (fst st, snd st, m))
    (appendMatchingFonts [] (group fontDescriptions (fst st) (snd st))
       tWeight tHDensity tVDensity tStyle).

(** The merge sequence with, beside each descriptor, the family and the
    language code of the group it was selected from.  The source keeps
    the descriptors only ([sourceFontsOf]); the tags say which entry
    stands for which language. *)
Definition mergeSequence
    (fontDescriptions : gmap string (gmap string (list fontDesc)))
    (languages : list string) (outFamily : outputFamily)
    : list (string * string * fontDesc) :=
  flat_map
    (selectedEntries fontDescriptions
       (exactIndexOf (oWeight outFamily) weights)
       (exactIndexOf (oHDensity outFamily) hDensities)
       (exactIndexOf (oVDensity outFamily) vDensities)
       (exactIndexOf (oStyle outFamily) styles))
    (mergeSteps languages outFamily).

Definition entryLanguage (e : string * string * fontDesc) : string :=
  snd (fst e).

(** "Never more than one entry per language", as the specification
    words it. *)
Definition onePerLanguage (entries : list (string * string * fontDesc))
    : Prop :=
  NoDup (map entryLanguage entries).

(** The first entry of the table [outputFamilies] (its description
    without the quotation marks around the font name). *)
Definition notosans : outputFamily :=
  mkOutputFamily "notosans" "Sans" "Regular" "" "" "" ["Emoji"%string]
    ["KufiArabic"; "NaskhArabic"; "NastaliqUrdu"]%string
    "provides the Noto Sans font collection. It is a proportional-width, sans-serif font.".

(** ** Byte slices *)

(** A slice with its backing array: [elems] are the [len] visible
    bytes, [spare] the bytes of the array between [len] and [cap]. *)
Record slice : Type := mkSlice {
  elems : list byte;
  spare : list byte
}.

Definition len (s : slice) : Z := Z.of_nat (length (elems s)).
Definition cap (s : slice) : Z := len s + Z.of_nat (length (spare s)).

(** [make([]byte, l, c)]; [None] is the run-time panic. *)
Definition makeSlice (l c : Z) : option slice :=
  if (0 <=? l) && (l <=? c)
  then Some (mkSlice (repeat x00 (Z.to_nat l)) (repeat x00 (Z.to_nat (c - l))))
  else None.

(** [s[:hi]], which may grow the slice into its spare capacity. *)
Definition reslice (s : slice) (hi : Z) : option slice :=
  if (0 <=? hi) && (hi <=? cap s)
  then Some (mkSlice (take (Z.to_nat hi) (elems s ++ spare s))
                     (drop (Z.to_nat hi) (elems s ++ spare s)))
  else None.

(** [copy(dst, src)]: the new contents of [dst] and the number of bytes
    copied. *)
Definition copyBytes (dst src : list byte) : list byte * Z :=
  (take (length dst) src ++ drop (length src) dst,
   Z.min (Z.of_nat (length dst)) (Z.of_nat (length src))).

(** ** [seekBuffer] *)

Record seekBuffer : Type := mkSeekBuffer {
  buf : slice;
  pos : Z
}.

Definition SeekStart : Z := 0.
Definition SeekCurrent : Z := 1.
Definition SeekEnd : Z := 2.

Definition Reset (sb : seekBuffer) : seekBuffer :=
  mkSeekBuffer (mkSlice [] (elems (buf sb) ++ spare (buf sb))) 0.

(** [Write] returns the new buffer, [n] and the error ([None] is nil);
    the outer [None] is a run-time panic. *)
Definition Write (sb : seekBuffer) (p : list byte)
    : option (seekBuffer * Z * option string) :=
  let n := Z.of_nat (length p) in
  let grown :=
    if pos sb + n >? len (buf sb) then
      if pos sb + n >? cap (buf sb) then
        match makeSlice (pos sb + n) (2 * len (buf sb) + n) with
        | Some fresh =>
            Some (mkSlice (fst (copyBytes (elems fresh) (elems (buf sb))))
                          (spare fresh))
        | None => None
        end
      else reslice (buf sb) (pos sb + n)
    else Some (buf sb) in
  match grown with
  | None => None
  | Some b =>
      if (pos sb <? 0) || (pos sb >? len b) then None
      else
        let k := Z.to_nat (pos sb) in
        let '(tail, copied) := copyBytes (drop k (elems b)) p in
        Some (mkSeekBuffer (mkSlice (take k (elems b) ++ tail) (spare b))
                           (pos sb + copied),
              n, None)
  end.

Definition clampPos (sb : seekBuffer) : seekBuffer :=
  if pos sb <? 0 then mkSeekBuffer (buf sb) 0
  else if pos sb >? len (buf sb) then mkSeekBuffer (buf sb) (len (buf sb))
  else sb.

Definition Seek (sb : seekBuffer) (offset whence : Z)
    : seekBuffer * Z * option string :=
  if (whence =? SeekStart) && (offset <? 0)
  then (sb, pos sb, Some "invalid negative seek relative to start"%string)
  else
    let moved :=
      if whence =? SeekStart then mkSeekBuffer (buf sb) offset
      else if whence =? SeekEnd then
        if offset >=? 0 then mkSeekBuffer (buf sb) (len (buf sb))
        else mkSeekBuffer (buf sb) (add64 (len (buf sb)) offset)
      else if whence =? SeekCurrent then
        mkSeekBuffer (buf sb) (add64 (pos sb) offset)
      else sb in
    let sb' := clampPos moved in
    (sb', pos sb', None).

(** The position a [Seek] asks for, before any clamping and taken in
    the integers: [offset] counted from the start, from the current
    position or from the end; the current position for a [whence] that
    is none of the three. *)
Definition seekTarget (sb : seekBuffer) (offset whence : Z) : Z :=
  if whence =? SeekStart then offset
  else if whence =? SeekEnd then len (buf sb) + offset
  else if whence =? SeekCurrent then pos sb + offset
  else pos sb.

(** The invariant of a [seekBuffer]. *)
Definition posInRange (sb : seekBuffer) : Prop :=
  0 <= pos sb <= len (buf sb).

(** ** Chunk encoder: [writeChunk] and [generateChunks] *)

Definition byteZ (b : byte) : Z := Z.of_N (Byte.to_N b).

(** The conversion [byte(u)] of an unsigned word. *)
Definition byteOfZ (z : Z) : byte :=
  default x00 (Byte.of_N (Z.to_N (z mod 256))).

(** [binary.LittleEndian.Uint64]; the slices it is given here always
    hold eight bytes. *)
Definition Uint64 (b : list byte) : Z :=
  match b with
  | b0 :: b1 :: b2 :: b3 :: b4 :: b5 :: b6 :: b7 :: _ =>
      Z.lor (Z.lor (Z.lor (Z.lor (Z.lor (Z.lor (Z.lor
        (byteZ b0)
        (Z.shiftl (byteZ b1) 8))
        (Z.shiftl (byteZ b2) 16))
        (Z.shiftl (byteZ b3) 24))
        (Z.shiftl (byteZ b4) 32))
        (Z.shiftl (byteZ b5) 40))
        (Z.shiftl (byteZ b6) 48))
        (Z.shiftl (byteZ b7) 56)
  | _ => 0
  end.

(** The inner loop [for i := 0; i < n; i += 8] over [buf], as the list
    of words it prints; [k] is the number of iterations. *)
Fixpoint encodeWords (k : nat) (b : list byte) : list Z :=
  match k with
  | O => []
  | S k' => Uint64 (take 8 b) :: encodeWords k' (drop 8 b)
  end.

Inductive ioError : Type := EOF | ErrUnexpectedEOF.

Definition isEOF (e : ioError) : bool :=
  match e with EOF => true | ErrUnexpectedEOF => false end.

(** [io.LimitReader(pr, n)]: the bytes still to come out of the pipe
    and the number of bytes the reader may still deliver. *)
Record limitedReader : Type := mkLimitedReader {
  pending : list byte;
  limit : Z
}.

(** [io.ReadFull(r, buf[:size])] on a limited pipe reader: it blocks
    until [size] bytes were read, the limit is reached or the writer
    closed the pipe. *)
Definition ReadFull (r : limitedReader) (size : Z)
    : list byte * option ioError * limitedReader :=
  let k := Z.to_nat (Z.min size (limit r)) in
  let got := take k (pending r) in
  let n := Z.of_nat (length got) in
  (got,
   if n =? size then None
   else if n =? 0 then Some EOF else Some ErrUnexpectedEOF,
   mkLimitedReader (drop k (pending r)) (limit r - n)).

Definition blockSize : Z := 4096.

(** The [for] loop of [writeChunk].  [buf] is the 4096-byte array,
    [comma] the flag of the source, [out] the words printed so far.
    [count] is not a variable of the source: it sums the values of [n]
    that [io.ReadFull] returned, the number of bytes of the stream that
    went into the chunk.  The result is [(!empty, out, count, r)]. *)
Fixpoint writeChunkLoop (fuel : nat) (r : limitedReader) (buf : list byte)
    (comma : bool) (out : list Z) (count : Z)
    : option (bool * list Z * Z * limitedReader) :=
  match fuel with
  | O => None
  | S fuel' =>
      let '(got, err, r) := ReadFull r blockSize in
      let n := Z.of_nat (length got) in
      let buf := got ++ drop (length got) buf in
      let count := count + n in
      let '(buf, n) :=
        if negb (n mod 8 =? 0) then
          (take (Z.to_nat n) buf
             ++ fst (copyBytes (drop (Z.to_nat n) buf) [x00; x00; x00; x00]),
           n + (8 - n mod 8))
        else (buf, n) in
      let out := out ++ encodeWords (Z.to_nat ((n + 7) / 8)) buf in
      let comma := comma || (0 <? n) in
      match err with
      | Some e => Some (negb (isEOF e && negb comma), out, count, r)
      | None => writeChunkLoop fuel' r buf comma out count
      end
  end.

(** [writeChunk]: whether the chunk holds data, the words of the file
    it wrote (the file is removed again when the chunk is empty), the
    number of stream bytes consumed and the reader afterwards. *)
Definition writeChunk (r : limitedReader)
    : option (bool * list Z * Z * limitedReader) :=
  writeChunkLoop (S (length (pending r))) r
    (repeat x00 (Z.to_nat blockSize)) false [] 0.

Definition chunkSize : Z := 20 * 1024 * 1024.

Definition chunkVarName (i : nat) : string := "chunk" +:+ pretty i.

(** What [generateChunks] leaves on disk: the chunk files in index
    order, each as the [[]uint64] literal it declares, and the two
    declarations of [chunk.go].  [byteCounts] records, for each chunk,
    the [count] of [writeChunkLoop]. *)
Record chunkOutput : Type := mkChunkOutput {
  chunkFiles : list (string * list Z);
  chunks : list string;
  decompressedSize : Z;
  byteCounts : list Z
}.

(** The loop [for i := 0; ; i++] over the pipe [pr]. *)
Fixpoint generateChunksLoop (fuel : nat) (maxSize : Z) (pr : list byte)
    (i : nat) (files : list (string * list Z)) (chunkVars : list string)
    (counts : list Z)
    : option (list (string * list Z) * list string * list Z) :=
  match fuel with
  | O => None
  | S fuel' =>
      let chunkVar := chunkVarName i in
      match writeChunk (mkLimitedReader pr maxSize) with
      | None => None
      | Some (more, words, count, r) =>
          if negb more then Some (files, chunkVars, counts)
          else generateChunksLoop fuel' maxSize (pending r) (S i)
                 (files ++ [(chunkVar +:+ ".go", words)])
                 (chunkVars ++ [chunkVar]) (counts ++ [count])
      end
  end.

(** [generateChunks] with the size limit of a chunk as a parameter;
    [gzip] is the compressor writing into the pipe. *)
Definition generateChunksWith (maxSize : Z) (gzip : list byte -> list byte)
    (data : list byte) : option chunkOutput :=
  let pr := gzip data in
  match generateChunksLoop (S (length pr)) maxSize pr 0 [] [] [] with
  | Some (files, chunkVars, counts) =>
      Some (mkChunkOutput files chunkVars (Z.of_nat (length data)) counts)
  | None => None
  end.

Definition generateChunks (gzip : list byte -> list byte) (data : list byte)
    : option chunkOutput :=
  generateChunksWith chunkSize gzip data.

(** The generated decoder [chunkDecoder.Read]: the eight bytes it
    stores for one word, and the byte stream it yields for [chunks]. *)
Definition wordBytes (u : Z) : list byte :=
  [ byteOfZ (Z.land u 0xff);
    byteOfZ (Z.shiftr (Z.land u 0xff00) 8);
    byteOfZ (Z.shiftr (Z.land u 0xff0000) 16);
    byteOfZ (Z.shiftr (Z.land u 0xff000000) 24);
    byteOfZ (Z.shiftr (Z.land u 0xff00000000) 32);
    byteOfZ (Z.shiftr (Z.land u 0xff0000000000) 40);
    byteOfZ (Z.shiftr (Z.land u 0xff000000000000) 48);
    byteOfZ (Z.shiftr (Z.land u 0xff00000000000000) 56) ].

Definition payload (words : list Z) : list byte := flat_map wordBytes words.

(** The reconstruction of the specification: the payloads in chunk
    order, the last one cut to its actual byte count, decompressed. *)
Definition compressedStream (files : list (list Z)) (counts : list Z)
    : list byte :=
  match reverse files with
  | [] => []
  | final :: earlier =>
      flat_map payload (reverse earlier)
        ++ take (Z.to_nat (List.last counts 0)) (payload final)
  end.

Definition reconstruct (gunzip : list byte -> option (list byte))
    (o : chunkOutput) : option (list byte) :=
  gunzip (compressedStream (map snd (chunkFiles o)) (byteCounts o)).

(** The chunking of a stream [pr] under the size limit [maxSize]: the
    chunk files in order, each holding as words the next
    [min maxSize (len pr)] bytes of the stream followed by the padding
    that completes its last word, and these byte counts. *)
Inductive chunked (maxSize : Z)
    : list byte -> list (list Z) -> list Z -> Prop :=
| chunked_nil : chunked maxSize [] [] []
| chunked_cons (pr : list byte) (words : list Z) (pad : list byte)
      (files : list (list Z)) (counts : list Z) :
    pr <> [] ->
    payload words
      = take (Z.to_nat (Z.min maxSize (Z.of_nat (length pr)))) pr ++ pad ->
    Z.of_nat (length pad)
      = (- Z.min maxSize (Z.of_nat (length pr))) mod 8 ->
    chunked maxSize
      (drop (Z.to_nat (Z.min maxSize (Z.of_nat (length pr)))) pr)
      files counts ->
    chunked maxSize pr (words :: files)
      (Z.min maxSize (Z.of_nat (length pr)) :: counts).

(** The names [generateChunks] gives to [n] chunks from index [i] on. *)
Definition chunkVarNames (i n : nat) : list string :=
  map chunkVarName (seq i n).

Definition chunkFileNames (i n : nat) : list string :=
  map (fun k => chunkVarName k +:+ ".go") (seq i n).

(** ** A reference gzip encoder

    The package [compress/gzip] is not part of the repository; the
    chunk encoder is modelled with the compressor as a parameter.
    [gzipStored] is a concrete encoder of the gzip format (RFC 1952,
    RFC 1951) that emits stored blocks only.  Its header is the one the
    writer of [generateChunks] emits (no optional fields, no
    modification time, [XFL = 2] for [gzip.BestCompression], unknown
    operating system), and on the empty input it yields the 23 bytes
    that writer yields: the header, one empty final stored block, and a
    trailer of zero checksum and zero size.  [gunzipStored] reads the
    format back. *)

Definition crc32Step (crc : Z) : Z :=
  Z.lxor (Z.shiftr crc 1) (if Z.odd crc then 0xEDB88320 else 0).

Definition crc32Byte (crc : Z) (b : byte) : Z :=
  Nat.iter 8 crc32Step (Z.lxor crc (byteZ b)).

Definition crc32 (data : list byte) : Z :=
  Z.lxor (fold_left crc32Byte data 0xFFFFFFFF) 0xFFFFFFFF.

Definition le16 (x : Z) : list byte :=
  [byteOfZ x; byteOfZ (Z.shiftr x 8)].

Definition le32 (x : Z) : list byte :=
  [byteOfZ x; byteOfZ (Z.shiftr x 8); byteOfZ (Z.shiftr x 16);
   byteOfZ (Z.shiftr x 24)].

Definition maxStoreBlockSize : Z := 65535.

Fixpoint storedBlocks (fuel : nat) (data : list byte) : list byte :=
  match fuel, data with
  | S fuel', _ :: _ =>
      let piece := take (Z.to_nat maxStoreBlockSize) data in
      let n := Z.of_nat (length piece) in
      [x00] ++ le16 n ++ le16 (maxStoreBlockSize - n) ++ piece
        ++ storedBlocks fuel' (drop (Z.to_nat maxStoreBlockSize) data)
  | _, _ => []
  end.

Definition gzipHeader : list byte :=
  [x1f; x8b; x08; x00; x00; x00; x00; x00; x02; xff].

Definition gzipStored (data : list byte) : list byte :=
  gzipHeader
    ++ storedBlocks (length data) data ++ [x01; x00; x00; xff; xff]
    ++ le32 (crc32 data) ++ le32 (Z.of_nat (length data) mod 2 ^ 32).

Definition bytes_eqb (a b : list byte) : bool :=
  bool_decide (map Byte.to_N a = map Byte.to_N b).

Fixpoint inflateStored (fuel : nat) (s acc : list byte)
    : option (list byte * list byte) :=
  match fuel with
  | O => None
  | S fuel' =>
      match s with
      | h :: l0 :: l1 :: n0 :: n1 :: rest =>
          let n := byteZ l0 + 256 * byteZ l1 in
          let nn := byteZ n0 + 256 * byteZ n1 in
          if negb (n + nn =? maxStoreBlockSize) || (1 <? byteZ h)
             || (Z.of_nat (length rest) <? n)
          then None
          else
            let acc := acc ++ take (Z.to_nat n) rest in
            if byteZ h =? 1 then Some (acc, drop (Z.to_nat n) rest)
            else inflateStored fuel' (drop (Z.to_nat n) rest) acc
      | _ => None
      end
  end.

Definition gunzipStored (s : list byte) : option (list byte) :=
  if bytes_eqb (take 4 s) (take 4 gzipHeader) && (10 <=? length s)%nat then
    match inflateStored (length s) (drop 10 s) [] with
    | Some (data, trailer) =>
        if bytes_eqb trailer
             (le32 (crc32 data) ++ le32 (Z.of_nat (length data) mod 2 ^ 32))
        then Some data else None
    | None => None
    end
  else None.

(** ** The tables filled from the archive

    [generateFonts] fills three maps while it reads the archive:
    [fontDescriptions], [languageSet] and [fontData].  The closures run
    concurrently; each makes its three assignments while it holds
    [dataLock], so the tables evolve as if the accepted entries were
    recorded one after the other, in the order in which the lock is
    taken. *)

Record fontTables : Type := mkFontTables {
  fontDescriptions : gmap string (gmap string (list fontDesc));
  languageSet : gset string;
  fontData : gmap string (list byte)
}.

(** The tables before the archive is read: [fontDescriptions] holds an
    empty map for every entry of [families]. *)
Definition emptyTables : fontTables :=
  mkFontTables (fold_left (fun m f => <[f := ∅]> m) families ∅) ∅ ∅.

(** The three assignments made under [dataLock].  Indexing
    [fontDescriptions] with a family it does not hold yields a nil map,
    and the assignment to an entry of a nil map panics: [None]. *)
Definition recordFont (t : fontTables) (fname familyName language : string)
    (d : fontDesc) (data : list byte) : option fontTables :=
  match fontDescriptions t !! familyName with
  | None => None
  | Some byLanguage =>
      Some (mkFontTables
              (<[familyName :=
                   <[language := default [] (byLanguage !! language) ++ [d]]>
                     byLanguage]> (fontDescriptions t))
              ({[language]} ∪ languageSet t)
              (<[fname := data]> (fontData t)))
  end.

(** The closure run for one entry of the archive, given as its name
    and its uncompressed content (the entry is read without error). *)
Definition loadFile (t : fontTables) (f : string * list byte)
    : option fontTables :=
  match classify (fst f) with
  | None => Some t
  | Some (familyName, language, d) =>
      recordFont t (fst f) familyName language d (snd f)
  end.

Fixpoint loadFiles (t : fontTables) (files : list (string * list byte))
    : option fontTables :=
  match files with
  | [] => Some t
  | f :: rest =>
      match loadFile t f with
      | Some t' => loadFiles t' rest
      | None => None
      end
  end.

(** The invariant of the tables: every family has its map of
    languages. *)
Definition tablesReady (t : fontTables) : Prop :=
  forall f, In f families -> is_Some (fontDescriptions t !! f).

(** The descriptors of the entries of [files] that are accepted into
    the group of [family] and [language], in the order of [files]. *)
Definition descriptorsOf (files : list (string * list byte))
    (family language : string) : list fontDesc :=
  omap (fun f =>
          match classify (fst f) with
          | Some (fam, lang, d) =>
              if decide (fam = family /\ lang = language) then Some d
              else None
          | None => None
          end) files.

(** The contents of the entries of [files] that are accepted and bear
    the name [fname], in the order of [files]. *)
Definition contentsOf (files : list (string * list byte)) (fname : string)
    : list (list byte) :=
  omap (fun f =>
          match classify (fst f) with
          | Some _ => if decide (fst f = fname) then Some (snd f) else None
          | None => None
          end) files.

(** The contents [generateFont] hands to the merger, one per source
    font: [fontData[f.filename]], the nil slice for a missing key. *)
Definition fontInputs (fontData : gmap string (list byte))
    (sourceFonts : list fontDesc) : list (list byte) :=
  map (fun f => default [] (fontData !! filename f)) sourceFonts.

(** ** Sequences of calls on a [seekBuffer]

    [generateFont] resets a buffer of the pool and hands it to the
    merger, which writes and seeks as it pleases. *)

Inductive bufferCall : Type :=
| CallReset
| CallWrite (p : list byte)
| CallSeek (offset whence : Z).

Definition call (sb : seekBuffer) (c : bufferCall) : option seekBuffer :=
  match c with
  | CallReset => Some (Reset sb)
  | CallWrite p =>
      match Write sb p with
      | Some (sb', _, _) => Some sb'
      | None => None
      end
  | CallSeek offset whence => Some (fst (fst (Seek sb offset whence)))
  end.

Fixpoint calls (sb : seekBuffer) (cs : list bufferCall) : option seekBuffer :=
  match cs with
  | [] => Some sb
  | c :: rest =>
      match call sb c with
      | Some sb' => calls sb' rest
      | None => None
      end
  end.

(** The zero value of [seekBuffer], and a buffer of the pool as the
    goroutine of [generateFonts] makes it. *)
Definition zeroBuffer : seekBuffer := mkSeekBuffer (mkSlice [] []) 0.

Definition poolBuffer : seekBuffer :=
  mkSeekBuffer (mkSlice (repeat x00 4096) []) 0.

(** ** The generated decoder: [chunkDecoder.Read]

    The loop [for len(p) >= 8] of the decoder that [generateSupportFiles]
    writes into [otc.go].  [chunks] is the package variable, [p] the
    part of the caller's buffer still to fill, [filled] what was stored
    before it and [n] the running count.  The result is the buffer,
    [n], the error and the new value of [chunks]. *)
Fixpoint chunkDecoderLoop (fuel : nat) (chunks : list (list Z))
    (p filled : list byte) (n : Z)
    : option (list byte * Z * option ioError * list (list Z)) :=
  match fuel with
  | O => None
  | S fuel' =>
      if (8 <=? length p)%nat then
        match chunks with
        | [] => Some (filled ++ p, n, Some EOF, chunks)
        | [] :: rest => chunkDecoderLoop fuel' rest p filled n
        | (u :: words) :: rest =>
            chunkDecoderLoop fuel' (words :: rest) (drop 8 p)
              (filled ++ wordBytes u) (n + 8)
        end
      else Some (filled ++ p, n, None, chunks)
  end.

Definition chunkDecoderRead (chunks : list (list Z)) (p : list byte)
    : option (list byte * Z * option ioError * list (list Z)) :=
  chunkDecoderLoop (S (length chunks + length (concat chunks))) chunks p [] 0.

(** ** The buffer pool

    The goroutine of [generateFonts] that owns [bufs].  Every turn of
    its loop is one [select]: with [bufs] not empty it may hand the
    last element to a worker that receives from [availableBufs]; at
    any time it may take a buffer that a worker sends on
    [recycleBufs].  With [bufs] empty [outChan] is the nil channel and
    only the second case can fire.  A worker keeps the buffer it
    received until its deferred send.  The state is [bufs] together
    with the buffers the workers hold; a buffer is known by its
    pointer, of type [A]. *)

Record poolState (A : Type) : Type := mkPoolState {
  bufs : list A;
  held : list A
}.
Arguments mkPoolState {A} _ _.
Arguments bufs {A} _.
Arguments held {A} _.

(** The communications of the pool: [Hand] is [outChan <- outBuf]
    meeting the receive of a worker, [Recycle i] the send of the
    worker that holds the [i]-th buffer of [held] meeting
    [b := <-recycleBufs]. *)
Inductive poolEvent : Type :=
| Hand
| Recycle (i : nat).

(** One communication; [None] when it cannot take place. *)
Definition poolStep {A} (s : poolState A) (e : poolEvent)
    : option (poolState A) :=
  match e with
  | Hand =>
      match last (bufs s) with
      | Some outBuf =>
          Some (mkPoolState (take (length (bufs s) - 1) (bufs s))
                  (outBuf :: held s))
      | None => None
      end
  | Recycle i =>
      match held s !! i with
      | Some b => Some (mkPoolState (bufs s ++ [b]) (delete i (held s)))
      | None => None
      end
  end.

Fixpoint poolRun {A} (s : poolState A) (events : list poolEvent)
    : option (poolState A) :=
  match events with
  | [] => Some s
  | e :: rest =>
      match poolStep s e with
      | Some s' => poolRun s' rest
      | None => None
      end
  end.

(** * Properties *)

(** ** Machine integers *)

Lemma wrap64_small z : - 2 ^ 63 <= z < 2 ^ 63 -> wrap64 z = z.
Proof.
  intros H. unfold wrap64. rewrite Z.mod_small; lia.
Qed.

Lemma wrap64_range z : - 2 ^ 63 <= wrap64 z < 2 ^ 63.
Proof.
  unfold wrap64.
  pose proof (Z.mod_pos_bound (z + 2 ^ 63) (2 ^ 64) ltac:(lia)). lia.
Qed.

(** ** Selector *)

Lemma axisDist_small t x :
  - 2 ^ 62 <= t < 2 ^ 62 -> - 2 ^ 62 <= x < 2 ^ 62 ->
  axisDist t x = Z.abs (t - x).
Proof.
  intros Ht Hx. unfold axisDist, sub64, neg64.
  rewrite wrap64_small by lia.
  destruct (Z.ltb_spec (t - x) 0); [rewrite wrap64_small|]; lia.
Qed.

Lemma axisLen_weights : axisLen weights = 10. Proof. reflexivity. Qed.
Lemma axisLen_hDensities : axisLen hDensities = 4. Proof. reflexivity. Qed.
Lemma axisLen_vDensities : axisLen vDensities = 2. Proof. reflexivity. Qed.
Lemma axisLen_styles : axisLen styles = 2. Proof. reflexivity. Qed.

(** Within the index ranges no operation of [descDistance] wraps. *)
Lemma descDistance_exact tw th tv ts d :
  validTarget tw th tv ts -> validDesc d ->
  descDistance tw th tv ts d =
    100000000000000 * Z.abs (ts - style d)
    + 1000000000000 * Z.abs (tw - weight d)
    + 10000000000 * Z.abs (th - hDensity d)
    + 100000000 * Z.abs (tv - vDensity d)
    - 1000000 * style d - 10000 * weight d - 100 * hDensity d - vDensity d.
Proof.
  unfold validTarget, validDesc.
  rewrite axisLen_weights, axisLen_hDensities, axisLen_vDensities, axisLen_styles.
  intros (Hw & Hh & Hv & Hs) (Dw & Dh & Dv & Ds).
  unfold descDistance.
  rewrite !axisDist_small by lia.
  unfold add64, sub64, mul64.
  repeat match goal with
  | |- context [wrap64 ?z] =>
      lazymatch z with
      | context [wrap64 _] => fail
      | _ => rewrite (wrap64_small z) by lia
      end
  end.
  reflexivity.
Qed.

(** One digit of the weighted sum: a gap in the leading term is never
    closed by remainders that differ by less than the weight. *)
Lemma lex_step K x1 x2 r1 r2 :
  - K < r1 - r2 < K ->
  (K * x1 + r1 <? K * x2 + r2) = (x1 <? x2) || ((x1 =? x2) && (r1 <? r2)).
Proof.
  intros HK.
  destruct (Z.ltb_spec x1 x2) as [Hlt|Hge]; simpl.
  - apply Z.ltb_lt. nia.
  - destruct (Z.eqb_spec x1 x2) as [->|Hne]; simpl.
    + destruct (Z.ltb_spec r1 r2); [apply Z.ltb_lt | apply Z.ltb_ge]; lia.
    + apply Z.ltb_ge. nia.
Qed.

Lemma eq_step K x1 x2 r1 r2 :
  - K < r1 - r2 < K -> K * x1 + r1 = K * x2 + r2 -> x1 = x2 /\ r1 = r2.
Proof. intros HK E. assert (x1 = x2) by nia. subst. lia. Qed.

(** The two distances as digit expansions over bounded digits. *)
Lemma descDistance_digits tw th tv ts d :
  validTarget tw th tv ts -> validDesc d ->
  exists s w h v,
    0 <= s <= 11 /\ 0 <= w <= 11 /\ 0 <= h <= 11 /\ 0 <= v <= 11 /\
    lexKey tw th tv ts d
    = [s; w; h; v; - style d; - weight d; - hDensity d; - vDensity d] /\
    descDistance tw th tv ts d =
      100000000000000 * s + (1000000000000 * w + (10000000000 * h +
      (100000000 * v + (1000000 * (- style d) + (10000 * (- weight d) +
      (100 * (- hDensity d) + (- vDensity d))))))).
Proof.
  intros Ht Hd. rewrite descDistance_exact by assumption.
  unfold validTarget, validDesc in *.
  rewrite axisLen_weights, axisLen_hDensities, axisLen_vDensities, axisLen_styles in *.
  exists (Z.abs (ts - style d)), (Z.abs (tw - weight d)),
    (Z.abs (th - hDensity d)), (Z.abs (tv - vDensity d)).
  repeat split; try lia.
Qed.

(** C2.  For indices within the fixed enumerations (10 weights, 4
    horizontal densities, 2 vertical densities, 2 styles; a target may
    also be the [-1] of [exactIndexOf]), the weighted scalar orders two
    descriptors exactly as the lexicographic order on the tuple (style
    distance, weight distance, horizontal-density distance,
    vertical-density distance, then the raw style, weight,
    horizontal-density and vertical-density indices, larger first). *)
Theorem descDistance_lexicographic tw th tv ts d1 d2 :
  validTarget tw th tv ts -> validDesc d1 -> validDesc d2 ->
  (descDistance tw th tv ts d1 <? descDistance tw th tv ts d2)
  = lexLtb (lexKey tw th tv ts d1) (lexKey tw th tv ts d2).
Proof.
  intros Ht H1 H2.
  destruct (descDistance_digits tw th tv ts d1 Ht H1)
    as (s1 & w1 & h1 & v1 & ? & ? & ? & ? & -> & ->).
  destruct (descDistance_digits tw th tv ts d2 Ht H2)
    as (s2 & w2 & h2 & v2 & ? & ? & ? & ? & -> & ->).
  unfold validDesc in *.
  rewrite axisLen_weights, axisLen_hDensities, axisLen_vDensities, axisLen_styles in *.
  rewrite !lex_step by lia.
  cbn [lexLtb]. rewrite andb_false_r, orb_false_r. reflexivity.
Qed.

Lemma descDistance_lexicographic_witness :
  validTarget 4 3 1 0 /\
  validDesc (mkFontDesc "NotoSans-Bold.ttf" 7 3 1 0) /\
  validDesc (mkFontDesc "NotoSans-Italic.ttf" 4 3 1 1) /\
  (descDistance 4 3 1 0 (mkFontDesc "NotoSans-Bold.ttf" 7 3 1 0)
     <? descDistance 4 3 1 0 (mkFontDesc "NotoSans-Italic.ttf" 4 3 1 1))
  = lexLtb (lexKey 4 3 1 0 (mkFontDesc "NotoSans-Bold.ttf" 7 3 1 0))
           (lexKey 4 3 1 0 (mkFontDesc "NotoSans-Italic.ttf" 4 3 1 1)).
Proof.
  assert (Ht : validTarget 4 3 1 0) by (unfold validTarget; rewrite axisLen_weights, axisLen_hDensities, axisLen_vDensities, axisLen_styles; lia).
  assert (H1 : validDesc (mkFontDesc "NotoSans-Bold.ttf" 7 3 1 0))
    by (unfold validDesc; rewrite axisLen_weights, axisLen_hDensities,
          axisLen_vDensities, axisLen_styles; cbn [weight hDensity vDensity style]; lia).
  assert (H2 : validDesc (mkFontDesc "NotoSans-Italic.ttf" 4 3 1 1))
    by (unfold validDesc; rewrite axisLen_weights, axisLen_hDensities,
          axisLen_vDensities, axisLen_styles; cbn [weight hDensity vDensity style]; lia).
  split; [exact Ht|]. split; [exact H1|]. split; [exact H2|].
  exact (descDistance_lexicographic 4 3 1 0 _ _ Ht H1 H2).
Defined.

Section MatchLoop.
Variable dist : fontDesc -> Z.

  (** Started with a candidate, the loop returns that candidate or a
      later element, and nothing in sight is nearer than its result. *)
Lemma matchLoop_some descs : forall m0,
    exists m,
      matchLoop dist descs (Some m0) (dist m0) = Some m /\
      (m = m0 \/ In m descs) /\
      dist m <= dist m0 /\
      (forall d, In d descs -> dist m <= dist d).
  Proof.
    induction descs as [|d rest IH]; intros m0; cbn [matchLoop].
    - exists m0. split; [reflexivity|]. split; [auto|]. split; [lia|].
      intros d [].
    - destruct (Z.ltb_spec (dist d) (dist m0)) as [Hlt|Hge].
      + destruct (IH d) as (m & Hm & Hin & Hle & Hall).
        exists m. split; [exact Hm|]. split; [|split].
        * destruct Hin as [->|Hin]; [right; left; reflexivity|right; right; exact Hin].
        * lia.
        * intros d' [<-|Hd']; [exact Hle|exact (Hall d' Hd')].
      + destruct (IH m0) as (m & Hm & Hin & Hle & Hall).
        exists m. split; [exact Hm|]. split; [|split].
        * destruct Hin as [->|Hin]; [left; reflexivity|right; right; exact Hin].
        * exact Hle.
        * intros d' [<-|Hd']; [lia|exact (Hall d' Hd')].
  Qed.

Lemma matchLoop_nonempty d rest :
    exists m,
      matchLoop dist (d :: rest) None 0 = Some m /\
      In m (d :: rest) /\
      (forall d', In d' (d :: rest) -> dist m <= dist d').
  Proof.
    cbn [matchLoop].
    destruct (matchLoop_some rest d) as (m & Hm & Hin & Hle & Hall).
    exists m. split; [exact Hm|]. split.
    - destruct Hin as [->|Hin]; [left; reflexivity|right; exact Hin].
    - intros d' [<-|Hd']; [exact Hle|exact (Hall d' Hd')].
  Qed.

  (** Where [dist] tells the candidates apart the minimum is reached
      once, and the loop finds it wherever it stands in the list. *)
Lemma matchLoop_unique l1 l2 m1 m2 :
    (forall d, In d l1 <-> In d l2) ->
    (forall a b, In a l1 -> In b l1 -> dist a = dist b -> a = b) ->
    matchLoop dist l1 None 0 = Some m1 ->
    matchLoop dist l2 None 0 = Some m2 ->
    m1 = m2.
  Proof.
    intros Hset Hinj H1 H2.
    destruct l1 as [|a1 r1]; [discriminate|].
    destruct l2 as [|a2 r2]; [discriminate|].
    destruct (matchLoop_nonempty a1 r1) as (m1' & E1 & In1 & Min1).
    destruct (matchLoop_nonempty a2 r2) as (m2' & E2 & In2 & Min2).
    rewrite E1 in H1. rewrite E2 in H2.
    injection H1 as <-. injection H2 as <-.
    apply Hinj; [exact In1|apply Hset; exact In2|].
    apply Z.le_antisymm.
    - apply Min1. apply Hset. exact In2.
    - apply Min2. apply Hset. exact In1.
  Qed.
End MatchLoop.

(** C7.  On the empty candidate list [appendMatchingFonts] returns its
    output list unchanged; on a non-empty one it appends exactly one
    descriptor, a member of the list whose [descDistance] no candidate
    undercuts. *)
Theorem appendMatchingFonts_minimum out descriptions tw th tv ts :
  (descriptions = [] ->
   appendMatchingFonts out descriptions tw th tv ts = out) /\
  (descriptions <> [] ->
   exists m,
     appendMatchingFonts out descriptions tw th tv ts = out ++ [m] /\
     In m descriptions /\
     forall d, In d descriptions ->
       descDistance tw th tv ts m <= descDistance tw th tv ts d).
Proof.
  split.
  - intros ->. reflexivity.
  - intros Hne. destruct descriptions as [|d rest]; [congruence|].
    unfold appendMatchingFonts.
    destruct (matchLoop_nonempty (descDistance tw th tv ts) d rest)
      as (m & Hm & Hin & Hmin).
    exists m. rewrite Hm. auto.
Qed.

Lemma appendMatchingFonts_minimum_witness :
  [mkFontDesc "w2" 2 3 1 0; mkFontDesc "w5" 5 0 0 0; mkFontDesc "w7" 7 3 1 0]
    <> [] /\
  exists m,
    appendMatchingFonts []
      [mkFontDesc "w2" 2 3 1 0; mkFontDesc "w5" 5 0 0 0;
       mkFontDesc "w7" 7 3 1 0] 5 3 1 0 = [] ++ [m] /\
    In m [mkFontDesc "w2" 2 3 1 0; mkFontDesc "w5" 5 0 0 0;
          mkFontDesc "w7" 7 3 1 0] /\
    forall d,
      In d [mkFontDesc "w2" 2 3 1 0; mkFontDesc "w5" 5 0 0 0;
            mkFontDesc "w7" 7 3 1 0] ->
      descDistance 5 3 1 0 m <= descDistance 5 3 1 0 d.
Proof.
  split; [discriminate|].
  apply (proj2 (appendMatchingFonts_minimum [] _ 5 3 1 0)). discriminate.
Defined.

(** The scenario of the specification: among weights 2, 5 and 7 the
    target weight 5 wins although its other axes match worse. *)
Example appendMatchingFonts_scenario :
  appendMatchingFonts []
    [mkFontDesc "w2" 2 3 1 0; mkFontDesc "w5" 5 0 0 0;
     mkFontDesc "w7" 7 3 1 0] 5 3 1 0
  = [mkFontDesc "w5" 5 0 0 0].
Proof. reflexivity. Qed.

(** C6, at the failing input.  The archive entries
    [NotoSans-Regular.otf] and [NotoSans-Regular.ttf] are classified
    into the same group with equal axis values, so their distances tie
    for every target, and the descriptor that comes first in the
    candidate list is selected: the two orders of the same candidate
    set give different results. *)
Theorem appendMatchingFonts_order_dependent :
  let a := mkFontDesc "NotoSans-Regular.otf" 4 3 1 0 in
  let b := mkFontDesc "NotoSans-Regular.ttf" 4 3 1 0 in
  classify "NotoSans-Regular.otf" = Some ("Sans"%string, ""%string, a) /\
  classify "NotoSans-Regular.ttf" = Some ("Sans"%string, ""%string, b) /\
  (forall d, In d [a; b] <-> In d [b; a]) /\
  appendMatchingFonts [] [a; b] 4 3 1 0 = [a] /\
  appendMatchingFonts [] [b; a] 4 3 1 0 = [b] /\
  a <> b.
Proof.
  cbv zeta. split; [vm_compute; reflexivity|].
  split; [vm_compute; reflexivity|].
  split; [intros d; cbn [In]; tauto|].
  split; [vm_compute; reflexivity|].
  split; [vm_compute; reflexivity|discriminate].
Qed.

(** *** Selection away from ties *)

Lemma descDistance_separates tw th tv ts d1 d2 :
  validTarget tw th tv ts -> validDesc d1 -> validDesc d2 ->
  descDistance tw th tv ts d1 = descDistance tw th tv ts d2 ->
  weight d1 = weight d2 /\ hDensity d1 = hDensity d2 /\
  vDensity d1 = vDensity d2 /\ style d1 = style d2.
Proof.
  intros Ht H1 H2.
  destruct (descDistance_digits tw th tv ts d1 Ht H1)
    as (s1 & w1 & h1 & v1 & ? & ? & ? & ? & _ & ->).
  destruct (descDistance_digits tw th tv ts d2 Ht H2)
    as (s2 & w2 & h2 & v2 & ? & ? & ? & ? & _ & ->).
  unfold validDesc in *.
  rewrite axisLen_weights, axisLen_hDensities, axisLen_vDensities, axisLen_styles in *.
  intros E.
  apply eq_step in E; [|lia]. destruct E as [_ E].
  apply eq_step in E; [|lia]. destruct E as [_ E].
  apply eq_step in E; [|lia]. destruct E as [_ E].
  apply eq_step in E; [|lia]. destruct E as [_ E].
  apply eq_step in E; [|lia]. destruct E as [Es E].
  apply eq_step in E; [|lia]. destruct E as [Ew E].
  apply eq_step in E; [|lia]. destruct E as [Eh Ev].
  lia.
Qed.

(** Two candidate lists with the same members lead to the same
    selection, provided the indices lie within the enumerations and no
    two distinct candidates carry the same four axis values. *)
Lemma appendMatchingFonts_order_independent out l1 l2 tw th tv ts :
  validTarget tw th tv ts ->
  (forall d, In d l1 -> validDesc d) ->
  (forall d, In d l1 <-> In d l2) ->
  (forall a b, In a l1 -> In b l1 ->
     weight a = weight b -> hDensity a = hDensity b ->
     vDensity a = vDensity b -> style a = style b -> a = b) ->
  appendMatchingFonts out l1 tw th tv ts
  = appendMatchingFonts out l2 tw th tv ts.
Proof.
  intros Ht Hv Hset Hne. unfold appendMatchingFonts.
  destruct l1 as [|a1 r1], l2 as [|a2 r2].
  - reflexivity.
  - exfalso. apply (Hset a2). left; reflexivity.
  - exfalso. apply (Hset a1). left; reflexivity.
  - destruct (matchLoop_nonempty (descDistance tw th tv ts) a1 r1)
      as (m1 & E1 & In1 & _).
    destruct (matchLoop_nonempty (descDistance tw th tv ts) a2 r2)
      as (m2 & E2 & In2 & _).
    rewrite E1, E2. do 2 f_equal.
    eapply (matchLoop_unique (descDistance tw th tv ts)); eauto.
    intros a b Ha Hb Hab.
    destruct (descDistance_separates tw th tv ts a b Ht (Hv a Ha) (Hv b Hb) Hab)
      as (? & ? & ? & ?).
    apply Hne; assumption.
Qed.

(** ** Composer *)

Lemma appendMatchingFonts_app out descs tw th tv ts :
  appendMatchingFonts out descs tw th tv ts
  = out ++ appendMatchingFonts [] descs tw th tv ts.
Proof.
  unfold appendMatchingFonts.
  destruct (matchLoop _ descs None 0); [reflexivity|].
  symmetry; apply app_nil_r.
Qed.

Lemma appendMatchingFonts_cases descs tw th tv ts :
  (descs = [] /\ appendMatchingFonts [] descs tw th tv ts = []) \/
  (exists m, In m descs /\ appendMatchingFonts [] descs tw th tv ts = [m]).
Proof.
  destruct descs as [|d rest]; [left; auto|right].
  unfold appendMatchingFonts.
  destruct (matchLoop_nonempty (descDistance tw th tv ts) d rest)
    as (m & Hm & Hin & _).
  exists m. rewrite Hm. auto.
Qed.

Section Composer.
Variable fontDescriptions : gmap string (gmap string (list fontDesc)).
Variables tw th tv ts : Z.

Lemma fold_combo families acc :
    fold_left
      (fun acc comboFamily =>
         appendMatchingFonts acc
           (group fontDescriptions comboFamily EmptyString) tw th tv ts)
      families acc
    = acc ++ flat_map
               (fun c => appendMatchingFonts []
                           (group fontDescriptions c EmptyString) tw th tv ts)
               families.
  Proof.
    revert acc. induction families as [|c cs IH]; intros acc; cbn [fold_left flat_map].
    - symmetry; apply app_nil_r.
    - rewrite IH, appendMatchingFonts_app, <- app_assoc. reflexivity.
  Qed.

Lemma fold_languages input languages acc :
    fold_left
      (fun acc l =>
         if String.eqb l EmptyString then acc
         else appendMatchingFonts acc (group fontDescriptions input l)
                tw th tv ts)
      languages acc
    = acc ++ flat_map
               (fun l => appendMatchingFonts []
                           (group fontDescriptions input l) tw th tv ts)
               (filter (fun l => l <> EmptyString) languages).
  Proof.
    revert acc. induction languages as [|l ls IH]; intros acc; cbn [fold_left].
    - symmetry; apply app_nil_r.
    - rewrite IH. rewrite filter_cons.
      destruct (String.eqb_spec l EmptyString) as [->|Hne].
      + destruct (decide (EmptyString <> EmptyString)); [congruence|reflexivity].
      + destruct (decide (l <> EmptyString)); [|tauto].
        cbn [flat_map]. rewrite appendMatchingFonts_app, <- app_assoc.
        reflexivity.
  Qed.
End Composer.

Lemma flat_map_map {A B C} (f : B -> list C) (g : A -> B) l :
  flat_map f (map g l) = flat_map (fun x => f (g x)) l.
Proof.
  induction l as [|x l IH]; [reflexivity|]. cbn [map flat_map]. rewrite IH. reflexivity.
Qed.

Lemma map_flat_map {A B C} (f : A -> list B) (g : B -> C) l :
  map g (flat_map f l) = flat_map (fun x => map g (f x)) l.
Proof.
  induction l as [|x l IH]; [reflexivity|].
  cbn [flat_map]. rewrite map_app, IH. reflexivity.
Qed.

(** The descriptors of the tagged sequence are the list the source
    builds. *)
Lemma sourceFontsOf_mergeSequence fontDescriptions languages outFamily :
  sourceFontsOf fontDescriptions languages outFamily
  = map snd (mergeSequence fontDescriptions languages outFamily).
Proof.
  unfold sourceFontsOf, mergeSequence, mergeSteps, selectedEntries.
  rewrite !fold_combo, fold_languages.
  rewrite map_flat_map. cbn [flat_map fst snd].
  rewrite !flat_map_app, !flat_map_map. cbn [fst snd].
  rewrite !map_map. cbn [snd]. rewrite !map_id.
  rewrite <- !app_assoc.
  f_equal. f_equal; [|f_equal].
  all: apply flat_map_ext; intros x; rewrite map_map; cbn [snd];
    rewrite map_id; reflexivity.
Qed.

(** C3 as stated fails: with one default-language font in the primary
    family [Sans] and one in the combo family [Emoji], the merge
    sequence of [notosans] holds two entries of the empty language
    code. *)
Lemma mergeSequence_two_default_entries :
  let sans := mkFontDesc "NotoSans-Regular.ttf" 4 3 1 0 in
  let emoji := mkFontDesc "NotoEmoji-Regular.ttf" 4 3 1 0 in
  let fontDescriptions : gmap string (gmap string (list fontDesc)) :=
    {[ "Sans"%string := {[ ""%string := [sans] ]};
       "Emoji"%string := {[ ""%string := [emoji] ]} ]} in
  let languages := sortedLanguages {[ ""%string ]} in
  mergeSequence fontDescriptions languages notosans
    = [("Sans"%string, ""%string, sans); ("Emoji"%string, ""%string, emoji)]
  /\ sourceFontsOf fontDescriptions languages notosans = [sans; emoji]
  /\ ~ onePerLanguage (mergeSequence fontDescriptions languages notosans).
Proof.
  cbv zeta.
  assert (E : mergeSequence
    ({[ "Sans"%string := {[ ""%string := [mkFontDesc "NotoSans-Regular.ttf" 4 3 1 0] ]};
        "Emoji"%string := {[ ""%string := [mkFontDesc "NotoEmoji-Regular.ttf" 4 3 1 0] ]} ]}
       : gmap string (gmap string (list fontDesc)))
    (sortedLanguages {[ ""%string ]}) notosans
    = [("Sans"%string, ""%string, mkFontDesc "NotoSans-Regular.ttf" 4 3 1 0);
       ("Emoji"%string, ""%string, mkFontDesc "NotoEmoji-Regular.ttf" 4 3 1 0)])
    by (vm_compute; reflexivity).
  split; [exact E|]. split.
  - rewrite sourceFontsOf_mergeSequence, E. reflexivity.
  - rewrite E. unfold onePerLanguage. cbn [map entryLanguage fst snd].
    intros H. apply NoDup_cons in H. destruct H as [H _].
    apply H. left.
Qed.

Section MergeSequence.
Variable fontDescriptions : gmap string (gmap string (list fontDesc)).
Variables tw th tv ts : Z.

Lemma selectedEntries_cases st :
    selectedEntries fontDescriptions tw th tv ts st = [] \/
    exists m, In m (group fontDescriptions (fst st) (snd st)) /\
              selectedEntries fontDescriptions tw th tv ts st = [(fst st, snd st, m)].
  Proof.
    unfold selectedEntries.
    destruct (appendMatchingFonts_cases
                (group fontDescriptions (fst st) (snd st)) tw th tv ts)
      as [[_ ->]|(m & Hin & ->)]; [left; reflexivity|right].
    exists m. split; [exact Hin|reflexivity].
  Qed.

Lemma entries_languages_sublist (P : string -> Prop)
      `{forall x, Decision (P x)} steps :
    filter P (map entryLanguage (flat_map (selectedEntries fontDescriptions tw th tv ts) steps))
      `sublist_of` filter P (map snd steps).
  Proof.
    induction steps as [|st steps IH]; [constructor|].
    cbn [flat_map map]. rewrite map_app, filter_app, filter_cons.
    destruct (selectedEntries_cases st) as [->|(m & _ & ->)].
    - cbn [map app]. rewrite filter_nil. cbn [app].
      destruct (decide (P (snd st))); [apply sublist_cons|]; exact IH.
    - cbn [map entryLanguage fst snd]. rewrite filter_cons, filter_nil.
      destruct (decide (P (snd st))); cbn [app]; [apply sublist_skip|]; exact IH.
  Qed.

Lemma entries_provenance steps f l m :
    In (f, l, m) (flat_map (selectedEntries fontDescriptions tw th tv ts) steps) ->
    In (f, l) steps /\ In m (group fontDescriptions f l).
  Proof.
    induction steps as [|st steps IH]; cbn [flat_map]; [intros []|].
    rewrite in_app_iff. intros [Hin|Hin].
    - destruct (selectedEntries_cases st) as [E|(m' & Hm & E)]; rewrite E in Hin.
      + destruct Hin.
      + destruct Hin as [Heq|[]]. injection Heq as <- <- <-.
        split; [left; destruct st; reflexivity|exact Hm].
    - destruct (IH Hin) as [? ?]. split; [right; assumption|assumption].
  Qed.
End MergeSequence.

Lemma filter_const_false {A B} (P : B -> Prop) `{forall x, Decision (P x)}
    (b : B) (l : list A) :
  ~ P b -> filter P (map (fun _ => b) l) = [].
Proof.
  intros Hb. induction l as [|x l IH]; [reflexivity|].
  cbn [map]. rewrite filter_cons. destruct (decide (P b)); [tauto|exact IH].
Qed.

Lemma sortedLanguages_NoDup languageSet : NoDup (sortedLanguages languageSet).
Proof.
  unfold sortedLanguages. rewrite merge_sort_Permutation.
  apply NoDup_elements.
Qed.

Lemma sortedLanguages_elem languageSet l :
  In l (sortedLanguages languageSet) <-> l ∈ languageSet.
Proof.
  unfold sortedLanguages. rewrite <- list_elem_of_In, merge_sort_Permutation.
  apply elem_of_elements.
Qed.

(** C3, amended.  The merge sequence of an output family starts with
    the selection of the primary family's default-language group when
    that group is not empty; it holds at most one entry for each
    non-empty language code, taken from the primary family's group of
    that language; the empty language code occurs at most once for the
    primary family and once for every combo family listed.  The
    descriptors of the sequence are the list [sourceFontsOf] builds. *)
Theorem mergeSequence_order
    (fontDescriptions : gmap string (gmap string (list fontDesc)))
    (languageSet : gset string) (outFamily : outputFamily) :
  let languages := sortedLanguages languageSet in
  let entries := mergeSequence fontDescriptions languages outFamily in
  sourceFontsOf fontDescriptions languages outFamily = map snd entries /\
  (group fontDescriptions (inputFamily outFamily) EmptyString <> [] ->
   exists m rest,
     entries = (inputFamily outFamily, EmptyString, m) :: rest /\
     In m (group fontDescriptions (inputFamily outFamily) EmptyString)) /\
  NoDup (filter (fun l => l <> EmptyString) (map entryLanguage entries)) /\
  (forall f l m, In (f, l, m) entries ->
     In m (group fontDescriptions f l) /\
     (l <> EmptyString -> f = inputFamily outFamily /\ l ∈ languageSet)) /\
  (length (filter (fun l => l = EmptyString) (map entryLanguage entries))
   <= 1 + length (prependComboFamilies outFamily)
        + length (appendComboFamilies outFamily))%nat.
Proof.
  cbv zeta. split; [apply sourceFontsOf_mergeSequence|].
  unfold mergeSequence.
  set (tw := exactIndexOf (oWeight outFamily) weights).
  set (th := exactIndexOf (oHDensity outFamily) hDensities).
  set (tv := exactIndexOf (oVDensity outFamily) vDensities).
  set (ts := exactIndexOf (oStyle outFamily) styles).
  split; [|split; [|split]].
  - intros Hne. unfold mergeSteps. cbn [flat_map]. unfold selectedEntries at 1.
    cbn [fst snd].
    destruct (appendMatchingFonts_cases
                (group fontDescriptions (inputFamily outFamily) EmptyString)
                tw th tv ts) as [[E _]|(m & Hin & ->)]; [congruence|].
    exists m. eexists. split; [reflexivity|exact Hin].
  - eapply sublist_NoDup;
      [|apply (entries_languages_sublist fontDescriptions tw th tv ts)].
    unfold mergeSteps. cbn [map snd]. rewrite filter_cons.
    destruct (decide (EmptyString <> EmptyString)); [congruence|].
    rewrite !map_app, !map_map. cbn [snd]. rewrite !filter_app.
    rewrite !(filter_const_false (fun l => l <> EmptyString)) by tauto.
    rewrite map_id, app_nil_r. cbn [app].
    apply NoDup_filter, NoDup_filter, sortedLanguages_NoDup.
  - intros f l m Hin.
    apply (entries_provenance fontDescriptions tw th tv ts) in Hin.
    destruct Hin as [Hstep Hm]. split; [exact Hm|]. intros Hl.
    unfold mergeSteps in Hstep. cbn [In] in Hstep.
    rewrite !in_app_iff, !in_map_iff in Hstep.
    destruct Hstep as [E|[(c & E & _)|[(l' & E & Hl')|(c & E & _)]]];
      try (injection E as <- <-; congruence).
    injection E as <- <-. split; [reflexivity|].
    apply list_elem_of_In, list_elem_of_filter in Hl'.
    destruct Hl' as [_ Hl']. apply list_elem_of_In in Hl'.
    apply sortedLanguages_elem. exact Hl'.
  - etransitivity.
    { apply sublist_length.
      apply (entries_languages_sublist fontDescriptions tw th tv ts). }
    unfold mergeSteps. cbn [map snd]. rewrite filter_cons.
    destruct (decide (EmptyString = EmptyString)); [|congruence].
    rewrite !map_app, !map_map. cbn [snd length]. rewrite !filter_app.
    rewrite map_id.
    replace (filter (fun l => l = EmptyString)
               (filter (fun l => l <> EmptyString)
                  (sortedLanguages languageSet))) with (@nil string).
    2:{ symmetry. rewrite list_filter_filter.
        induction (sortedLanguages languageSet) as [|x xs IH]; [reflexivity|].
        rewrite filter_cons. destruct (decide (x = EmptyString /\ x <> EmptyString)); [tauto|exact IH]. }
    rewrite !length_app. cbn [length].
    pose proof (length_filter (fun l => l = EmptyString)
                  (map (fun _ : string => EmptyString) (prependComboFamilies outFamily))).
    pose proof (length_filter (fun l => l = EmptyString)
                  (map (fun _ : string => EmptyString) (appendComboFamilies outFamily))).
    rewrite length_map in *. lia.
Qed.

(** ** Classifier *)

(** *** Slices of strings *)

Lemma substring_0_length s : String.substring 0 (String.length s) s = s.
Proof. induction s as [|c s IH]; [reflexivity|]. cbn. rewrite IH. reflexivity. Qed.

Lemma substring_add a b c : forall s,
  String.substring a (b + c) s
  = (String.substring a b s ++ String.substring (a + b) c s)%string.
Proof.
  revert b. induction a as [|a IHa]; intros b s.
  - revert s. induction b as [|b IHb]; intros s.
    + destruct s, c; reflexivity.
    + destruct s as [|x s]; [destruct c; reflexivity|].
      cbn. rewrite IHb. reflexivity.
  - destruct s as [|x s].
    + cbn. destruct b, c; reflexivity.
    + cbn. apply IHa.
Qed.

Lemma substring_split s n :
  (n <= String.length s)%nat ->
  s = (String.substring 0 n s
       ++ String.substring n (String.length s - n) s)%string.
Proof.
  intros Hn. rewrite <- (substring_add 0 n).
  replace (n + (String.length s - n))%nat with (String.length s) by lia.
  symmetry. apply substring_0_length.
Qed.


Lemma append_String c (a b : string) :
  (String c a ++ b = String c (a ++ b))%string.
Proof. reflexivity. Qed.

Lemma string_app_length (a b : string) :
  String.length (a ++ b) = (String.length a + String.length b)%nat.
Proof.
  induction a as [|c a IH]; [reflexivity|].
  rewrite append_String. cbn [String.length]. rewrite IH. reflexivity.
Qed.


Lemma prefix_length x : forall s,
  String.prefix x s = true -> (String.length x <= String.length s)%nat.
Proof.
  induction x as [|c x IH]; intros s H; [cbn; lia|].
  destruct s as [|c' s]; [discriminate|]. cbn in H.
  destruct (ascii_dec c c'); [|discriminate]. cbn. apply IH in H. lia.
Qed.

(** A successful prefix test splits the string at the end of the
    prefix, a successful suffix test at the start of the suffix. *)
Lemma HasPrefix_split s x :
  HasPrefix s x = true -> s = (x ++ dropPrefix s x)%string.
Proof.
  unfold HasPrefix, dropPrefix. intros H.
  pose proof (prefix_length x s H) as Hlen.
  apply prefix_correct in H.
  rewrite (substring_split s (String.length x) Hlen) at 1.
  rewrite H. reflexivity.
Qed.

Lemma HasSuffix_split s x :
  HasSuffix s x = true -> s = (dropSuffix s x ++ x)%string.
Proof.
  unfold HasSuffix, dropSuffix. intros H.
  apply andb_true_iff in H. destruct H as [Hlen H].
  apply Nat.leb_le in Hlen. apply String.eqb_eq in H.
  rewrite (substring_split s (String.length s - String.length x)) at 1 by lia.
  replace (String.length s - (String.length s - String.length x))%nat
    with (String.length x) by lia.
  rewrite H. reflexivity.
Qed.

(** *** [indexOf] *)

Lemma matchesEntry_glue prefix s x :
  matchesEntry prefix s x = true ->
  s = glue prefix x (if prefix then dropPrefix s x else dropSuffix s x).
Proof.
  destruct prefix; cbn [matchesEntry glue]; intros H.
  - apply HasPrefix_split, H.
  - apply HasSuffix_split, H.
Qed.

(** The loop at index [i], after the entries [pre]: a hit is the first
    non-empty entry from [i] on that matches, and it is cut off; a miss
    leaves the string alone and returns the index of the last empty
    entry seen, or the incoming default when there is none. *)
Lemma indexOfLoop_spec s prefix l : forall pre i def j rest x,
  i = Z.of_nat (length pre) ->
  indexOfLoop s l prefix i def = (j, rest, x) ->
  (x <> EmptyString /\ i <= j /\ (pre ++ l) !! Z.to_nat j = Some x /\
   matchesEntry prefix s x = true /\ s = glue prefix x rest /\
   forall k y, i <= k < j -> (pre ++ l) !! Z.to_nat k = Some y ->
     y <> EmptyString -> matchesEntry prefix s y = false)
  \/
  (x = EmptyString /\ rest = s /\
   ((j = def /\ ~ In EmptyString l) \/
    (i <= j /\ (pre ++ l) !! Z.to_nat j = Some EmptyString)) /\
   forall y, In y l -> y <> EmptyString -> matchesEntry prefix s y = false).
Proof.
  induction l as [|y l IH]; intros pre i def j rest x Hi Hrun.
  - cbn [indexOfLoop] in Hrun. injection Hrun as <- <- <-.
    right. split; [reflexivity|]. split; [reflexivity|].
    split; [left; split; [reflexivity|intros []]|intros y []].
  - cbn [indexOfLoop] in Hrun.
    assert (Hpre : pre ++ y :: l = (pre ++ [y]) ++ l)
      by (rewrite <- app_assoc; reflexivity).
    assert (Hi' : i + 1 = Z.of_nat (length (pre ++ [y])))
      by (rewrite length_app; cbn [length]; lia).
    assert (Hy : (pre ++ y :: l) !! Z.to_nat i = Some y).
    { rewrite Hi, Nat2Z.id. apply list_lookup_middle. reflexivity. }
    assert (Hstep : forall k z, i <= k < i + 1 ->
              (pre ++ y :: l) !! Z.to_nat k = Some z -> z = y).
    { intros k z Hk Hz. replace k with i in Hz by lia. congruence. }
    destruct (String.eqb_spec y EmptyString) as [->|Hne].
    + (* an empty entry becomes the default *)
      destruct (IH _ _ _ _ _ _ Hi' Hrun)
        as [(Hx & Hj & Hlk & Hm & Hs & Hfirst)|(Hx & Hr & Hj & Hnone)].
      * left. rewrite Hpre. split; [exact Hx|]. split; [lia|].
        split; [exact Hlk|]. split; [exact Hm|]. split; [exact Hs|].
        intros k z Hk Hz Hzne.
        destruct (Z.eq_dec k i) as [->|Hki].
        -- rewrite <- Hpre in Hz. rewrite (Hstep i z) in Hzne by (lia || exact Hz).
           congruence.
        -- apply (Hfirst k z); [lia|exact Hz|exact Hzne].
      * right. split; [exact Hx|]. split; [exact Hr|]. split.
        -- right. destruct Hj as [[-> _]|[Hj Hlk]].
           ++ split; [lia|exact Hy].
           ++ rewrite Hpre. split; [lia|exact Hlk].
        -- intros z [<-|Hz] Hzne; [congruence|apply Hnone; assumption].
    + assert (Hcase : matchesEntry prefix s y = true /\
                      (j, rest, x) = (i, (if prefix then dropPrefix s y else dropSuffix s y), y)
                      \/ matchesEntry prefix s y = false /\
                         indexOfLoop s l prefix (i + 1) def = (j, rest, x)).
      { destruct prefix; cbn [matchesEntry].
        - destruct (HasPrefix s y); [left|right]; split; congruence.
        - destruct (HasSuffix s y); [left|right]; split; congruence. }
      destruct Hcase as [[Hm E]|[Hm Hrun']].
      * injection E as -> -> ->. left.
        split; [exact Hne|]. split; [lia|]. split; [exact Hy|].
        split; [exact Hm|]. split; [apply matchesEntry_glue, Hm|].
        intros k z Hk. lia.
      * destruct (IH _ _ _ _ _ _ Hi' Hrun')
          as [(Hx & Hj & Hlk & Hm' & Hs & Hfirst)|(Hx & Hr & Hj & Hnone)].
        -- left. rewrite Hpre. split; [exact Hx|]. split; [lia|].
           split; [exact Hlk|]. split; [exact Hm'|]. split; [exact Hs|].
           intros k z Hk Hz Hzne.
           destruct (Z.eq_dec k i) as [->|Hki].
           ++ rewrite <- Hpre in Hz. rewrite (Hstep i z); [exact Hm|lia|exact Hz].
           ++ apply (Hfirst k z); [lia|exact Hz|exact Hzne].
        -- right. split; [exact Hx|]. split; [exact Hr|]. split.
           ++ destruct Hj as [[-> Hnot]|[Hj Hlk]].
              ** left. split; [reflexivity|]. intros [E|Hin]; [congruence|tauto].
              ** right. rewrite Hpre. split; [lia|exact Hlk].
           ++ intros z [<-|Hz] Hzne; [exact Hm|apply Hnone; assumption].
Qed.

Lemma indexOf_spec s l prefix j rest x :
  indexOf s l prefix = (j, rest, x) ->
  (x <> EmptyString /\ 0 <= j /\ l !! Z.to_nat j = Some x /\
   matchesEntry prefix s x = true /\ s = glue prefix x rest /\
   forall k y, 0 <= k < j -> l !! Z.to_nat k = Some y ->
     y <> EmptyString -> matchesEntry prefix s y = false)
  \/
  (x = EmptyString /\ rest = s /\
   ((j = -1 /\ ~ In EmptyString l) \/
    (0 <= j /\ l !! Z.to_nat j = Some EmptyString)) /\
   forall y, In y l -> y <> EmptyString -> matchesEntry prefix s y = false).
Proof.
  intros H. exact (indexOfLoop_spec s prefix l [] 0 (-1) j rest x eq_refl H).
Qed.

(** *** [filepath.Ext] and [strings.SplitN] *)






Lemma families_nonempty : ~ In EmptyString families.
Proof. cbn [In families]. intuition discriminate. Qed.


Lemma lookup_index_range (l : list string) j x :
  0 <= j -> l !! Z.to_nat j = Some x -> 0 <= j < axisLen l.
Proof.
  intros Hj H. apply lookup_lt_Some in H. unfold axisLen. lia.
Qed.

Lemma indexOfLoop_last_empty s prefix l : forall pre i def j rest,
  i = Z.of_nat (length pre) ->
  indexOfLoop s l prefix i def = (j, rest, EmptyString) ->
  (j = def /\ ~ In EmptyString l) \/
  (i <= j /\ (pre ++ l) !! Z.to_nat j = Some EmptyString /\
   forall k : nat, (Z.to_nat j < k)%nat ->
     (pre ++ l) !! k <> Some EmptyString).
Proof.
  induction l as [|y l IH]; intros pre i def j rest Hi Hrun.
  - cbn [indexOfLoop] in Hrun. injection Hrun as <- <-.
    left. split; [reflexivity|intros []].
  - cbn [indexOfLoop] in Hrun.
    assert (Hpre : pre ++ y :: l = (pre ++ [y]) ++ l)
      by (rewrite <- app_assoc; reflexivity).
    assert (Hi' : i + 1 = Z.of_nat (length (pre ++ [y])))
      by (rewrite length_app; cbn [length]; lia).
    destruct (String.eqb_spec y EmptyString) as [->|Hne].
    + destruct (IH _ _ _ _ _ Hi' Hrun) as [[-> Hno]|(Hj & Hlk & Hlast)].
      * right. split; [lia|]. split.
        -- rewrite Hi, Nat2Z.id. apply list_lookup_middle. reflexivity.
        -- intros k Hk Hlkk. rewrite Hi, Nat2Z.id in Hk.
           rewrite lookup_app_r in Hlkk by lia.
           destruct (k - length pre)%nat as [|m] eqn:E; [lia|].
           cbn in Hlkk. apply Hno.
           apply list_elem_of_In, list_elem_of_lookup. eauto.
      * right. rewrite Hpre. split; [lia|]. split; [exact Hlk|exact Hlast].
    + assert (Hrun' : indexOfLoop s l prefix (i + 1) def
                      = (j, rest, EmptyString)).
      { destruct prefix.
        - destruct (HasPrefix s y); [congruence|exact Hrun].
        - destruct (HasSuffix s y); [congruence|exact Hrun]. }
      destruct (IH _ _ _ _ _ Hi' Hrun') as [[-> Hno]|(Hj & Hlk & Hlast)].
      * left. split; [reflexivity|]. intros [E|Hin]; [congruence|tauto].
      * right. rewrite Hpre. split; [lia|]. split; [exact Hlk|exact Hlast].
Qed.

Lemma indexOf_range s l prefix j rest x :
  indexOf s l prefix = (j, rest, x) ->
  (j = -1 /\ ~ In EmptyString l) \/
  (0 <= j < axisLen l /\ l !! Z.to_nat j = Some x).
Proof.
  intros H. apply indexOf_spec in H.
  destruct H as [(_ & Hj & Hlk & _)|(-> & _ & [[-> Hno]|[Hj Hlk]] & _)].
  - right. split; [eapply lookup_index_range; eassumption|exact Hlk].
  - left. auto.
  - right. split; [eapply lookup_index_range; eassumption|exact Hlk].
Qed.






(** ** [seekBuffer] *)

Lemma copyBytes_fits (dst src : list byte) :
  (length src <= length dst)%nat ->
  copyBytes dst src = (src ++ drop (length src) dst, Z.of_nat (length src)).
Proof.
  intros H. unfold copyBytes. rewrite take_ge by lia. f_equal. lia.
Qed.

(** The slice [Write] copies into: the old contents followed by what
    the growth added, long enough for the bytes to write. *)
Lemma Write_grown sb (p : list byte) :
  posInRange sb ->
  exists b ext,
    (if pos sb + Z.of_nat (length p) >? len (buf sb) then
       if pos sb + Z.of_nat (length p) >? cap (buf sb) then
         match makeSlice (pos sb + Z.of_nat (length p))
                 (2 * len (buf sb) + Z.of_nat (length p)) with
         | Some fresh =>
             Some (mkSlice (fst (copyBytes (elems fresh) (elems (buf sb))))
                           (spare fresh))
         | None => None
         end
       else reslice (buf sb) (pos sb + Z.of_nat (length p))
     else Some (buf sb)) = Some b /\
    elems b = elems (buf sb) ++ ext /\
    pos sb + Z.of_nat (length p) <= len b /\
    (ext <> [] -> len b = pos sb + Z.of_nat (length p)).
Proof.
  unfold posInRange, cap, len. intros Hpos.
  set (n := Z.of_nat (length p)).
  set (E := elems (buf sb)) in *.
  assert (Hn : 0 <= n) by (unfold n; lia).
  destruct (Z.gtb_spec (pos sb + n) (Z.of_nat (length E))) as [Hgrow|Hfit].
  - destruct (Z.gtb_spec (pos sb + n)
                (Z.of_nat (length E) + Z.of_nat (length (spare (buf sb)))))
      as [Hcap|Hcap].
    + unfold makeSlice.
      replace ((0 <=? pos sb + n)
               && (pos sb + n <=? 2 * Z.of_nat (length E) + n)) with true
        by (symmetry; apply andb_true_iff; split; apply Z.leb_le; lia).
      cbn [elems spare].
      eexists. exists (drop (length E) (repeat x00 (Z.to_nat (pos sb + n)))).
      split; [reflexivity|]. cbn [elems].
      unfold copyBytes. cbn [fst]. rewrite repeat_length.
      rewrite take_ge by lia.
      split; [reflexivity|].
      rewrite length_app, length_drop, repeat_length. split; [lia|].
      intros _. lia.
    + unfold reslice, cap, len. fold E.
      replace ((0 <=? pos sb + n)
               && (pos sb + n <=? Z.of_nat (length E)
                                  + Z.of_nat (length (spare (buf sb)))))
        with true
        by (symmetry; apply andb_true_iff; split; apply Z.leb_le; lia).
      eexists. exists (take (Z.to_nat (pos sb + n) - length E) (spare (buf sb))).
      split; [reflexivity|]. cbn [elems].
      rewrite take_app. rewrite take_ge by lia.
      split; [reflexivity|].
      rewrite length_app, length_take. split; [lia|]. intros _. lia.
  - exists (buf sb), []. split; [reflexivity|].
    rewrite app_nil_r. fold E. split; [reflexivity|]. split; [lia|congruence].
Qed.

Lemma Write_spec sb (p : list byte) :
  posInRange sb ->
  exists sb',
    Write sb p = Some (sb', Z.of_nat (length p), None) /\
    elems (buf sb')
    = take (Z.to_nat (pos sb)) (elems (buf sb)) ++ p
      ++ drop (Z.to_nat (pos sb) + length p) (elems (buf sb)) /\
    pos sb' = pos sb + Z.of_nat (length p) /\
    posInRange sb'.
Proof.
  intros Hpos. destruct (Write_grown sb p Hpos) as (b & ext & Hb & He & Hlen & Hext).
  unfold Write. rewrite Hb. clear Hb.
  unfold posInRange, len in *.
  replace ((pos sb <? 0) || (pos sb >? Z.of_nat (length (elems b)))) with false
    by (symmetry; apply orb_false_iff; split; lia).
  rewrite copyBytes_fits by (rewrite length_drop; lia).
  eexists. split; [reflexivity|]. cbn [buf pos elems].
  split; [|split; [reflexivity|]].
  - rewrite He. rewrite take_app_le by lia. f_equal. f_equal.
    rewrite drop_drop.
    destruct ext as [|x ext]; [rewrite app_nil_r; reflexivity|].
    specialize (Hext ltac:(discriminate)). rewrite He in Hext, Hlen.
    rewrite length_app in Hext, Hlen. cbn [length] in Hext, Hlen.
    rewrite !drop_ge; [reflexivity|lia|rewrite length_app; cbn [length]; lia].
  - rewrite length_app, length_app, length_take, length_drop, length_drop. lia.
Qed.

Lemma clampPos_spec sb :
  buf (clampPos sb) = buf sb /\
  pos (clampPos sb) = Z.max 0 (Z.min (pos sb) (len (buf sb))).
Proof.
  unfold clampPos, len.
  destruct (Z.ltb_spec (pos sb) 0); [cbn [buf pos]; split; [reflexivity|lia]|].
  destruct (Z.gtb_spec (pos sb) (Z.of_nat (length (elems (buf sb)))));
    cbn [buf pos]; split; try reflexivity; lia.
Qed.

Lemma Seek_spec sb offset whence :
  posInRange sb -> len (buf sb) <= maxInt64 ->
  minInt64 <= offset <= maxInt64 ->
  exists sb' err,
    Seek sb offset whence = (sb', pos sb', err) /\
    posInRange sb' /\ buf sb' = buf sb /\
    (err <> None <-> whence = SeekStart /\ offset < 0) /\
    (err <> None -> pos sb' = pos sb) /\
    (err = None ->
     (whence = SeekCurrent -> pos sb + offset <= maxInt64) ->
     pos sb' = Z.max 0 (Z.min (seekTarget sb offset whence) (len (buf sb)))) /\
    (whence = SeekCurrent -> maxInt64 < pos sb + offset -> pos sb' = 0).
Proof.
  unfold posInRange, maxInt64, minInt64, Seek, seekTarget.
  unfold SeekStart, SeekEnd, SeekCurrent.
  intros Hpos Hlen Hoff.
  assert (Hl : 0 <= len (buf sb)) by (unfold len; lia).
  destruct (Z.eqb_spec whence 0) as [->|H0]; cbn [andb].
  - destruct (Z.ltb_spec offset 0) as [Hneg|Hnn].
    + exists sb. eexists. split; [reflexivity|].
      split; [exact Hpos|]. split; [reflexivity|].
      split; [split; [auto|discriminate]|].
      split; [reflexivity|]. split; [discriminate|discriminate].
    + destruct (clampPos_spec (mkSeekBuffer (buf sb) offset)) as [Eb Ep].
      cbn [buf pos] in Eb, Ep.
      eexists. exists None. split; [reflexivity|].
      rewrite Eb, Ep.
      split; [lia|]. split; [reflexivity|].
      split; [split; [congruence|lia]|].
      split; [congruence|]. split; [reflexivity|discriminate].
  - destruct (Z.eqb_spec whence 2) as [->|H2].
    + destruct (Z.geb_spec offset 0) as [Hnn|Hneg].
      * destruct (clampPos_spec (mkSeekBuffer (buf sb) (len (buf sb)))) as [Eb Ep].
        cbn [buf pos] in Eb, Ep.
        eexists. exists None. split; [reflexivity|].
        rewrite Eb, Ep.
        split; [lia|]. split; [reflexivity|].
        split; [split; [congruence|lia]|].
        split; [congruence|]. split; [intros; lia|discriminate].
      * unfold add64. rewrite wrap64_small by lia.
        destruct (clampPos_spec
                    (mkSeekBuffer (buf sb) (len (buf sb) + offset)))
          as [Eb Ep].
        cbn [buf pos] in Eb, Ep.
        eexists. exists None. split; [reflexivity|].
        rewrite Eb, Ep.
        split; [lia|]. split; [reflexivity|].
        split; [split; [congruence|lia]|].
        split; [congruence|]. split; [reflexivity|discriminate].
    + destruct (Z.eqb_spec whence 1) as [->|H1].
      * destruct (clampPos_spec
                    (mkSeekBuffer (buf sb) (add64 (pos sb) offset)))
          as [Eb Ep].
        cbn [buf pos] in Eb, Ep.
        pose proof (wrap64_range (pos sb + offset)) as Hr.
        eexists. exists None. split; [reflexivity|].
        rewrite Eb, Ep. unfold add64.
        split; [lia|]. split; [reflexivity|].
        split; [split; [congruence|lia]|].
        split; [congruence|]. split.
        -- intros _ Hno. rewrite wrap64_small by lia. reflexivity.
        -- intros _ Hover. unfold wrap64.
           replace (pos sb + offset + 2 ^ 63)
             with ((pos sb + offset - 2 ^ 63) + 1 * 2 ^ 64) by lia.
           rewrite Z_mod_plus_full, Z.mod_small by lia. lia.
      * destruct (clampPos_spec sb) as [Eb Ep].
        eexists. exists None. split; [reflexivity|].
        rewrite Eb, Ep.
        split; [lia|]. split; [reflexivity|].
        split; [split; [congruence|lia]|].
        split; [congruence|]. split; [intros; lia|intros; lia].
Qed.

(** C10.  Started from a position within [0, len(buf)], each of
    [Reset], [Write] and [Seek] ends in such a position.  [Write]
    returns [(len(p), nil)]; afterwards the buffer holds the old bytes
    before the old position, then [p], then the old bytes that lay
    beyond the written range, and the position has advanced by
    [len(p)].  [Seek] always returns the new position; it reports an
    error exactly for a negative offset from the start, leaving the
    position alone, and otherwise moves to the requested position
    clamped into [0, len(buf)] (for a seek from the current position
    provided the sum fits an [int]; a sum that overflows wraps to a
    negative value and ends at position 0).  [Seek] never changes the
    bytes. *)
Theorem seekBuffer_position_invariant sb (p : list byte) offset whence :
  posInRange sb -> len (buf sb) <= maxInt64 ->
  minInt64 <= offset <= maxInt64 ->
  posInRange (Reset sb) /\
  (exists sb',
     Write sb p = Some (sb', Z.of_nat (length p), None) /\
     elems (buf sb')
     = take (Z.to_nat (pos sb)) (elems (buf sb)) ++ p
       ++ drop (Z.to_nat (pos sb) + length p) (elems (buf sb)) /\
     pos sb' = pos sb + Z.of_nat (length p) /\
     posInRange sb') /\
  (exists sb' err,
     Seek sb offset whence = (sb', pos sb', err) /\
     posInRange sb' /\ buf sb' = buf sb /\
     (err <> None <-> whence = SeekStart /\ offset < 0) /\
     (err <> None -> pos sb' = pos sb) /\
     (err = None ->
      (whence = SeekCurrent -> pos sb + offset <= maxInt64) ->
      pos sb' = Z.max 0 (Z.min (seekTarget sb offset whence) (len (buf sb)))) /\
     (whence = SeekCurrent -> maxInt64 < pos sb + offset -> pos sb' = 0)).
Proof.
  intros Hpos Hlen Hoff. split; [|split].
  - unfold posInRange, Reset, len. cbn [buf pos elems length]. lia.
  - apply Write_spec, Hpos.
  - apply Seek_spec; assumption.
Qed.

Lemma seekBuffer_position_invariant_witness :
  posInRange (mkSeekBuffer (mkSlice [x01; x02; x03] [x00]) 1) /\
  len (mkSlice [x01; x02; x03] [x00]) <= maxInt64 /\
  minInt64 <= -1 <= maxInt64 /\
  posInRange (Reset (mkSeekBuffer (mkSlice [x01; x02; x03] [x00]) 1)) /\
  (exists sb',
     Write (mkSeekBuffer (mkSlice [x01; x02; x03] [x00]) 1) [xff; xfe; xfd]
       = Some (sb', Z.of_nat (length [xff; xfe; xfd]), None) /\
     elems (buf sb')
     = take (Z.to_nat 1) [x01; x02; x03] ++ [xff; xfe; xfd]
       ++ drop (Z.to_nat 1 + length [xff; xfe; xfd]) [x01; x02; x03] /\
     pos sb' = 1 + Z.of_nat (length [xff; xfe; xfd]) /\
     posInRange sb') /\
  (exists sb' err,
     Seek (mkSeekBuffer (mkSlice [x01; x02; x03] [x00]) 1) (-1) SeekEnd
       = (sb', pos sb', err) /\
     posInRange sb' /\ buf sb' = mkSlice [x01; x02; x03] [x00] /\
     (err <> None <-> SeekEnd = SeekStart /\ -1 < 0) /\
     (err <> None -> pos sb' = 1) /\
     (err = None ->
      (SeekEnd = SeekCurrent -> 1 + -1 <= maxInt64) ->
      pos sb' = Z.max 0 (Z.min
        (seekTarget (mkSeekBuffer (mkSlice [x01; x02; x03] [x00]) 1) (-1) SeekEnd)
        (len (mkSlice [x01; x02; x03] [x00])))) /\
     (SeekEnd = SeekCurrent -> maxInt64 < 1 + -1 -> pos sb' = 0)).
Proof.
  assert (H1 : posInRange (mkSeekBuffer (mkSlice [x01; x02; x03] [x00]) 1))
    by (unfold posInRange, len; cbn; lia).
  assert (H2 : len (buf (mkSeekBuffer (mkSlice [x01; x02; x03] [x00]) 1))
               <= maxInt64)
    by (unfold len, maxInt64; cbn; lia).
  assert (H3 : minInt64 <= -1 <= maxInt64)
    by (unfold minInt64, maxInt64; lia).
  split; [exact H1|]. split; [exact H2|]. split; [exact H3|].
  exact (seekBuffer_position_invariant
           (mkSeekBuffer (mkSlice [x01; x02; x03] [x00]) 1)
           [xff; xfe; xfd] (-1) SeekEnd H1 H2 H3).
Defined.

(** [Write] within the capacity reslices, past the capacity it
    allocates [2*len(buf)+len(p)] bytes: its value on a buffer of three
    bytes with one spare byte, written to at position 1. *)
Example Write_reslices :
  Write (mkSeekBuffer (mkSlice [x01; x02; x03] [x00]) 1) [xff; xfe; xfd]
  = Some (mkSeekBuffer (mkSlice [x01; xff; xfe; xfd] []) 4, 3, None).
Proof. vm_compute. reflexivity. Qed.

Example Write_grows :
  Write (mkSeekBuffer (mkSlice [x01; x02; x03] [x00]) 1) [xff; xfe; xfd; xfc]
  = Some (mkSeekBuffer
            (mkSlice [x01; xff; xfe; xfd; xfc] [x00; x00; x00; x00; x00]) 5,
          4, None).
Proof. vm_compute. reflexivity. Qed.

(** ** Chunk encoder *)

(** *** Words and bytes *)
Local Open Scope Z_scope.

Lemma byteZ_range b : 0 <= byteZ b < 256.
Proof.
  unfold byteZ. pose proof (Byte.to_N_bounded b) as H.
  lia.
Qed.

Lemma byteOfZ_byteZ b : byteOfZ (byteZ b) = b.
Proof.
  unfold byteOfZ. rewrite Z.mod_small by apply byteZ_range.
  unfold byteZ. rewrite N2Z.id, Byte.of_to_N. reflexivity.
Qed.

Lemma byteOfZ_mod z : byteOfZ (z mod 256) = byteOfZ z.
Proof. unfold byteOfZ. rewrite Z.mod_mod by lia. reflexivity. Qed.

Lemma lor_shiftl_add a b n :
  0 <= n -> 0 <= a < 2 ^ n -> Z.lor a (Z.shiftl b n) = a + b * 2 ^ n.
Proof.
  intros Hn Ha.
  rewrite <- Z.shiftl_mul_pow2 by assumption.
  pose proof (Z.add_lor_land a (Z.shiftl b n)) as Hadd.
  assert (Hland : Z.land a (Z.shiftl b n) = 0); [|lia].
  apply Z.bits_inj'. intros i Hi.
  rewrite Z.land_spec, Z.bits_0.
  destruct (Z.ltb_spec i n).
  - rewrite Z.shiftl_spec_low by assumption. apply andb_false_r.
  - destruct (Z.eq_dec a 0) as [->|Hne]; [rewrite Z.bits_0; reflexivity|].
    rewrite (Z.bits_above_log2 a i); [reflexivity|lia|].
    apply Z.lt_le_trans with n; [|assumption].
    apply Z.log2_lt_pow2; lia.
Qed.

Lemma Uint64_sum b0 b1 b2 b3 b4 b5 b6 b7 tl :
  Uint64 (b0 :: b1 :: b2 :: b3 :: b4 :: b5 :: b6 :: b7 :: tl) =
  byteZ b0 + byteZ b1 * 2 ^ 8 + byteZ b2 * 2 ^ 16 + byteZ b3 * 2 ^ 24
  + byteZ b4 * 2 ^ 32 + byteZ b5 * 2 ^ 40 + byteZ b6 * 2 ^ 48
  + byteZ b7 * 2 ^ 56.
Proof.
  pose proof (byteZ_range b0). pose proof (byteZ_range b1).
  pose proof (byteZ_range b2). pose proof (byteZ_range b3).
  pose proof (byteZ_range b4). pose proof (byteZ_range b5).
  pose proof (byteZ_range b6). pose proof (byteZ_range b7).
  unfold Uint64.
  rewrite (lor_shiftl_add _ (byteZ b1)) by lia.
  rewrite (lor_shiftl_add _ (byteZ b2)) by lia.
  rewrite (lor_shiftl_add _ (byteZ b3)) by lia.
  rewrite (lor_shiftl_add _ (byteZ b4)) by lia.
  rewrite (lor_shiftl_add _ (byteZ b5)) by lia.
  rewrite (lor_shiftl_add _ (byteZ b6)) by lia.
  rewrite (lor_shiftl_add _ (byteZ b7)) by lia.
  reflexivity.
Qed.

Lemma mask_byte u k :
  0 <= k ->
  byteOfZ (Z.shiftr (Z.land u (Z.shiftl 255 k)) k) = byteOfZ (u / 2 ^ k).
Proof.
  intros Hk. rewrite Z.shiftr_land, Z.shiftr_shiftl_l by assumption.
  rewrite Z.sub_diag. change (Z.shiftl 255 0) with (Z.ones 8).
  rewrite Z.land_ones by lia. rewrite Z.shiftr_div_pow2 by assumption.
  apply byteOfZ_mod.
Qed.

Lemma byteOfZ_eq z b : z mod 256 = byteZ b -> byteOfZ z = b.
Proof. intros H. rewrite <- byteOfZ_mod, H. apply byteOfZ_byteZ. Qed.

Lemma wordBytes_Uint64 b0 b1 b2 b3 b4 b5 b6 b7 tl :
  wordBytes (Uint64 (b0 :: b1 :: b2 :: b3 :: b4 :: b5 :: b6 :: b7 :: tl))
  = [b0; b1; b2; b3; b4; b5; b6; b7].
Proof.
  rewrite Uint64_sum.
  pose proof (byteZ_range b0). pose proof (byteZ_range b1).
  pose proof (byteZ_range b2). pose proof (byteZ_range b3).
  pose proof (byteZ_range b4). pose proof (byteZ_range b5).
  pose proof (byteZ_range b6). pose proof (byteZ_range b7).
  unfold wordBytes.
  change 0xff with (Z.ones 8). rewrite Z.land_ones by lia.
  change 0xff00 with (Z.shiftl 255 8).
  change 0xff0000 with (Z.shiftl 255 16).
  change 0xff000000 with (Z.shiftl 255 24).
  change 0xff00000000 with (Z.shiftl 255 32).
  change 0xff0000000000 with (Z.shiftl 255 40).
  change 0xff000000000000 with (Z.shiftl 255 48).
  change 0xff00000000000000 with (Z.shiftl 255 56).
  rewrite !mask_byte by lia.
  repeat f_equal; apply byteOfZ_eq; change (2 ^ 8) with 256;
    change (2 ^ 16) with 65536; change (2 ^ 24) with 16777216;
    change (2 ^ 32) with 4294967296; change (2 ^ 40) with 1099511627776;
    change (2 ^ 48) with 281474976710656;
    change (2 ^ 56) with 72057594037927936.
  all: Z.div_mod_to_equations; lia.
Qed.

Lemma payload_cons w ws : payload (w :: ws) = wordBytes w ++ payload ws.
Proof. reflexivity. Qed.

Lemma payload_app ws1 ws2 : payload (ws1 ++ ws2) = payload ws1 ++ payload ws2.
Proof. unfold payload. rewrite !flat_map_concat_map, map_app, concat_app. reflexivity. Qed.

Lemma payload_length ws : length (payload ws) = (8 * length ws)%nat.
Proof. induction ws as [|w ws IH]; [reflexivity|]. rewrite payload_cons, length_app, IH. cbn [wordBytes length]. lia. Qed.

Lemma payload_encodeWords k : forall b,
  (8 * k <= length b)%nat -> payload (encodeWords k b) = take (8 * k) b.
Proof.
  induction k as [|k IH]; intros b Hb; [reflexivity|].
  do 8 (destruct b as [|? b]; [cbn [length] in Hb; lia|]).
  cbn [length] in Hb.
  replace (8 * S k)%nat with (S (S (S (S (S (S (S (S (8 * k)))))))))%nat by lia.
  cbn [encodeWords take firstn drop skipn].
  rewrite take_0, drop_0, payload_cons, wordBytes_Uint64, IH by lia.
  reflexivity.
Qed.

Lemma copyBytes_length dst src : length (copyBytes dst src).1 = length dst.
Proof. unfold copyBytes. cbn [fst]. rewrite length_app, length_take, length_drop. lia. Qed.

Lemma take_app_exact {A} (l1 l2 : list A) n : n = length l1 -> take n (l1 ++ l2) = l1.
Proof. intros ->. apply take_app_length. Qed.

Lemma writeChunkLoop_spec fuel : forall r buf comma out count,
  (length (pending r) < fuel)%nat ->
  Z.of_nat (length buf) = blockSize ->
  let c := Z.min (Z.max (limit r) 0) (Z.of_nat (length (pending r))) in
  exists ws pad,
    writeChunkLoop fuel r buf comma out count
    = Some (comma || (0 <? c), out ++ ws, count + c,
            mkLimitedReader (drop (Z.to_nat c) (pending r)) (limit r - c))
    /\ payload ws = take (Z.to_nat c) (pending r) ++ pad
    /\ Z.of_nat (length pad) = (- c) mod 8.
Proof.
  induction fuel as [|fuel IH]; intros r buf comma out count Hfuel Hbuf c; [lia|].
  destruct r as [pr lim]. cbn [pending limit] in *.
  cbn [writeChunkLoop]. unfold ReadFull. cbn [pending limit].
  set (k := Z.to_nat (Z.min blockSize lim)).
  set (got := take k pr).
  assert (Hn : Z.of_nat (length got) = Z.min blockSize c).
  { unfold got, k, c. rewrite length_take. unfold blockSize. lia. }
  set (buf1 := got ++ drop (length got) buf).
  assert (Hbuf1 : Z.of_nat (length buf1) = blockSize).
  { unfold buf1. rewrite length_app, length_drop. unfold blockSize in *. lia. }
  set (n0 := Z.of_nat (length got)) in *.
  unfold blockSize in *.
  destruct (Z.eqb_spec n0 4096) as [Hfull|Hpart].
  - (* a full block: the loop goes on *)
    rewrite Hfull. change (negb (4096 mod 8 =? 0)) with false. cbv iota beta.
    change (Z.to_nat ((4096 + 7) / 8)) with (Z.to_nat 512).
    change (0 <? 4096) with true. rewrite orb_true_r.
    assert (Hk : k = Z.to_nat 4096) by (unfold k; lia).
    assert (Hgot : buf1 = got).
    { unfold buf1. rewrite drop_ge by lia. apply app_nil_r. }
    destruct (IH (mkLimitedReader (drop k pr) (lim - 4096)) buf1 true
                (out ++ encodeWords (Z.to_nat 512) buf1) (count + 4096))
      as (ws & pad & Hrun & Hpay & Hpad).
    { cbn [pending]. rewrite length_drop. lia. }
    { assumption. }
    cbn [pending limit] in Hrun, Hpay, Hpad.
    rewrite length_drop in Hrun, Hpay, Hpad.
    set (c' := Z.min (Z.max (lim - 4096) 0) (Z.of_nat (length pr - k))) in *.
    assert (Hc : c = 4096 + c') by (unfold c, c'; lia).
    exists (encodeWords (Z.to_nat 512) buf1 ++ ws), pad.
    rewrite Hrun. split; [|split].
    + rewrite Hc, drop_drop, <- app_assoc.
      replace (0 <? 4096 + c') with true by lia.
      rewrite orb_true_r. cbn [orb].
      replace (k + Z.to_nat c')%nat with (Z.to_nat (4096 + c')) by lia.
      replace (count + 4096 + c') with (count + (4096 + c')) by lia.
      replace (lim - 4096 - c') with (lim - (4096 + c')) by lia.
      reflexivity.
    + rewrite payload_app, Hpay, payload_encodeWords by lia.
      rewrite Hgot at 1. rewrite take_ge by lia.
      rewrite app_assoc. f_equal.
      rewrite Hc. replace (Z.to_nat (4096 + c')) with (k + Z.to_nat c')%nat by lia.
      unfold got. rewrite take_take_drop. reflexivity.
    + rewrite Hpad, Hc. Z.div_mod_to_equations; lia.
  - (* the last block of the chunk *)
    assert (Hc : n0 = c) by lia.
    assert (Hgot : got = take (Z.to_nat c) pr).
    { unfold got. destruct (Nat.le_gt_cases k (length pr)).
      - f_equal. lia.
      - rewrite !take_ge by lia. reflexivity. }
    assert (Hlen : length got = Z.to_nat c) by lia.
    assert (Htake : take (length got) buf1 = got).
    { unfold buf1. apply take_app_exact. reflexivity. }
    replace (n0 =? 4096) with false by lia.
    rewrite <- Hgot, <- Hc.
    replace (drop (Z.to_nat n0) pr) with (drop k pr).
    2:{ destruct (Nat.le_gt_cases k (length pr)).
        - f_equal. lia.
        - rewrite !drop_ge by lia. reflexivity. }
    assert (Herr : (if n0 =? 0 then Some EOF else Some ErrUnexpectedEOF)
                   = Some (if n0 =? 0 then EOF else ErrUnexpectedEOF))
      by (destruct (n0 =? 0); reflexivity).
    rewrite Herr; clear Herr.
    assert (Hmore : forall n, (n0 = 0 -> n = 0) ->
      negb (isEOF (if n0 =? 0 then EOF else ErrUnexpectedEOF)
            && negb (comma || (0 <? n))) = comma || (0 <? n0)).
    { intros n Hz. destruct (Z.eqb_spec n0 0) as [H0|H0]; cbn [isEOF andb negb].
      - rewrite (Hz H0), H0. change (0 <? 0) with false.
        rewrite orb_false_r. apply negb_involutive.
      - replace (0 <? n0) with true by lia. rewrite orb_true_r. reflexivity. }
    destruct (Z.eqb_spec (n0 mod 8) 0) as [Hal|Hunal]; cbn [negb]; cbv iota beta.
    + exists (encodeWords (Z.to_nat ((n0 + 7) / 8)) buf1), [].
      rewrite Hmore by tauto.
      split; [reflexivity|split].
      * rewrite payload_encodeWords, app_nil_r.
        -- etrans; [|exact Htake]. f_equal. Z.div_mod_to_equations; lia.
        -- Z.div_mod_to_equations; lia.
      * cbn [length]. Z.div_mod_to_equations; lia.
    + set (n1 := n0 + (8 - n0 mod 8)).
      set (buf2 := take (Z.to_nat n0) buf1
                   ++ (copyBytes (drop (Z.to_nat n0) buf1) [x00; x00; x00; x00]).1).
      assert (Hbuf2 : length buf2 = length buf1).
      { unfold buf2. rewrite length_app, copyBytes_length, length_take, length_drop. lia. }
      exists (encodeWords (Z.to_nat ((n1 + 7) / 8)) buf2),
        (take (Z.to_nat (n1 - n0))
           (copyBytes (drop (Z.to_nat n0) buf1) [x00; x00; x00; x00]).1).
      rewrite Hmore by (intros; exfalso; Z.div_mod_to_equations; lia).
      split; [reflexivity|split].
      * rewrite payload_encodeWords by (unfold n1; Z.div_mod_to_equations; lia).
        replace (8 * Z.to_nat ((n1 + 7) / 8))%nat
          with (length got + Z.to_nat (n1 - n0))%nat
          by (unfold n1; Z.div_mod_to_equations; lia).
        unfold buf2. replace (Z.to_nat n0) with (length got) by lia.
        rewrite Htake. rewrite take_app_add. reflexivity.
      * rewrite length_take, copyBytes_length, length_drop.
        unfold n1. Z.div_mod_to_equations; lia.
Qed.

(** [writeChunk] on a reader limited to [maxSize] bytes takes the next
    [min maxSize (len pr)] bytes of the pipe, reports whether it took
    any, and wrote them as words, followed by the bytes that complete
    the last word. *)
Lemma writeChunk_spec (pr : list byte) maxSize :
  0 < maxSize ->
  let c := Z.min maxSize (Z.of_nat (length pr)) in
  exists ws pad,
    writeChunk (mkLimitedReader pr maxSize)
    = Some (0 <? c, ws, c,
            mkLimitedReader (drop (Z.to_nat c) pr) (maxSize - c))
    /\ payload ws = take (Z.to_nat c) pr ++ pad
    /\ Z.of_nat (length pad) = (- c) mod 8.
Proof.
  intros HM c. unfold writeChunk.
  destruct (writeChunkLoop_spec (S (length pr)) (mkLimitedReader pr maxSize)
              (repeat x00 (Z.to_nat blockSize)) false [] 0)
    as (ws & pad & Hrun & Hpay & Hpad).
  { cbn [pending]. lia. }
  { rewrite repeat_length. unfold blockSize. lia. }
  cbn [pending limit] in *.
  replace (Z.min (Z.max maxSize 0) (Z.of_nat (length pr))) with c in *
    by (unfold c; lia).
  exists ws, pad. rewrite Hrun. auto.
Qed.

Lemma chunkVarNames_cons i n :
  chunkVarNames i (S n) = chunkVarName i :: chunkVarNames (S i) n.
Proof. reflexivity. Qed.

Lemma chunkFileNames_cons i n :
  chunkFileNames i (S n)
  = (chunkVarName i +:+ ".go") :: chunkFileNames (S i) n.
Proof. reflexivity. Qed.

(** The loop of [generateChunks] ends, whatever the stream, and adds
    the chunking of the stream to what it was started with. *)
Lemma generateChunksLoop_spec maxSize fuel :
  0 < maxSize ->
  forall (pr : list byte) i files chunkVars counts,
  (length pr < fuel)%nat ->
  exists fs cs,
    chunked maxSize pr fs cs /\
    generateChunksLoop fuel maxSize pr i files chunkVars counts
    = Some (files ++ zip (chunkFileNames i (length fs)) fs,
            chunkVars ++ chunkVarNames i (length fs),
            counts ++ cs).
Proof.
  intros HM. induction fuel as [|fuel IH];
    intros pr i files chunkVars counts Hfuel; [lia|].
  cbn [generateChunksLoop].
  destruct (writeChunk_spec pr maxSize HM) as (ws & pad & Hrun & Hpay & Hpad).
  rewrite Hrun. clear Hrun.
  set (c := Z.min maxSize (Z.of_nat (length pr))) in *.
  destruct pr as [|b pr'].
  - exists [], []. split; [constructor|].
    assert (Hc : c = 0) by (unfold c; cbn [length]; lia).
    rewrite Hc. change (0 <? 0) with false.
    cbn [negb length zip chunkVarNames chunkFileNames seq map].
    rewrite !app_nil_r. reflexivity.
  - set (pr := b :: pr') in *.
    assert (Hc : 0 < c) by (unfold c, pr; cbn [length]; lia).
    replace (0 <? c) with true by lia. cbn [negb pending].
    destruct (IH (drop (Z.to_nat c) pr) (S i)
                (files ++ [(chunkVarName i +:+ ".go", ws)])
                (chunkVars ++ [chunkVarName i]) (counts ++ [c]))
      as (fs & cs & Hch & Hrun).
    { rewrite length_drop. unfold pr in *. cbn [length] in *. lia. }
    exists (ws :: fs), (c :: cs). split.
    + apply chunked_cons with (pad := pad); [discriminate|exact Hpay|exact Hpad|exact Hch].
    + rewrite Hrun. cbn [length].
      rewrite chunkVarNames_cons, chunkFileNames_cons.
      cbn [zip zip_with]. rewrite <- !app_assoc. reflexivity.
Qed.

(** *** The chunking of a stream *)

Lemma chunked_lengths maxSize pr fs cs :
  chunked maxSize pr fs cs -> length fs = length cs.
Proof. induction 1; cbn [length]; congruence. Qed.

Lemma chunked_empty maxSize fs cs :
  chunked maxSize [] fs cs -> fs = [] /\ cs = [].
Proof. inversion 1; subst; [auto|congruence]. Qed.

Lemma chunked_nonempty maxSize pr fs cs :
  chunked maxSize pr fs cs -> pr <> [] -> fs <> [] /\ cs <> [].
Proof. inversion 1; subst; [congruence|]. intros _. split; discriminate. Qed.

(** The number of chunks is [ceil(L / maxSize)], stated without
    division: the chunks but the last do not hold the stream, all of
    them do. *)
Lemma chunked_count_bounds maxSize pr fs cs :
  0 < maxSize -> chunked maxSize pr fs cs ->
  (Z.of_nat (length cs) - 1) * maxSize < Z.of_nat (length pr)
    <= Z.of_nat (length cs) * maxSize
  \/ (pr = [] /\ cs = []).
Proof.
  intros HM H. induction H as [|pr ws pad fs cs Hne Hpay Hpad Hch IH];
    [right; auto|left].
  assert (HL : 0 < Z.of_nat (length pr)) by (destruct pr; [congruence|cbn [length]; lia]).
  rewrite length_drop in IH. cbn [length].
  set (L := Z.of_nat (length pr)) in *.
  set (n := Z.of_nat (length cs)) in *.
  replace (Z.of_nat (S (length cs))) with (n + 1) by lia.
  destruct IH as [IH|[Hnil Hcs]].
  - destruct (Z.le_gt_cases L maxSize) as [Hle|Hgt].
    + replace (Z.of_nat (length pr - Z.to_nat (Z.min maxSize L))) with 0 in IH by lia.
      assert (n = 0) by nia. subst n. lia.
    + replace (Z.of_nat (length pr - Z.to_nat (Z.min maxSize L)))
        with (L - maxSize) in IH by lia.
      lia.
  - apply (f_equal (@length byte)) in Hnil. rewrite length_drop in Hnil.
    cbn [length] in Hnil.
    assert (n = 0) by (unfold n; rewrite Hcs; reflexivity).
    assert (L <= maxSize) by lia. lia.
Qed.

Lemma ceil_div_unique L M k :
  0 < M -> (k - 1) * M < L <= k * M -> k = (L + M - 1) / M.
Proof.
  intros HM H. apply (Z.div_unique_pos _ _ _ (L + M - 1 - k * M)); lia.
Qed.

Lemma chunked_count maxSize pr fs cs :
  0 < maxSize -> chunked maxSize pr fs cs ->
  Z.of_nat (length cs)
  = (Z.of_nat (length pr) + maxSize - 1) / maxSize.
Proof.
  intros HM H.
  destruct (chunked_count_bounds maxSize pr fs cs HM H) as [Hb|[-> ->]].
  - apply ceil_div_unique; assumption.
  - cbn [length]. symmetry. apply Z.div_small. lia.
Qed.

(** Chunk [i] holds the bytes of the stream from offset [i * maxSize]
    on, [maxSize] of them or what is left. *)
Lemma chunked_segment maxSize pr fs cs :
  0 < maxSize -> chunked maxSize pr fs cs ->
  forall (i : nat) ws c, fs !! i = Some ws -> cs !! i = Some c ->
    c = Z.min maxSize (Z.of_nat (length pr) - Z.of_nat i * maxSize) /\
    0 < c /\
    exists pad,
      payload ws
      = take (Z.to_nat c) (drop (Z.to_nat (Z.of_nat i * maxSize)) pr) ++ pad
      /\ Z.of_nat (length pad) = (- c) mod 8.
Proof.
  intros HM H. induction H as [|pr ws0 pad0 fs cs Hne Hpay Hpad Hch IH];
    intros i ws c Hf Hc; [rewrite lookup_nil in Hf; discriminate|].
  assert (HL : 0 < Z.of_nat (length pr)) by (destruct pr; [congruence|cbn [length]; lia]).
  destruct i as [|i]; cbn [lookup list_lookup] in Hf, Hc.
  - injection Hf as <-. injection Hc as <-.
    split; [lia|]. split; [lia|]. exists pad0.
    cbn [Z.of_nat Z.mul Z.to_nat drop]. auto.
  - destruct (IH i ws c Hf Hc) as (Ec & Hpos & pad & Hp & Hl).
    rewrite length_drop in Ec.
    assert (Hfull : Z.min maxSize (Z.of_nat (length pr)) = maxSize) by lia.
    rewrite Hfull in *.
    split; [lia|]. split; [exact Hpos|]. exists pad. split; [|exact Hl].
    rewrite Hp, drop_drop. do 3 f_equal. lia.
Qed.

Lemma compressedStream_single ws counts :
  compressedStream [ws] counts
  = take (Z.to_nat (List.last counts 0)) (payload ws).
Proof. reflexivity. Qed.

Lemma compressedStream_cons ws fs counts :
  fs <> [] ->
  compressedStream (ws :: fs) counts
  = payload ws ++ compressedStream fs counts.
Proof.
  intros Hne. unfold compressedStream. rewrite reverse_cons.
  destruct (reverse fs) as [|final earlier] eqn:E.
  - exfalso. apply Hne. rewrite <- (reverse_involutive fs), E. reflexivity.
  - cbn [app]. rewrite reverse_app. cbn [reverse app flat_map].
    change (reverse [ws]) with [ws]. cbn [app flat_map].
    rewrite <- app_assoc. reflexivity.
Qed.

Lemma last_cons_nonempty (c : Z) cs d :
  cs <> [] -> List.last (c :: cs) d = List.last cs d.
Proof. destruct cs; [congruence|reflexivity]. Qed.

(** With a size limit that is a whole number of words, only the last
    chunk is padded, and cutting it to its byte count gives back the
    stream. *)
Lemma chunked_stream maxSize pr fs cs :
  0 < maxSize -> maxSize mod 8 = 0 ->
  chunked maxSize pr fs cs -> compressedStream fs cs = pr.
Proof.
  intros HM H8 H. induction H as [|pr ws pad fs cs Hne Hpay Hpad Hch IH];
    [reflexivity|].
  assert (HL : 0 < Z.of_nat (length pr))
    by (destruct pr; [congruence|cbn [length]; lia]).
  set (c := Z.min maxSize (Z.of_nat (length pr))) in *.
  destruct fs as [|f fs].
  - (* the last chunk *)
    inversion Hch as [E1 E2 E3|]; subst.
    assert (Hc : Z.to_nat c = length pr).
    { match goal with E : [] = drop _ _ |- _ =>
        apply (f_equal (@length byte)) in E; rewrite length_drop in E;
        cbn [length] in E end. lia. }
    rewrite compressedStream_single. cbn [List.last].
    rewrite Hpay, Hc. rewrite take_app_length', take_ge by (rewrite ?length_take; lia).
    reflexivity.
  - (* a chunk that is followed by another *)
    assert (Hrest : drop (Z.to_nat c) pr <> []).
    { intros E. rewrite E in Hch. apply chunked_empty in Hch. destruct Hch; congruence. }
    assert (Hfull : c = maxSize).
    { destruct (Z.le_gt_cases (Z.of_nat (length pr)) maxSize); [|lia].
      exfalso. apply Hrest. apply drop_ge. lia. }
    assert (Hpadnil : pad = []).
    { apply length_zero_iff_nil. rewrite Hfull in Hpad.
      replace ((- maxSize) mod 8) with 0 in Hpad
        by (revert H8; clear; intros; Z.div_mod_to_equations; lia).
      lia. }
    rewrite compressedStream_cons by discriminate.
    unfold compressedStream in IH |- *.
    rewrite last_cons_nonempty.
    2:{ apply chunked_lengths in Hch. destruct cs; [discriminate|discriminate]. }
    rewrite IH, Hpay, Hpadnil, app_nil_r. apply take_drop.
Qed.

(** *** [generateChunks] *)

Lemma map_fst_zip {A B} (l : list A) (k : list B) :
  length l = length k -> map fst (zip l k) = l.
Proof.
  revert k. induction l as [|x l IH]; intros [|y k] H; try discriminate;
    [reflexivity|]. cbn [zip zip_with map fst]. f_equal. apply IH.
  cbn [length] in H. lia.
Qed.

Lemma map_snd_zip {A B} (l : list A) (k : list B) :
  length l = length k -> map snd (zip l k) = k.
Proof.
  revert k. induction l as [|x l IH]; intros [|y k] H; try discriminate;
    [reflexivity|]. cbn [zip zip_with map snd]. f_equal. apply IH.
  cbn [length] in H. lia.
Qed.

Lemma chunkFileNames_length i n : length (chunkFileNames i n) = n.
Proof. unfold chunkFileNames. rewrite length_map, length_seq. reflexivity. Qed.

Lemma generateChunksWith_spec maxSize gzip (data : list byte) :
  0 < maxSize ->
  exists fs cs,
    chunked maxSize (gzip data) fs cs /\
    generateChunksWith maxSize gzip data
    = Some (mkChunkOutput (zip (chunkFileNames 0 (length fs)) fs)
              (chunkVarNames 0 (length fs)) (Z.of_nat (length data)) cs).
Proof.
  intros HM. unfold generateChunksWith.
  destruct (generateChunksLoop_spec maxSize (S (length (gzip data))) HM
              (gzip data) 0%nat [] [] []) as (fs & cs & Hch & Hrun); [lia|].
  exists fs, cs. split; [exact Hch|]. rewrite Hrun. reflexivity.
Qed.

Lemma chunkSize_pos : 0 < chunkSize.
Proof. reflexivity. Qed.

Lemma chunkSize_words : chunkSize mod 8 = 0.
Proof. reflexivity. Qed.

Lemma chunked_counts maxSize pr fs cs :
  0 < maxSize -> chunked maxSize pr fs cs ->
  forall (i : nat) c, cs !! i = Some c ->
    c = Z.min maxSize (Z.of_nat (length pr) - Z.of_nat i * maxSize) /\ 0 < c.
Proof.
  intros HM H i c Hc.
  pose proof (chunked_lengths _ _ _ _ H) as Hlen.
  destruct (lookup_lt_is_Some_2 fs i) as [ws Hws].
  { rewrite Hlen. eapply lookup_lt_Some; eassumption. }
  destruct (chunked_segment maxSize pr fs cs HM H i ws c Hws Hc) as (? & ? & _).
  auto.
Qed.

(** C8.  For a compressed stream of [L > 0] bytes the encoder emits
    [ceil(L / M)] chunk files, [M] being 20 MiB, named in index order
    and listed so in the manifest; every chunk takes at most [M] bytes
    of the stream, every chunk but the last exactly [M], the last one
    the rest, and the file of chunk [i] holds those bytes, the ones
    from offset [i * M] on, followed by fewer than eight bytes of
    padding.  A stream of 15 MiB gives one chunk, one of 45 MiB three,
    of 20, 20 and 5 MiB. *)
Theorem generateChunks_count gzip (data : list byte) :
  0 < Z.of_nat (length (gzip data)) ->
  exists o,
    generateChunks gzip data = Some o /\
    Z.of_nat (length (chunkFiles o))
      = (Z.of_nat (length (gzip data)) + chunkSize - 1) / chunkSize /\
    map fst (chunkFiles o) = chunkFileNames 0 (length (chunkFiles o)) /\
    chunks o = chunkVarNames 0 (length (chunkFiles o)) /\
    length (byteCounts o) = length (chunkFiles o) /\
    (forall (i : nat) ws c,
       map snd (chunkFiles o) !! i = Some ws -> byteCounts o !! i = Some c ->
       0 < c <= chunkSize /\
       ((S i < length (chunkFiles o))%nat -> c = chunkSize) /\
       (S i = length (chunkFiles o) ->
        c = Z.of_nat (length (gzip data))
            - (Z.of_nat (length (chunkFiles o)) - 1) * chunkSize) /\
       exists pad,
         payload ws
         = take (Z.to_nat c)
             (drop (Z.to_nat (Z.of_nat i * chunkSize)) (gzip data)) ++ pad /\
         (length pad < 8)%nat) /\
    (Z.of_nat (length (gzip data)) = 15 * 1024 * 1024 ->
     length (chunkFiles o) = 1%nat) /\
    (Z.of_nat (length (gzip data)) = 45 * 1024 * 1024 ->
     byteCounts o = [chunkSize; chunkSize; 5 * 1024 * 1024]).
Proof.
  intros HL. unfold generateChunks.
  destruct (generateChunksWith_spec chunkSize gzip data chunkSize_pos)
    as (fs & cs & Hch & Hrun).
  eexists. split; [exact Hrun|]. cbn [chunkFiles chunks byteCounts].
  pose proof (chunked_lengths _ _ _ _ Hch) as Hlen.
  pose proof (chunked_count chunkSize _ _ _ chunkSize_pos Hch) as Hcount.
  pose proof chunkSize_pos as HM.
  assert (Hbounds : (Z.of_nat (length cs) - 1) * chunkSize
                      < Z.of_nat (length (gzip data))
                      <= Z.of_nat (length cs) * chunkSize).
  { destruct (chunked_count_bounds chunkSize _ _ _ chunkSize_pos Hch)
      as [Hb|[E _]]; [exact Hb|]. rewrite E in HL. cbn [length] in HL. lia. }
  assert (Hzl : length (zip (chunkFileNames 0 (length fs)) fs) = length fs).
  { rewrite length_zip_with, chunkFileNames_length. lia. }
  rewrite Hzl, map_fst_zip, map_snd_zip by (rewrite chunkFileNames_length; reflexivity).
  split; [rewrite Hlen; exact Hcount|]. split; [reflexivity|].
  split; [reflexivity|]. split; [symmetry; exact Hlen|]. split; [|split].
  - intros i ws c Hws Hc.
    destruct (chunked_segment chunkSize _ _ _ chunkSize_pos Hch i ws c Hws Hc)
      as (Ec & Hpos & pad & Hpay & Hpad).
    rewrite Hlen. split; [lia|]. split; [|split].
    + intros Hi. nia.
    + intros Hi. nia.
    + exists pad. split; [exact Hpay|].
      assert (0 <= (- c) mod 8 < 8) by (apply Z.mod_pos_bound; lia). lia.
  - intros E. rewrite E in Hbounds. rewrite Hlen. unfold chunkSize in Hbounds. lia.
  - intros E. rewrite E in Hbounds.
    assert (Hk : length cs = 3%nat) by (unfold chunkSize in Hbounds; lia).
    destruct cs as [|c0 [|c1 [|c2 [|c3 cs]]]]; try discriminate.
    destruct (chunked_counts chunkSize _ _ _ chunkSize_pos Hch 0 c0 eq_refl) as [E0 _].
    destruct (chunked_counts chunkSize _ _ _ chunkSize_pos Hch 1 c1 eq_refl) as [E1 _].
    destruct (chunked_counts chunkSize _ _ _ chunkSize_pos Hch 2 c2 eq_refl) as [E2 _].
    rewrite E in E0, E1, E2. unfold chunkSize in *.
    f_equal; [lia|]. f_equal; [lia|]. f_equal. lia.
Qed.

Lemma generateChunks_count_witness :
  0 < Z.of_nat (length (gzipStored [x47; x6f])) /\
  (exists o,
    generateChunks gzipStored [x47; x6f] = Some o /\
    Z.of_nat (length (chunkFiles o))
      = (Z.of_nat (length (gzipStored [x47; x6f])) + chunkSize - 1) / chunkSize /\
    map fst (chunkFiles o) = chunkFileNames 0 (length (chunkFiles o)) /\
    chunks o = chunkVarNames 0 (length (chunkFiles o)) /\
    length (byteCounts o) = length (chunkFiles o) /\
    (forall (i : nat) ws c,
       map snd (chunkFiles o) !! i = Some ws -> byteCounts o !! i = Some c ->
       0 < c <= chunkSize /\
       ((S i < length (chunkFiles o))%nat -> c = chunkSize) /\
       (S i = length (chunkFiles o) ->
        c = Z.of_nat (length (gzipStored [x47; x6f]))
            - (Z.of_nat (length (chunkFiles o)) - 1) * chunkSize) /\
       exists pad,
         payload ws
         = take (Z.to_nat c)
             (drop (Z.to_nat (Z.of_nat i * chunkSize)) (gzipStored [x47; x6f])) ++ pad /\
         (length pad < 8)%nat) /\
    (Z.of_nat (length (gzipStored [x47; x6f])) = 15 * 1024 * 1024 ->
     length (chunkFiles o) = 1%nat) /\
    (Z.of_nat (length (gzipStored [x47; x6f])) = 45 * 1024 * 1024 ->
     byteCounts o = [chunkSize; chunkSize; 5 * 1024 * 1024])).
Proof.
  assert (H : 0 < Z.of_nat (length (gzipStored [x47; x6f])))
    by (vm_compute; reflexivity).
  split; [exact H|].
  exact (generateChunks_count gzipStored [x47; x6f] H).
Defined.

Lemma generateChunks_stream gzip (data : list byte) :
  exists o,
    generateChunks gzip data = Some o /\
    compressedStream (map snd (chunkFiles o)) (byteCounts o) = gzip data /\
    decompressedSize o = Z.of_nat (length data) /\
    Z.of_nat (length (chunkFiles o))
      = (Z.of_nat (length (gzip data)) + chunkSize - 1) / chunkSize /\
    chunks o = chunkVarNames 0 (length (chunkFiles o)).
Proof.
  unfold generateChunks.
  destruct (generateChunksWith_spec chunkSize gzip data chunkSize_pos)
    as (fs & cs & Hch & Hrun).
  eexists. split; [exact Hrun|].
  cbn [chunkFiles byteCounts decompressedSize chunks].
  assert (Hzl : length (zip (chunkFileNames 0 (length fs)) fs) = length fs).
  { rewrite length_zip_with, chunkFileNames_length. lia. }
  rewrite Hzl, map_snd_zip by (rewrite chunkFileNames_length; reflexivity).
  split; [exact (chunked_stream chunkSize _ _ _ chunkSize_pos chunkSize_words Hch)|].
  split; [reflexivity|]. split; [|reflexivity].
  rewrite (chunked_lengths _ _ _ _ Hch).
  exact (chunked_count chunkSize _ _ _ chunkSize_pos Hch).
Qed.

(** C1.  Whatever the blob, [generateChunks] ends; the payloads of its
    chunk files in index order, the last one cut to the number of
    stream bytes it took, are the compressed stream, so that
    decompressing them gives back the blob whenever the decompressor
    inverts the compressor on that blob; and the manifest declares the
    length of the blob. *)
Theorem generateChunks_roundtrip
    (gzip : list byte -> list byte) (gunzip : list byte -> option (list byte))
    (data : list byte) :
  gunzip (gzip data) = Some data ->
  exists o,
    generateChunks gzip data = Some o /\
    reconstruct gunzip o = Some data /\
    decompressedSize o = Z.of_nat (length data).
Proof.
  intros Hinv.
  destruct (generateChunks_stream gzip data) as (o & Ho & Hs & Hd & _).
  exists o. split; [exact Ho|]. split; [|exact Hd].
  unfold reconstruct. rewrite Hs. exact Hinv.
Qed.

Lemma generateChunks_roundtrip_witness :
  gunzipStored (gzipStored [x47; x6f; x20; x4e; x6f; x74; x6f])
    = Some [x47; x6f; x20; x4e; x6f; x74; x6f] /\
  exists o,
    generateChunks gzipStored [x47; x6f; x20; x4e; x6f; x74; x6f] = Some o /\
    reconstruct gunzipStored o = Some [x47; x6f; x20; x4e; x6f; x74; x6f] /\
    decompressedSize o
      = Z.of_nat (length [x47; x6f; x20; x4e; x6f; x74; x6f]).
Proof.
  assert (H : gunzipStored (gzipStored [x47; x6f; x20; x4e; x6f; x74; x6f])
              = Some [x47; x6f; x20; x4e; x6f; x74; x6f])
    by (vm_compute; reflexivity).
  split; [exact H|].
  exact (generateChunks_roundtrip gzipStored gunzipStored _ H).
Defined.

(** C5 as stated fails: the gzip stream of the empty blob is not empty
    (a header of ten bytes, an empty final stored block of five, a
    trailer of eight), so one chunk file of three words is written;
    the manifest lists it and declares the size 0. *)
Lemma generateChunks_empty_blob_one_chunk :
  length (gzipStored []) = 23%nat /\
  generateChunks gzipStored []
  = Some (mkChunkOutput
            [("chunk0.go"%string, [0x0000000000088b1f; 0x00ffff000001ff02; 0])]
            ["chunk0"%string] 0 [23]).
Proof. split; vm_compute; reflexivity. Qed.

(** C5, amended.  For the empty blob the manifest declares the
    decompressed size 0, and the number of chunk files is
    [ceil(L / M)] for the length [L] of the compressed stream of the
    empty blob: none exactly when that stream is empty. *)
Theorem generateChunks_empty_blob (gzip : list byte -> list byte) :
  exists o,
    generateChunks gzip [] = Some o /\
    decompressedSize o = 0 /\
    Z.of_nat (length (chunkFiles o))
      = (Z.of_nat (length (gzip [])) + chunkSize - 1) / chunkSize /\
    chunks o = chunkVarNames 0 (length (chunkFiles o)) /\
    (chunkFiles o = [] <-> gzip [] = []).
Proof.
  destruct (generateChunks_stream gzip []) as (o & Ho & Hs & Hd & Hn & Hv).
  exists o. split; [exact Ho|]. split; [exact Hd|]. split; [exact Hn|].
  split; [exact Hv|]. split.
  - intros E. rewrite E in Hs. cbn in Hs. symmetry. exact Hs.
  - intros E. rewrite E in Hn. cbn [length] in Hn.
    change ((Z.of_nat 0 + chunkSize - 1) / chunkSize) with 0 in Hn.
    destruct (chunkFiles o); [reflexivity|cbn [length] in Hn; lia].
Qed.

(** C4, at the failing input.  A chunk of 4097 bytes [0xff] is written
    as 513 words; the last word holds the one byte left after the first
    block, four zero bytes, and three bytes [0xff] that the first block
    left in the buffer: of the seven bytes of padding the last three
    are not zero. *)
Theorem writeChunk_stale_padding :
  exists ws,
    writeChunk (mkLimitedReader (repeat xff 4097) chunkSize)
    = Some (true, ws, 4097, mkLimitedReader [] (chunkSize - 4097)) /\
    length ws = 513%nat /\
    List.last ws 0 = 0xffffff00000000ff /\
    drop 4097 (payload ws) = [x00; x00; x00; x00; xff; xff; xff].
Proof.
  destruct (writeChunk (mkLimitedReader (repeat xff 4097) chunkSize))
    as [[[[more ws] c] r]|] eqn:E.
  2:{ vm_compute in E. discriminate. }
  exists ws.
  assert (Hall : more = true /\ c = 4097 /\
                 r = mkLimitedReader [] (chunkSize - 4097) /\
                 length ws = 513%nat /\
                 List.last ws 0 = 0xffffff00000000ff /\
                 drop 4097 (payload ws) = [x00; x00; x00; x00; xff; xff; xff]).
  { vm_compute in E. injection E as <- <- <- <-. vm_compute. repeat split. }
  destruct Hall as (-> & -> & -> & H1 & H2 & H3). auto.
Qed.

(** * Further properties of the code *)

(** ** Selector *)

(** The order of two distances is the lexicographic order of the keys
    (the statement of the weighted-sum encoding, for use below). *)
Lemma descDistance_ltb_lexKey tw th tv ts d1 d2 :
  validTarget tw th tv ts -> validDesc d1 -> validDesc d2 ->
  (descDistance tw th tv ts d1 <? descDistance tw th tv ts d2)
  = lexLtb (lexKey tw th tv ts d1) (lexKey tw th tv ts d2).
Proof.
  intros Ht H1 H2.
  destruct (descDistance_digits tw th tv ts d1 Ht H1)
    as (s1 & w1 & h1 & v1 & ? & ? & ? & ? & -> & ->).
  destruct (descDistance_digits tw th tv ts d2 Ht H2)
    as (s2 & w2 & h2 & v2 & ? & ? & ? & ? & -> & ->).
  unfold validDesc in *.
  rewrite axisLen_weights, axisLen_hDensities, axisLen_vDensities, axisLen_styles in *.
  rewrite !lex_step by lia.
  cbn [lexLtb]. rewrite andb_false_r, orb_false_r. reflexivity.
Qed.

(** X1.  With indices inside the enumerations, the descriptor
    selected from a non-empty candidate list is minimal in the
    lexicographic order of the keys: no candidate has a smaller key.
    In particular no candidate is nearer to the target style, and
    among the candidates as near in style none is nearer in weight. *)
Theorem appendMatchingFonts_lex_minimal out descriptions tw th tv ts :
  validTarget tw th tv ts ->
  (forall d, In d descriptions -> validDesc d) ->
  descriptions <> [] ->
  exists m,
    appendMatchingFonts out descriptions tw th tv ts = out ++ [m] /\
    In m descriptions /\
    (forall d, In d descriptions ->
       lexLtb (lexKey tw th tv ts d) (lexKey tw th tv ts m) = false) /\
    (forall d, In d descriptions ->
       Z.abs (ts - style m) <= Z.abs (ts - style d) /\
       (Z.abs (ts - style m) = Z.abs (ts - style d) ->
        Z.abs (tw - weight m) <= Z.abs (tw - weight d))).
Proof.
  intros Ht Hv Hne. destruct descriptions as [|d0 rest]; [congruence|].
  unfold appendMatchingFonts.
  destruct (matchLoop_nonempty (descDistance tw th tv ts) d0 rest)
    as (m & Hm & Hin & Hmin).
  exists m. rewrite Hm. split; [reflexivity|]. split; [exact Hin|].
  assert (Hlex : forall d, In d (d0 :: rest) ->
            lexLtb (lexKey tw th tv ts d) (lexKey tw th tv ts m) = false).
  { intros d Hd.
    rewrite <- (descDistance_ltb_lexKey tw th tv ts d m Ht (Hv d Hd) (Hv m Hin)).
    apply Z.ltb_ge. apply Hmin. exact Hd. }
  split; [exact Hlex|].
  intros d Hd. specialize (Hlex d Hd). unfold lexKey in Hlex.
  cbn [lexLtb] in Hlex.
  apply orb_false_iff in Hlex. destruct Hlex as [Hs Hrest].
  apply Z.ltb_ge in Hs. split; [lia|]. intros E.
  rewrite E, Z.eqb_refl in Hrest. cbn [andb] in Hrest.
  apply orb_false_iff in Hrest. destruct Hrest as [Hw _].
  apply Z.ltb_ge in Hw. lia.
Qed.

Lemma appendMatchingFonts_lex_minimal_witness :
  validTarget 5 3 1 0 /\
  (forall d,
     In d [mkFontDesc "w2" 2 3 1 0; mkFontDesc "w5" 5 0 0 0] -> validDesc d) /\
  [mkFontDesc "w2" 2 3 1 0; mkFontDesc "w5" 5 0 0 0] <> [] /\
  exists m,
    appendMatchingFonts [] [mkFontDesc "w2" 2 3 1 0; mkFontDesc "w5" 5 0 0 0]
      5 3 1 0 = [] ++ [m] /\
    In m [mkFontDesc "w2" 2 3 1 0; mkFontDesc "w5" 5 0 0 0] /\
    (forall d, In d [mkFontDesc "w2" 2 3 1 0; mkFontDesc "w5" 5 0 0 0] ->
       lexLtb (lexKey 5 3 1 0 d) (lexKey 5 3 1 0 m) = false) /\
    (forall d, In d [mkFontDesc "w2" 2 3 1 0; mkFontDesc "w5" 5 0 0 0] ->
       Z.abs (0 - style m) <= Z.abs (0 - style d) /\
       (Z.abs (0 - style m) = Z.abs (0 - style d) ->
        Z.abs (5 - weight m) <= Z.abs (5 - weight d))).
Proof.
  assert (Ht : validTarget 5 3 1 0)
    by (unfold validTarget; rewrite axisLen_weights, axisLen_hDensities,
          axisLen_vDensities, axisLen_styles; lia).
  assert (Hv : forall d,
     In d [mkFontDesc "w2" 2 3 1 0; mkFontDesc "w5" 5 0 0 0] -> validDesc d).
  { intros d [<-|[<-|[]]]; unfold validDesc;
      rewrite axisLen_weights, axisLen_hDensities, axisLen_vDensities,
        axisLen_styles; cbn [weight hDensity vDensity style]; lia. }
  split; [exact Ht|]. split; [exact Hv|]. split; [discriminate|].
  apply (appendMatchingFonts_lex_minimal [] _ 5 3 1 0 Ht Hv). discriminate.
Defined.

(** ** Classifier *)

(** X2.  [indexOf] goes through the list in order and stops at the
    first non-empty entry that is a prefix (or a suffix) of the string:
    it returns that entry, its index and the string without it.  When
    no entry matches it returns the string unchanged, the empty string
    as the entry, and the index of the last empty entry of the list
    (an empty entry after which no empty entry comes), [-1] if there
    is none. *)
Theorem indexOf_first_match s l prefix j rest x :
  indexOf s l prefix = (j, rest, x) ->
  (x <> EmptyString /\ 0 <= j /\ l !! Z.to_nat j = Some x /\
   matchesEntry prefix s x = true /\ s = glue prefix x rest /\
   forall k y, 0 <= k < j -> l !! Z.to_nat k = Some y ->
     y <> EmptyString -> matchesEntry prefix s y = false)
  \/
  (x = EmptyString /\ rest = s /\
   ((j = -1 /\ ~ In EmptyString l) \/
    (0 <= j /\ l !! Z.to_nat j = Some EmptyString /\
     forall k : nat, (Z.to_nat j < k)%nat -> l !! k <> Some EmptyString)) /\
   forall y, In y l -> y <> EmptyString -> matchesEntry prefix s y = false).
Proof.
  intros H.
  destruct (indexOfLoop_spec s prefix l [] 0 (-1) j rest x eq_refl H)
    as [Hhit|(-> & Hr & _ & Hnone)]; [left; exact Hhit|right].
  split; [reflexivity|]. split; [exact Hr|]. split; [|exact Hnone].
  destruct (indexOfLoop_last_empty s prefix l [] 0 (-1) j rest eq_refl H)
    as [Hdef|Hlast]; [left; exact Hdef|right; exact Hlast].
Qed.

Lemma indexOf_first_match_witness :
  indexOf "ExtraBoldItalic" ["Bold"; ""; "Extra"; ""; "Italic"]%string true
    = (2, "BoldItalic"%string, "Extra"%string) /\
  indexOf "Mono" ["Bold"; ""; "Extra"; ""; "Italic"]%string true
    = (3, "Mono"%string, ""%string) /\
  (("Extra"%string <> EmptyString /\ 0 <= 2 /\
    ["Bold"; ""; "Extra"; ""; "Italic"]%string !! Z.to_nat 2
      = Some "Extra"%string /\
    matchesEntry true "ExtraBoldItalic" "Extra" = true /\
    "ExtraBoldItalic"%string = glue true "Extra" "BoldItalic" /\
    forall k y, 0 <= k < 2 ->
      ["Bold"; ""; "Extra"; ""; "Italic"]%string !! Z.to_nat k = Some y ->
      y <> EmptyString -> matchesEntry true "ExtraBoldItalic" y = false)
   \/
   ("Extra"%string = EmptyString /\
    "BoldItalic"%string = "ExtraBoldItalic"%string /\
    ((2 = -1 /\ ~ In EmptyString ["Bold"; ""; "Extra"; ""; "Italic"]%string) \/
     (0 <= 2 /\
      ["Bold"; ""; "Extra"; ""; "Italic"]%string !! Z.to_nat 2
        = Some EmptyString /\
      forall k : nat, (Z.to_nat 2 < k)%nat ->
        ["Bold"; ""; "Extra"; ""; "Italic"]%string !! k
          <> Some EmptyString)) /\
    forall y, In y ["Bold"; ""; "Extra"; ""; "Italic"]%string ->
      y <> EmptyString -> matchesEntry true "ExtraBoldItalic" y = false)).
Proof.
  assert (H : indexOf "ExtraBoldItalic"
                ["Bold"; ""; "Extra"; ""; "Italic"]%string true
              = (2, "BoldItalic"%string, "Extra"%string))
    by (vm_compute; reflexivity).
  split; [exact H|]. split; [vm_compute; reflexivity|].
  exact (indexOf_first_match _ _ _ _ _ _ H).
Defined.

Lemma exactIndexOfLoop_spec s l : forall (pre : list string) i,
  i = Z.of_nat (length pre) -> ~ In s pre ->
  (In s l ->
   i <= exactIndexOfLoop s l i /\
   (pre ++ l) !! Z.to_nat (exactIndexOfLoop s l i) = Some s /\
   forall k : nat, (k < Z.to_nat (exactIndexOfLoop s l i))%nat ->
     (pre ++ l) !! k <> Some s) /\
  (~ In s l -> exactIndexOfLoop s l i = -1).
Proof.
  induction l as [|y l IH]; intros pre i Hi Hpre.
  - split; [intros []|reflexivity].
  - cbn [exactIndexOfLoop].
    destruct (String.eqb_spec y s) as [->|Hne].
    + split; [|intros Hno; exfalso; apply Hno; left; reflexivity].
      intros _. split; [lia|]. split.
      * rewrite Hi, Nat2Z.id. apply list_lookup_middle. reflexivity.
      * intros k Hk Hlk. rewrite Hi, Nat2Z.id in Hk.
        rewrite lookup_app_l in Hlk by exact Hk.
        apply Hpre, list_elem_of_In, list_elem_of_lookup. eauto.
    + assert (Hpre' : ~ In s (pre ++ [y])).
      { rewrite in_app_iff. cbn [In]. intros [?|[?|[]]]; [tauto|congruence]. }
      destruct (IH (pre ++ [y]) (i + 1)
                  ltac:(rewrite length_app; cbn [length]; lia) Hpre')
        as [Hin Hno].
      rewrite <- app_assoc in Hin. cbn [app] in Hin.
      split.
      * intros [E|Hs]; [congruence|].
        destruct (Hin Hs) as (Hge & Hlk & Hfirst).
        split; [lia|]. split; [exact Hlk|exact Hfirst].
      * intros Hs. apply Hno. intros Hs'. apply Hs. right. exact Hs'.
Qed.

(** X3.  [exactIndexOf] returns the index of the first entry equal to
    the string, and [-1] exactly when the list does not hold it. *)
Theorem exactIndexOf_first_occurrence s l :
  (In s l ->
   0 <= exactIndexOf s l /\
   l !! Z.to_nat (exactIndexOf s l) = Some s /\
   forall k : nat, (k < Z.to_nat (exactIndexOf s l))%nat -> l !! k <> Some s) /\
  (~ In s l -> exactIndexOf s l = -1).
Proof.
  exact (exactIndexOfLoop_spec s l [] 0 eq_refl (fun H => H)).
Qed.

(** ** Composer *)

Lemma string_compare_trans : forall a b c : string,
  String.compare a b <> Gt -> String.compare b c <> Gt ->
  String.compare a c <> Gt.
Proof.
  induction a as [|x a IH]; intros [|y b] [|z c]; cbn [String.compare];
    try congruence.
  unfold Ascii.compare.
  destruct (N.compare_spec (N_of_ascii x) (N_of_ascii y)) as [Exy|Lxy|Gxy];
    destruct (N.compare_spec (N_of_ascii y) (N_of_ascii z)) as [Eyz|Lyz|Gyz];
    destruct (N.compare_spec (N_of_ascii x) (N_of_ascii z)) as [Exz|Lxz|Gxz];
    try congruence; try lia.
  apply IH.
Qed.

Lemma string_le_total : Total string_le.
Proof. intros a b. apply String.leb_total. Qed.

Lemma string_le_trans : Transitive string_le.
Proof.
  intros a b c. unfold string_le, String.leb. intros Hab Hbc.
  pose proof (string_compare_trans a b c) as H.
  destruct (String.compare a b); try discriminate;
    destruct (String.compare b c); try discriminate;
    destruct (String.compare a c); try reflexivity;
    exfalso; apply H; congruence.
Qed.

Lemma StronglySorted_sublist {A} (R : A -> A -> Prop) (l1 l2 : list A) :
  l1 `sublist_of` l2 -> StronglySorted R l2 -> StronglySorted R l1.
Proof.
  induction 1 as [|x l1 l2 Hsub IH|x l1 l2 Hsub IH]; intros Hs.
  - constructor.
  - apply StronglySorted_cons in Hs. destruct Hs as [Hall Hs].
    apply StronglySorted_cons. split; [|apply IH, Hs].
    rewrite Forall_forall in *. intros y Hy. apply Hall.
    eapply elem_of_sublist; eauto.
  - apply StronglySorted_cons in Hs. apply IH, Hs.
Qed.

Lemma sortedLanguages_sorted languageSet :
  StronglySorted string_le (sortedLanguages languageSet).
Proof.
  unfold sortedLanguages.
  apply (@StronglySorted_merge_sort _ string_le _ string_le_trans string_le_total).
Qed.

Lemma selected_length fontDescriptions tw th tv ts (st : string * string) :
  length (appendMatchingFonts [] (group fontDescriptions (fst st) (snd st))
            tw th tv ts)
  = if decide (group fontDescriptions (fst st) (snd st) <> []) then 1%nat
    else 0%nat.
Proof.
  destruct (appendMatchingFonts_cases
              (group fontDescriptions (fst st) (snd st)) tw th tv ts)
    as [[E ->]|(m & Hin & ->)].
  - rewrite E. destruct (decide (@nil fontDesc <> [])); [congruence|reflexivity].
  - destruct (decide (group fontDescriptions st.1 st.2 <> [])) as [|Hno];
      [reflexivity|].
    exfalso. apply Hno. intros E. rewrite E in Hin. destruct Hin.
Qed.

Lemma sourceFontsOf_steps
    (fontDescriptions : gmap string (gmap string (list fontDesc)))
    (languages : list string) (outFamily : outputFamily) :
  sourceFontsOf fontDescriptions languages outFamily
  = flat_map
      (fun st =>
         appendMatchingFonts [] (group fontDescriptions (fst st) (snd st))
           (exactIndexOf (oWeight outFamily) weights)
           (exactIndexOf (oHDensity outFamily) hDensities)
           (exactIndexOf (oVDensity outFamily) vDensities)
           (exactIndexOf (oStyle outFamily) styles))
      (mergeSteps languages outFamily).
Proof.
  rewrite sourceFontsOf_mergeSequence. unfold mergeSequence, selectedEntries.
  rewrite map_flat_map. apply flat_map_ext. intros st.
  rewrite map_map. cbn [snd]. apply map_id.
Qed.

(** X4.  The list [sourceFonts] is built group by group in the fixed
    order of [mergeSteps]: the primary family's default language, the
    prepend-combo families, the primary family's other languages, the
    append-combo families.  Every group that is not empty contributes
    exactly one descriptor, one of its own, and an empty or missing
    group contributes nothing. *)
Theorem sourceFontsOf_contributions
    (fontDescriptions : gmap string (gmap string (list fontDesc)))
    (languages : list string) (outFamily : outputFamily) :
  sourceFontsOf fontDescriptions languages outFamily
  = flat_map
      (fun st =>
         appendMatchingFonts [] (group fontDescriptions (fst st) (snd st))
           (exactIndexOf (oWeight outFamily) weights)
           (exactIndexOf (oHDensity outFamily) hDensities)
           (exactIndexOf (oVDensity outFamily) vDensities)
           (exactIndexOf (oStyle outFamily) styles))
      (mergeSteps languages outFamily) /\
  length (sourceFontsOf fontDescriptions languages outFamily)
  = length (filter (fun st => group fontDescriptions (fst st) (snd st) <> [])
              (mergeSteps languages outFamily)) /\
  (forall m, In m (sourceFontsOf fontDescriptions languages outFamily) ->
     exists st, In st (mergeSteps languages outFamily) /\
                In m (group fontDescriptions (fst st) (snd st))).
Proof.
  pose proof (sourceFontsOf_steps fontDescriptions languages outFamily) as E.
  split; [exact E|]. rewrite E. clear E.
  induction (mergeSteps languages outFamily) as [|st steps IH].
  - split; [reflexivity|intros m []].
  - cbn [flat_map]. rewrite filter_cons, length_app, selected_length.
    destruct IH as [IHl IHm]. split.
    + destruct (decide (group fontDescriptions st.1 st.2 <> []));
        cbn [length]; lia.
    + intros m Hm. apply in_app_iff in Hm. destruct Hm as [Hm|Hm].
      * exists st. split; [left; reflexivity|].
        destruct (appendMatchingFonts_cases
                    (group fontDescriptions st.1 st.2)
                    (exactIndexOf (oWeight outFamily) weights)
                    (exactIndexOf (oHDensity outFamily) hDensities)
                    (exactIndexOf (oVDensity outFamily) vDensities)
                    (exactIndexOf (oStyle outFamily) styles))
          as [[_ E]|(m' & Hin & E)]; rewrite E in Hm.
        -- destruct Hm.
        -- destruct Hm as [<-|[]]. exact Hin.
      * destruct (IHm m Hm) as (st' & Hst & Hin).
        exists st'. split; [right; exact Hst|exact Hin].
Qed.

(** X5.  The language list is the set of seen language codes in
    ascending byte order, each once; and the entries of a merge
    sequence that carry a language code come in that order, so that a
    language earlier in the order always precedes a later one in the
    merged collection. *)
Theorem mergeSequence_languages_ascending
    (fontDescriptions : gmap string (gmap string (list fontDesc)))
    (languageSet : gset string) (outFamily : outputFamily) :
  StronglySorted string_le (sortedLanguages languageSet) /\
  NoDup (sortedLanguages languageSet) /\
  (forall l, In l (sortedLanguages languageSet) <-> l ∈ languageSet) /\
  StronglySorted string_le
    (filter (fun l => l <> EmptyString)
       (map entryLanguage
          (mergeSequence fontDescriptions (sortedLanguages languageSet)
             outFamily))).
Proof.
  split; [apply sortedLanguages_sorted|].
  split; [apply sortedLanguages_NoDup|].
  split; [apply sortedLanguages_elem|].
  unfold mergeSequence.
  eapply StronglySorted_sublist;
    [apply (entries_languages_sublist fontDescriptions)|].
  unfold mergeSteps. cbn [map snd]. rewrite filter_cons.
  destruct (decide (EmptyString <> EmptyString)); [congruence|].
  rewrite !map_app, !map_map. cbn [snd]. rewrite !filter_app.
  rewrite !(filter_const_false (fun l => l <> EmptyString)) by tauto.
  rewrite map_id, app_nil_r. cbn [app].
  eapply StronglySorted_sublist; [apply sublist_filter|].
  eapply StronglySorted_sublist; [apply sublist_filter|].
  apply sortedLanguages_sorted.
Qed.

(** ** The tables filled from the archive *)

Lemma classify_valid fname familyName language d :
  classify fname = Some (familyName, language, d) ->
  In familyName families /\ filename d = fname /\ validDesc d.
Proof.
  unfold classify. intros H.
  destruct (String.length fname <? 9)%nat; [discriminate|].
  destruct (negb (String.eqb (Ext fname) ".otf")
            && negb (String.eqb (Ext fname) ".ttf")); [discriminate|].
  destruct (negb (String.eqb (String.substring 0 4 fname) "Noto"));
    [discriminate|].
  destruct (splitDash _) as [[domain styling]|]; [|discriminate].
  destruct (indexOf domain families true) as [[family domain1] fam] eqn:Hfam.
  destruct (family <? 0) eqn:Hneg; [discriminate|]. apply Z.ltb_ge in Hneg.
  destruct (indexOf domain1 vDensities false) as [[v domain2] vTok] eqn:Hv.
  destruct (indexOf styling styles false) as [[st styling1] sTok] eqn:Hs.
  destruct (indexOf styling1 hDensities true) as [[h styling2] hTok] eqn:Hh.
  destruct (indexOf styling2 weights true) as [[w styling3] wTok] eqn:Hw.
  destruct (negb (String.eqb styling3 "")); [discriminate|].
  injection H as <- <- <-.
  apply indexOf_range in Hfam, Hv, Hs, Hh, Hw.
  destruct Hfam as [[-> _]|[_ Hfam]]; [lia|].
  destruct Hv as [[_ Hv]|[Hv _]]; [exfalso; apply Hv; cbn; auto|].
  destruct Hs as [[_ Hs]|[Hs _]]; [exfalso; apply Hs; cbn; auto|].
  destruct Hh as [[_ Hh]|[Hh _]]; [exfalso; apply Hh; cbn; auto|].
  split; [apply list_elem_of_In, list_elem_of_lookup; eauto|].
  split; [reflexivity|].
  unfold validDesc. cbn [weight hDensity vDensity style].
  split; [|auto].
  destruct Hw as [[-> _]|[Hw _]].
  - change (-1 <? 0) with true. cbv iota. rewrite axisLen_weights.
    change (exactIndexOf "Regular" weights) with 4. lia.
  - replace (w <? 0) with false by lia. exact Hw.
Qed.

Lemma families_table (l : list string) :
  forall (m : gmap string (gmap string (list fontDesc))) f,
    fold_left (fun m f => <[f := ∅]> m) l m !! f
    = if decide (f ∈ l) then Some ∅ else m !! f.
Proof.
  induction l as [|x l IH]; intros m f; cbn [fold_left].
  - destruct (decide (f ∈ [])) as [Hin|]; [|reflexivity].
    apply elem_of_nil in Hin. destruct Hin.
  - rewrite IH. destruct (decide (f ∈ l)) as [Hin|Hno].
    + destruct (decide (f ∈ x :: l)) as [|Hno]; [reflexivity|].
      exfalso. apply Hno. right. exact Hin.
    + destruct (decide (f ∈ x :: l)) as [Hin|Hno'].
      * apply elem_of_cons in Hin. destruct Hin as [->|Hin]; [|tauto].
        apply lookup_insert_eq.
      * apply lookup_insert_ne. intros ->. apply Hno'. left.
Qed.

Lemma emptyTables_ready : tablesReady emptyTables.
Proof.
  intros f Hf. unfold emptyTables. cbn [fontDescriptions].
  rewrite families_table. destruct (decide (f ∈ families)) as [|Hno]; [eauto|].
  exfalso. apply Hno, list_elem_of_In, Hf.
Qed.

Lemma emptyTables_group family language :
  group (fontDescriptions emptyTables) family language = [].
Proof.
  unfold group, emptyTables. cbn [fontDescriptions].
  rewrite families_table. destruct (decide (family ∈ families)).
  - rewrite lookup_empty. reflexivity.
  - rewrite lookup_empty. reflexivity.
Qed.

Lemma recordFont_spec t fname familyName language d data :
  tablesReady t -> In familyName families ->
  exists t',
    recordFont t fname familyName language d data = Some t' /\
    tablesReady t' /\
    (forall fam lang,
       group (fontDescriptions t') fam lang
       = group (fontDescriptions t) fam lang
         ++ (if decide (familyName = fam /\ language = lang) then [d]
             else [])) /\
    languageSet t' = {[language]} ∪ languageSet t /\
    fontData t' = <[fname := data]> (fontData t).
Proof.
  intros Hready Hfam. unfold recordFont.
  destruct (Hready familyName Hfam) as [byLanguage Hby]. rewrite Hby.
  eexists. split; [reflexivity|]. cbn [fontDescriptions languageSet fontData].
  split; [|split; [|split; reflexivity]].
  - intros f Hf. cbn [fontDescriptions].
    destruct (decide (familyName = f)) as [->|Hne].
    + rewrite lookup_insert_eq. eauto.
    + rewrite lookup_insert_ne by exact Hne. apply Hready, Hf.
  - intros fam lang. unfold group.
    destruct (decide (familyName = fam)) as [->|Hne].
    + rewrite lookup_insert_eq, Hby.
      destruct (decide (language = lang)) as [->|Hnl].
      * rewrite lookup_insert_eq. cbn [default].
        destruct (decide (fam = fam /\ lang = lang)); [reflexivity|tauto].
      * rewrite lookup_insert_ne by exact Hnl.
        destruct (decide (fam = fam /\ language = lang)); [tauto|].
        rewrite app_nil_r. reflexivity.
    + rewrite lookup_insert_ne by exact Hne.
      destruct (decide (familyName = fam /\ language = lang)); [tauto|].
      rewrite app_nil_r. reflexivity.
Qed.

Lemma loadFiles_spec files : forall t,
  tablesReady t ->
  exists t',
    loadFiles t files = Some t' /\ tablesReady t' /\
    (forall fam lang,
       group (fontDescriptions t') fam lang
       = group (fontDescriptions t) fam lang ++ descriptorsOf files fam lang) /\
    (forall l, l ∈ languageSet t' <->
       l ∈ languageSet t \/
       exists f fam d, In f files /\ classify (fst f) = Some (fam, l, d)) /\
    (forall n, fontData t' !! n
       = match last (contentsOf files n) with
         | Some x => Some x
         | None => fontData t !! n
         end).
Proof.
  induction files as [|f files IH]; intros t Hready.
  - exists t. split; [reflexivity|]. split; [exact Hready|].
    split; [intros; cbn; rewrite app_nil_r; reflexivity|].
    split; [|reflexivity].
    intros l. split; [auto|]. intros [H|(f & fam & d & [] & _)]. exact H.
  - cbn [loadFiles]. unfold loadFile.
    destruct (classify (fst f)) as [[[familyName language] d]|] eqn:Hc.
    + destruct (classify_valid _ _ _ _ Hc) as (Hfam & _ & _).
      destruct (recordFont_spec t (fst f) familyName language d (snd f)
                  Hready Hfam) as (t1 & -> & Hr1 & Hg1 & Hl1 & Hd1).
      destruct (IH t1 Hr1) as (t' & Hrun & Hr' & Hg & Hl & Hd).
      exists t'. split; [exact Hrun|]. split; [exact Hr'|].
      split; [|split].
      * intros fam lang. rewrite Hg, Hg1, <- app_assoc. f_equal.
        unfold descriptorsOf. cbn [omap list_omap]. rewrite Hc.
        destruct (decide (familyName = fam /\ language = lang));
          reflexivity.
      * intros l. rewrite Hl, Hl1, elem_of_union, elem_of_singleton.
        split.
        -- intros [[->|H]|(g & fam & e & Hin & Hg')].
           ++ right. exists f, familyName, d. split; [left; reflexivity|exact Hc].
           ++ left. exact H.
           ++ right. exists g, fam, e. split; [right; exact Hin|exact Hg'].
        -- intros [H|(g & fam & e & [<-|Hin] & Hg')].
           ++ left. right. exact H.
           ++ left. left. congruence.
           ++ right. exists g, fam, e. split; [exact Hin|exact Hg'].
      * intros n. rewrite Hd, Hd1. unfold contentsOf.
        cbn [omap list_omap]. rewrite Hc.
        destruct (decide (fst f = n)) as [->|Hne].
        -- rewrite lookup_insert_eq.
           change (snd f :: ?l) with ([snd f] ++ l). rewrite last_app.
           destruct (last _); reflexivity.
        -- rewrite lookup_insert_ne by exact Hne. reflexivity.
    + destruct (IH t Hready) as (t' & Hrun & Hr' & Hg & Hl & Hd).
      exists t'. split; [exact Hrun|]. split; [exact Hr'|].
      split; [|split].
      * intros fam lang. rewrite Hg. unfold descriptorsOf.
        cbn [omap list_omap]. rewrite Hc. reflexivity.
      * intros l. rewrite Hl. split.
        -- intros [H|(g & fam & e & Hin & Hg')]; [left; exact H|].
           right. exists g, fam, e. split; [right; exact Hin|exact Hg'].
        -- intros [H|(g & fam & e & [<-|Hin] & Hg')];
             [left; exact H|congruence|].
           right. exists g, fam, e. split; [exact Hin|exact Hg'].
      * intros n. rewrite Hd. unfold contentsOf.
        cbn [omap list_omap]. rewrite Hc. reflexivity.
Qed.

(** X6.  Reading the archive never panics: every accepted entry names a
    family of the table, and each of these has its map.  Afterwards
    each group holds exactly the descriptors of the entries classified
    into it, in the order in which they were recorded; the language
    set holds exactly the language codes of the accepted entries; and
    the content stored under a name is that of the last accepted entry
    of that name. *)
Theorem loadFiles_tables (files : list (string * list byte)) :
  exists t,
    loadFiles emptyTables files = Some t /\
    (forall family language,
       group (fontDescriptions t) family language
       = descriptorsOf files family language) /\
    (forall l, l ∈ languageSet t <->
       exists f family d,
         In f files /\ classify (fst f) = Some (family, l, d)) /\
    (forall fname, fontData t !! fname = last (contentsOf files fname)).
Proof.
  destruct (loadFiles_spec files emptyTables emptyTables_ready)
    as (t & Hrun & _ & Hg & Hl & Hd).
  exists t. split; [exact Hrun|]. split; [|split].
  - intros family language. rewrite Hg, emptyTables_group. reflexivity.
  - intros l. rewrite Hl. split; [|auto].
    intros [H|H]; [|exact H]. cbn in H. apply elem_of_empty in H. destruct H.
  - intros fname. rewrite Hd. cbn [emptyTables fontData].
    rewrite lookup_empty. destruct (last _); reflexivity.
Qed.

Lemma descriptorsOf_In files family language d :
  In d (descriptorsOf files family language) <->
  exists f, In f files /\ classify (fst f) = Some (family, language, d).
Proof.
  unfold descriptorsOf. rewrite <- list_elem_of_In, list_elem_of_omap.
  split.
  - intros (f & Hf & Hc). exists f. split; [apply list_elem_of_In, Hf|].
    destruct (classify (fst f)) as [[[fam lang] e]|]; [|discriminate].
    destruct (decide (fam = family /\ lang = language)) as [[-> ->]|];
      [|discriminate].
    congruence.
  - intros (f & Hf & Hc). exists f. split; [apply list_elem_of_In, Hf|].
    rewrite Hc.
    destruct (decide (family = family /\ language = language));
      [reflexivity|tauto].
Qed.

Lemma contentsOf_In files fname data :
  In data (contentsOf files fname) -> In (fname, data) files.
Proof.
  unfold contentsOf. rewrite <- !list_elem_of_In, list_elem_of_omap.
  intros ([n x] & Hf & Hc). cbn [fst snd] in Hc.
  destruct (classify n); [|discriminate].
  destruct (decide (n = fname)) as [->|]; [|discriminate].
  congruence.
Qed.

Lemma contentsOf_accepted files f :
  In f files -> classify (fst f) <> None ->
  exists data, last (contentsOf files (fst f)) = Some data.
Proof.
  intros Hin Hc.
  assert (Hel : snd f ∈ contentsOf files (fst f)).
  { unfold contentsOf. apply list_elem_of_omap. exists f.
    split; [apply list_elem_of_In, Hin|].
    destruct (classify (fst f)); [|congruence].
    destruct (decide (fst f = fst f)); [reflexivity|congruence]. }
  destruct (last (contentsOf files (fst f))) as [data|] eqn:E; [eauto|].
  apply last_None in E. rewrite E in Hel. apply elem_of_nil in Hel.
  destruct Hel.
Qed.

Lemma last_In {A} (l : list A) x : last l = Some x -> In x l.
Proof.
  intros H. apply list_elem_of_In. apply last_Some in H.
  destruct H as [l' ->]. apply elem_of_app. right. left.
Qed.

Lemma exactIndexOf_range s l : -1 <= exactIndexOf s l < axisLen l.
Proof.
  destruct (exactIndexOfLoop_spec s l [] 0 eq_refl (fun H => H)) as [Hin Hno].
  fold (exactIndexOf s l) in Hin, Hno.
  destruct (decide (s ∈ l)) as [H|H].
  - apply list_elem_of_In in H. destruct (Hin H) as (H0 & Hlk & _).
    apply lookup_lt_Some in Hlk. cbn [app] in Hlk. unfold axisLen. lia.
  - rewrite Hno by (intros H'; apply H, list_elem_of_In, H').
    unfold axisLen. lia.
Qed.

Lemma outputFamily_validTarget (outFamily : outputFamily) :
  validTarget (exactIndexOf (oWeight outFamily) weights)
    (exactIndexOf (oHDensity outFamily) hDensities)
    (exactIndexOf (oVDensity outFamily) vDensities)
    (exactIndexOf (oStyle outFamily) styles).
Proof. unfold validTarget. auto using exactIndexOf_range. Qed.

Lemma sourceFontsOf_member fontDescriptions languages outFamily m :
  In m (sourceFontsOf fontDescriptions languages outFamily) ->
  exists st, In st (mergeSteps languages outFamily) /\
             In m (group fontDescriptions (fst st) (snd st)).
Proof.
  rewrite sourceFontsOf_steps, in_flat_map. intros (st & Hst & Hm).
  exists st. split; [exact Hst|].
  destruct (appendMatchingFonts_cases
              (group fontDescriptions st.1 st.2)
              (exactIndexOf (oWeight outFamily) weights)
              (exactIndexOf (oHDensity outFamily) hDensities)
              (exactIndexOf (oVDensity outFamily) vDensities)
              (exactIndexOf (oStyle outFamily) styles))
    as [[_ E]|(m' & Hin & E)]; rewrite E in Hm.
  - destruct Hm.
  - destruct Hm as [<-|[]]. exact Hin.
Qed.

(** X7.  Every source font that enters a merge has its content: the
    content handed to the merger for a selected descriptor is the
    content of an archive entry of that name, never the empty slice of
    a missing key; and every selected descriptor holds indices inside
    the four enumerations. *)
Theorem fontInputs_present (files : list (string * list byte)) :
  exists t,
    loadFiles emptyTables files = Some t /\
    forall outFamily : outputFamily,
      Forall2
        (fun m data =>
           fontData t !! filename m = Some data /\
           In (filename m, data) files /\ validDesc m)
        (sourceFontsOf (fontDescriptions t)
           (sortedLanguages (languageSet t)) outFamily)
        (fontInputs (fontData t)
           (sourceFontsOf (fontDescriptions t)
              (sortedLanguages (languageSet t)) outFamily)).
Proof.
  destruct (loadFiles_spec files emptyTables emptyTables_ready)
    as (t & Hrun & _ & Hg & _ & Hd).
  exists t. split; [exact Hrun|]. intros outFamily.
  unfold fontInputs. apply Forall2_fmap_r, Forall_Forall2_diag, Forall_forall.
  intros m Hm. apply list_elem_of_In, sourceFontsOf_member in Hm.
  destruct Hm as (st & _ & Hm).
  rewrite Hg, emptyTables_group in Hm. cbn [app] in Hm.
  apply descriptorsOf_In in Hm. destruct Hm as (f & Hf & Hc).
  destruct (classify_valid _ _ _ _ Hc) as (_ & Hname & Hvalid).
  destruct (contentsOf_accepted files f Hf ltac:(congruence)) as [data Hlast].
  assert (E : fontData t !! filename m = Some data)
    by (rewrite Hd, Hname, Hlast; reflexivity).
  unfold compose. rewrite E. cbn [default].
  split; [reflexivity|]. split; [|exact Hvalid].
  rewrite Hname. apply contentsOf_In, last_In, Hlast.
Qed.

(** X8.  In a run of the program the preconditions of the selector
    always hold: whatever the archive and the output family, for every
    group the composer consults that is not empty, the descriptor it
    takes from the group is one whose key no descriptor of the group
    undercuts in the lexicographic order, and that descriptor is part
    of the merge. *)
Theorem sourceFontsOf_nearest (files : list (string * list byte)) :
  exists t,
    loadFiles emptyTables files = Some t /\
    forall (outFamily : outputFamily) family language,
      In (family, language)
        (mergeSteps (sortedLanguages (languageSet t)) outFamily) ->
      descriptorsOf files family language <> [] ->
      exists m,
        In m (descriptorsOf files family language) /\
        In m (sourceFontsOf (fontDescriptions t)
                (sortedLanguages (languageSet t)) outFamily) /\
        forall d, In d (descriptorsOf files family language) ->
          lexLtb
            (lexKey (exactIndexOf (oWeight outFamily) weights)
               (exactIndexOf (oHDensity outFamily) hDensities)
               (exactIndexOf (oVDensity outFamily) vDensities)
               (exactIndexOf (oStyle outFamily) styles) d)
            (lexKey (exactIndexOf (oWeight outFamily) weights)
               (exactIndexOf (oHDensity outFamily) hDensities)
               (exactIndexOf (oVDensity outFamily) vDensities)
               (exactIndexOf (oStyle outFamily) styles) m)
          = false.
Proof.
  destruct (loadFiles_spec files emptyTables emptyTables_ready)
    as (t & Hrun & _ & Hg & _ & _).
  exists t. split; [exact Hrun|].
  intros outFamily family language Hst Hne.
  pose proof (outputFamily_validTarget outFamily) as Ht.
  set (tw := exactIndexOf (oWeight outFamily) weights) in *.
  set (th := exactIndexOf (oHDensity outFamily) hDensities) in *.
  set (tv := exactIndexOf (oVDensity outFamily) vDensities) in *.
  set (ts := exactIndexOf (oStyle outFamily) styles) in *.
  assert (Hv : forall d, In d (descriptorsOf files family language) ->
                         validDesc d).
  { intros d Hd. apply descriptorsOf_In in Hd. destruct Hd as (f & _ & Hc).
    apply (classify_valid _ _ _ _ Hc). }
  destruct (descriptorsOf files family language) as [|d0 rest] eqn:Hdesc;
    [congruence|].
  destruct (matchLoop_nonempty (descDistance tw th tv ts) d0 rest)
    as (m & Hm & Hin & Hmin).
  exists m. split; [exact Hin|]. split.
  - rewrite sourceFontsOf_steps. apply in_flat_map.
    exists (family, language). split; [exact Hst|]. cbn [fst snd].
    rewrite Hg, emptyTables_group. cbn [app]. rewrite Hdesc.
    unfold appendMatchingFonts. fold tw th tv ts. rewrite Hm.
    left. reflexivity.
  - intros d Hd.
    rewrite <- (descDistance_ltb_lexKey tw th tv ts d m Ht (Hv d Hd) (Hv m Hin)).
    apply Z.ltb_ge, Hmin, Hd.
Qed.

Lemma contentsOf_absent files fname :
  ~ In fname (map fst files) -> contentsOf files fname = [].
Proof.
  induction files as [|g files IH]; intros Hno; [reflexivity|].
  unfold contentsOf. cbn [omap list_omap]. fold (contentsOf files fname).
  cbn [map In] in Hno.
  rewrite IH by tauto.
  destruct (classify (fst g)); [|reflexivity].
  destruct (decide (fst g = fname)); [tauto|reflexivity].
Qed.

Lemma contentsOf_unique files f :
  NoDup (map fst files) -> In f files -> classify (fst f) <> None ->
  contentsOf files (fst f) = [snd f].
Proof.
  induction files as [|g files IH]; intros Hnd Hin Hc; [destruct Hin|].
  cbn [map] in Hnd. apply NoDup_cons in Hnd. destruct Hnd as [Hg Hnd].
  rewrite list_elem_of_In in Hg.
  unfold contentsOf. cbn [omap list_omap]. fold (contentsOf files (fst f)).
  destruct Hin as [->|Hin].
  - destruct (classify (fst f)); [|congruence].
    destruct (decide (fst f = fst f)); [|congruence].
    rewrite contentsOf_absent by exact Hg. reflexivity.
  - assert (Hne : fst g <> fst f).
    { intros E. apply Hg. rewrite E. apply in_map, Hin. }
    rewrite IH by assumption.
    destruct (classify (fst g)); [|reflexivity].
    destruct (decide (fst g = fst f)); [congruence|reflexivity].
Qed.

(** X9.  The merge does not depend on the order in which the
    goroutines that read the archive take the lock.  For an archive
    whose entries bear distinct names and in which no two accepted
    entries of one group agree on all four indices, any two orders of
    recording lead to the same language list, the same source fonts in
    the same order and the same contents for the merger. *)
Theorem generateFonts_schedule_independent
    (files files' : list (string * list byte)) (outFamily : outputFamily) :
  Permutation files files' ->
  NoDup (map fst files) ->
  (forall f g family language d e,
     In f files -> In g files ->
     classify (fst f) = Some (family, language, d) ->
     classify (fst g) = Some (family, language, e) ->
     weight d = weight e -> hDensity d = hDensity e ->
     vDensity d = vDensity e -> style d = style e -> fst f = fst g) ->
  exists t t',
    loadFiles emptyTables files = Some t /\
    loadFiles emptyTables files' = Some t' /\
    sortedLanguages (languageSet t) = sortedLanguages (languageSet t') /\
    sourceFontsOf (fontDescriptions t) (sortedLanguages (languageSet t))
      outFamily
    = sourceFontsOf (fontDescriptions t') (sortedLanguages (languageSet t'))
        outFamily /\
    fontInputs (fontData t)
      (sourceFontsOf (fontDescriptions t) (sortedLanguages (languageSet t))
         outFamily)
    = fontInputs (fontData t')
        (sourceFontsOf (fontDescriptions t')
           (sortedLanguages (languageSet t')) outFamily).
Proof.
  intros Hperm Hnd Htie.
  destruct (loadFiles_spec files emptyTables emptyTables_ready)
    as (t & Hrun & _ & Hg & Hl & Hd).
  destruct (loadFiles_spec files' emptyTables emptyTables_ready)
    as (t' & Hrun' & _ & Hg' & Hl' & Hd').
  exists t, t'. split; [exact Hrun|]. split; [exact Hrun'|].
  assert (Hin : forall f, In f files <-> In f files').
  { intros f. split; apply Permutation_in;
      [exact Hperm|symmetry; exact Hperm]. }
  assert (Hnd' : NoDup (map fst files')).
  { change (NoDup (fst <$> files')). rewrite <- Hperm. exact Hnd. }
  assert (Hlang : languageSet t = languageSet t').
  { apply set_eq. intros l. rewrite Hl, Hl'.
    split; (intros [H|(f & fam & d & Hf & Hc)]; [left; exact H|]);
      right; exists f, fam, d; (split; [apply Hin, Hf|exact Hc]). }
  rewrite <- Hlang. split; [reflexivity|].
  assert (Hgroup : forall family language d,
            In d (group (fontDescriptions t) family language) <->
            In d (group (fontDescriptions t') family language)).
  { intros family language d.
    rewrite Hg, Hg', emptyTables_group. cbn [app].
    rewrite !descriptorsOf_In.
    split; intros (f & Hf & Hc); exists f; (split; [apply Hin, Hf|exact Hc]). }
  assert (Hsel : forall st : string * string,
    appendMatchingFonts [] (group (fontDescriptions t) (fst st) (snd st))
      (exactIndexOf (oWeight outFamily) weights)
      (exactIndexOf (oHDensity outFamily) hDensities)
      (exactIndexOf (oVDensity outFamily) vDensities)
      (exactIndexOf (oStyle outFamily) styles)
    = appendMatchingFonts [] (group (fontDescriptions t') (fst st) (snd st))
        (exactIndexOf (oWeight outFamily) weights)
        (exactIndexOf (oHDensity outFamily) hDensities)
        (exactIndexOf (oVDensity outFamily) vDensities)
        (exactIndexOf (oStyle outFamily) styles)).
  { intros st.
    apply appendMatchingFonts_order_independent.
    - apply outputFamily_validTarget.
    - intros d Hdin. rewrite Hg, emptyTables_group in Hdin. cbn [app] in Hdin.
      apply descriptorsOf_In in Hdin. destruct Hdin as (f & _ & Hc).
      apply (classify_valid _ _ _ _ Hc).
    - apply Hgroup.
    - intros a b Ha Hb Hw Hh Hv Hs.
      rewrite Hg, emptyTables_group in Ha, Hb. cbn [app] in Ha, Hb.
      apply descriptorsOf_In in Ha, Hb.
      destruct Ha as (f & Hf & Hcf). destruct Hb as (g & Hgf & Hcg).
      pose proof (Htie f g _ _ a b Hf Hgf Hcf Hcg Hw Hh Hv Hs) as E.
      rewrite E in Hcf. congruence. }
  assert (Hsrc :
    sourceFontsOf (fontDescriptions t) (sortedLanguages (languageSet t))
      outFamily
    = sourceFontsOf (fontDescriptions t') (sortedLanguages (languageSet t))
        outFamily).
  { rewrite !sourceFontsOf_steps. apply flat_map_ext. exact Hsel. }
  split; [exact Hsrc|]. rewrite <- Hsrc.
  unfold fontInputs. apply map_ext_in. intros m Hm.
  apply sourceFontsOf_member in Hm. destruct Hm as (st & _ & Hm).
  rewrite Hg, emptyTables_group in Hm. cbn [app] in Hm.
  apply descriptorsOf_In in Hm. destruct Hm as (f & Hf & Hc).
  destruct (classify_valid _ _ _ _ Hc) as (_ & Hname & _).
  rewrite Hd, Hd', Hname.
  rewrite (contentsOf_unique files f Hnd Hf) by congruence.
  rewrite (contentsOf_unique files' f Hnd') by (try apply Hin; congruence).
  reflexivity.
Qed.

Lemma generateFonts_schedule_independent_witness :
  Permutation
    [("NotoSans-Regular.ttf"%string, [x01]);
     ("NotoSans-Bold.ttf"%string, [x02])]
    [("NotoSans-Bold.ttf"%string, [x02]);
     ("NotoSans-Regular.ttf"%string, [x01])] /\
  NoDup (map fst [("NotoSans-Regular.ttf"%string, [x01]);
                  ("NotoSans-Bold.ttf"%string, [x02])]) /\
  exists t t',
    loadFiles emptyTables
      [("NotoSans-Regular.ttf"%string, [x01]);
       ("NotoSans-Bold.ttf"%string, [x02])] = Some t /\
    loadFiles emptyTables
      [("NotoSans-Bold.ttf"%string, [x02]);
       ("NotoSans-Regular.ttf"%string, [x01])] = Some t' /\
    sortedLanguages (languageSet t) = sortedLanguages (languageSet t') /\
    sourceFontsOf (fontDescriptions t) (sortedLanguages (languageSet t))
      notosans
    = sourceFontsOf (fontDescriptions t') (sortedLanguages (languageSet t'))
        notosans /\
    fontInputs (fontData t)
      (sourceFontsOf (fontDescriptions t) (sortedLanguages (languageSet t))
         notosans)
    = fontInputs (fontData t')
        (sourceFontsOf (fontDescriptions t')
           (sortedLanguages (languageSet t')) notosans).
Proof.
  assert (Hp : Permutation
    [("NotoSans-Regular.ttf"%string, [x01]);
     ("NotoSans-Bold.ttf"%string, [x02])]
    [("NotoSans-Bold.ttf"%string, [x02]);
     ("NotoSans-Regular.ttf"%string, [x01])]) by apply perm_swap.
  assert (Hn : NoDup (map fst [("NotoSans-Regular.ttf"%string, [x01]);
                               ("NotoSans-Bold.ttf"%string, [x02])])).
  { cbn [map fst]. apply NoDup_cons. split.
    - intros H. apply list_elem_of_singleton in H. discriminate.
    - apply NoDup_singleton. }
  split; [exact Hp|]. split; [exact Hn|].
  apply (generateFonts_schedule_independent _ _ notosans Hp Hn).
  intros f g family language d e [<-|[<-|[]]] [<-|[<-|[]]];
    cbn [fst]; intros Hf Hg; try reflexivity;
    vm_compute in Hf, Hg; injection Hf as <- <- <-; injection Hg as <-;
    cbn [weight]; intros; discriminate.
Defined.

(** ** Sequences of calls on a [seekBuffer] *)

(** What the merger can observe of a buffer: its bytes and its
    position. *)
Lemma Seek_moved sb offset whence :
  (whence =? SeekStart) && (offset <? 0) = false ->
  exists q,
    (Seek sb offset whence).1.1
    = clampPos (mkSeekBuffer (buf sb) q) /\
    forall sb2, len (buf sb2) = len (buf sb) -> pos sb2 = pos sb ->
      (Seek sb2 offset whence).1.1 = clampPos (mkSeekBuffer (buf sb2) q).
Proof.
  intros Hc. unfold Seek. rewrite Hc. cbn [fst].
  destruct (whence =? SeekStart).
  { eexists. split; [reflexivity|]. intros sb2 _ _. reflexivity. }
  destruct (whence =? SeekEnd).
  { destruct (offset >=? 0).
    - eexists. split; [reflexivity|]. intros sb2 -> _. reflexivity.
    - eexists. split; [reflexivity|]. intros sb2 -> _. reflexivity. }
  destruct (whence =? SeekCurrent).
  { eexists. split; [reflexivity|]. intros sb2 _ ->. reflexivity. }
  exists (pos sb). split; [destruct sb; reflexivity|].
  intros sb2 _ <-. destruct sb2; reflexivity.
Qed.

Lemma call_simulation sb1 sb2 c :
  posInRange sb1 ->
  elems (buf sb1) = elems (buf sb2) -> pos sb1 = pos sb2 ->
  exists sb1' sb2',
    call sb1 c = Some sb1' /\ call sb2 c = Some sb2' /\
    posInRange sb1' /\
    elems (buf sb1') = elems (buf sb2') /\ pos sb1' = pos sb2'.
Proof.
  intros Hpos He Hp.
  assert (Hlen : len (buf sb2) = len (buf sb1)) by (unfold len; rewrite He; reflexivity).
  assert (Hpos2 : posInRange sb2) by (unfold posInRange in *; lia).
  destruct c as [|p|offset whence]; cbn [call].
  - do 2 eexists. split; [reflexivity|]. split; [reflexivity|].
    unfold posInRange, Reset, len. cbn [buf pos elems length].
    split; [lia|]. split; reflexivity.
  - destruct (Write_spec sb1 p Hpos) as (sb1' & -> & E1 & P1 & I1).
    destruct (Write_spec sb2 p Hpos2) as (sb2' & -> & E2 & P2 & _).
    exists sb1', sb2'. split; [reflexivity|]. split; [reflexivity|].
    split; [exact I1|]. split; [|lia].
    rewrite E1, E2, He, Hp. reflexivity.
  - do 2 eexists. split; [reflexivity|]. split; [reflexivity|].
    destruct ((whence =? SeekStart) && (offset <? 0)) eqn:Hc.
    + unfold Seek. rewrite Hc. cbn [fst]. auto.
    + destruct (Seek_moved sb1 offset whence Hc) as (q & -> & H2).
      rewrite (H2 sb2 Hlen (eq_sym Hp)).
      destruct (clampPos_spec (mkSeekBuffer (buf sb1) q)) as [Eb1 Ep1].
      destruct (clampPos_spec (mkSeekBuffer (buf sb2) q)) as [Eb2 Ep2].
      cbn [buf pos] in *.
      unfold posInRange. rewrite Eb1, Eb2, Ep1, Ep2, Hlen.
      assert (0 <= len (buf sb1)) by (unfold len; lia).
      split; [lia|]. split; [exact He|reflexivity].
Qed.

Lemma calls_simulation cs : forall sb1 sb2,
  posInRange sb1 ->
  elems (buf sb1) = elems (buf sb2) -> pos sb1 = pos sb2 ->
  exists sb1' sb2',
    calls sb1 cs = Some sb1' /\ calls sb2 cs = Some sb2' /\
    posInRange sb1' /\
    elems (buf sb1') = elems (buf sb2') /\ pos sb1' = pos sb2'.
Proof.
  induction cs as [|c cs IH]; intros sb1 sb2 Hpos He Hp.
  - exists sb1, sb2. auto.
  - destruct (call_simulation sb1 sb2 c Hpos He Hp)
      as (m1 & m2 & E1 & E2 & Hpos' & He' & Hp').
    cbn [calls]. rewrite E1, E2. apply IH; assumption.
Qed.

(** X10.  A recycled buffer behaves like a new one.  Whatever state a
    buffer is in, after [Reset] no sequence of [Reset], [Write] and
    [Seek] calls panics, and it leaves the bytes and the position it
    would leave on the zero value of [seekBuffer]: nothing of the
    previous contents shows through.  The position stays within
    [0, len(buf)] throughout. *)
Theorem calls_after_Reset (sb : seekBuffer) (cs : list bufferCall) :
  exists sb1 sb0,
    calls sb (CallReset :: cs) = Some sb1 /\
    calls zeroBuffer cs = Some sb0 /\
    elems (buf sb1) = elems (buf sb0) /\ pos sb1 = pos sb0 /\
    posInRange sb1.
Proof.
  cbn [calls call].
  destruct (calls_simulation cs (Reset sb) zeroBuffer)
    as (sb1 & sb0 & E1 & E0 & Hpos & He & Hp).
  - unfold posInRange, Reset, len. cbn [buf pos elems length]. lia.
  - reflexivity.
  - reflexivity.
  - exists sb1, sb0. auto.
Qed.

Lemma writes_append ps : forall sb,
  posInRange sb -> pos sb = len (buf sb) ->
  exists sb',
    calls sb (map CallWrite ps) = Some sb' /\
    elems (buf sb') = elems (buf sb) ++ concat ps /\
    pos sb' = len (buf sb').
Proof.
  induction ps as [|p ps IH]; intros sb Hpos Hend.
  - exists sb. cbn. rewrite app_nil_r. auto.
  - cbn [map calls call].
    destruct (Write_spec sb p Hpos) as (sb1 & -> & E1 & P1 & I1).
    assert (E1' : elems (buf sb1) = elems (buf sb) ++ p).
    { rewrite E1. unfold len in Hend.
      rewrite take_ge by lia. rewrite drop_ge by lia.
      rewrite app_nil_r. reflexivity. }
    assert (Hend1 : pos sb1 = len (buf sb1)).
    { unfold len in *. rewrite E1', length_app. lia. }
    destruct (IH sb1 I1 Hend1) as (sb' & Hrun & He & Hp).
    exists sb'. split; [exact Hrun|]. split; [|exact Hp].
    rewrite He, E1', <- app_assoc. reflexivity.
Qed.

(** X11.  Writes that follow a [Reset] without any [Seek] between them
    append: the buffer ends up holding the written pieces one after
    the other and nothing else, with the position at its end. *)
Theorem Reset_then_writes (sb : seekBuffer) (ps : list (list byte)) :
  exists sb',
    calls sb (CallReset :: map CallWrite ps) = Some sb' /\
    elems (buf sb') = concat ps /\
    pos sb' = Z.of_nat (length (concat ps)).
Proof.
  cbn [calls call].
  destruct (writes_append ps (Reset sb)) as (sb' & Hrun & He & Hp).
  - unfold posInRange, Reset, len. cbn [buf pos elems length]. lia.
  - reflexivity.
  - exists sb'. split; [exact Hrun|]. cbn [Reset buf elems app] in He.
    split; [exact He|]. rewrite Hp. unfold len. rewrite He. reflexivity.
Qed.

(** X12.  [Write] never shrinks the capacity and allocates only when
    the bytes do not fit: the capacity stays as it is when
    [pos + len(p)] is within it, and becomes [2*len(buf) + len(p)]
    otherwise.  The length becomes the larger of the old length and
    [pos + len(p)].  [Reset] empties the buffer and keeps its
    capacity. *)
Theorem Write_capacity (sb : seekBuffer) (p : list byte) :
  posInRange sb ->
  exists sb',
    Write sb p = Some (sb', Z.of_nat (length p), None) /\
    len (buf sb') = Z.max (len (buf sb)) (pos sb + Z.of_nat (length p)) /\
    cap (buf sb')
    = (if pos sb + Z.of_nat (length p) >? cap (buf sb)
       then 2 * len (buf sb) + Z.of_nat (length p) else cap (buf sb)) /\
    cap (buf sb) <= cap (buf sb') /\
    len (buf (Reset sb)) = 0 /\ cap (buf (Reset sb)) = cap (buf sb).
Proof.
  intros Hpos.
  destruct (Write_spec sb p Hpos) as (sb' & Hrun & He & Hp & Hpos').
  exists sb'. split; [exact Hrun|].
  assert (Hlen : len (buf sb')
                 = Z.max (len (buf sb)) (pos sb + Z.of_nat (length p))).
  { unfold posInRange, len in *. rewrite He.
    rewrite !length_app, length_take, length_drop. lia. }
  split; [exact Hlen|].
  assert (Hcap : cap (buf sb')
    = (if pos sb + Z.of_nat (length p) >? cap (buf sb)
       then 2 * len (buf sb) + Z.of_nat (length p) else cap (buf sb))).
  { clear He Hp Hpos'. revert Hrun Hlen. unfold Write.
    unfold posInRange in Hpos.
    set (n := Z.of_nat (length p)).
    assert (Hn : 0 <= n) by (unfold n; lia).
    assert (Hcl : len (buf sb) <= cap (buf sb)) by (unfold cap; lia).
    assert (Hfin : forall b,
      (if (pos sb <? 0) || (pos sb >? len b)
       then @None (seekBuffer * Z * option string)
       else
         let k := Z.to_nat (pos sb) in
         let '(tail, copied) := copyBytes (drop k (elems b)) p in
         Some (mkSeekBuffer (mkSlice (take k (elems b) ++ tail) (spare b))
                 (pos sb + copied), n, @None string))
      = Some (sb', n, @None string) ->
      Z.of_nat (length (spare (buf sb'))) = Z.of_nat (length (spare b))).
    { intros b. destruct ((pos sb <? 0) || (pos sb >? len b)); [discriminate|].
      cbv zeta. destruct (copyBytes _ _) as [tail copied].
      intros H. injection H as <- . reflexivity. }
    destruct (Z.gtb_spec (pos sb + n) (len (buf sb))) as [Hgrow|Hfit].
    - destruct (Z.gtb_spec (pos sb + n) (cap (buf sb))) as [Hover|Hin].
      + unfold makeSlice.
        replace ((0 <=? pos sb + n) && (pos sb + n <=? 2 * len (buf sb) + n))
          with true by (symmetry; apply andb_true_iff; split; lia).
        cbn [elems spare]. intros Hrun Hlen. apply Hfin in Hrun.
        cbn [spare] in Hrun. rewrite repeat_length in Hrun.
        unfold cap at 1. lia.
      + unfold reslice.
        replace ((0 <=? pos sb + n) && (pos sb + n <=? cap (buf sb)))
          with true by (symmetry; apply andb_true_iff; split; lia).
        intros Hrun Hlen. apply Hfin in Hrun. cbn [spare] in Hrun.
        rewrite length_drop, length_app in Hrun.
        unfold cap at 1. unfold cap, len in *. lia.
    - intros Hrun Hlen. apply Hfin in Hrun.
      replace (pos sb + n >? cap (buf sb)) with false by lia.
      unfold cap at 1. unfold cap. lia. }
  split; [exact Hcap|]. split.
  - rewrite Hcap. unfold posInRange in Hpos.
    destruct (Z.gtb_spec (pos sb + Z.of_nat (length p)) (cap (buf sb))); lia.
  - unfold Reset, len, cap, len. cbn [buf elems spare length].
    rewrite length_app. lia.
Qed.

Lemma Write_capacity_witness :
  posInRange poolBuffer /\
  exists sb',
    Write poolBuffer (repeat xff 5000)
      = Some (sb', Z.of_nat (length (repeat xff 5000)), None) /\
    len (buf sb')
      = Z.max (len (buf poolBuffer))
          (pos poolBuffer + Z.of_nat (length (repeat xff 5000))) /\
    cap (buf sb')
    = (if pos poolBuffer + Z.of_nat (length (repeat xff 5000))
          >? cap (buf poolBuffer)
       then 2 * len (buf poolBuffer) + Z.of_nat (length (repeat xff 5000))
       else cap (buf poolBuffer)) /\
    cap (buf poolBuffer) <= cap (buf sb') /\
    len (buf (Reset poolBuffer)) = 0 /\
    cap (buf (Reset poolBuffer)) = cap (buf poolBuffer).
Proof.
  assert (H : posInRange poolBuffer)
    by (unfold posInRange, poolBuffer, len; cbn [pos buf elems];
        rewrite repeat_length; lia).
  split; [exact H|]. exact (Write_capacity poolBuffer (repeat xff 5000) H).
Defined.

(** ** The generated decoder *)

Lemma chunkDecoderLoop_spec fuel : forall chunks p filled n,
  (length chunks + length (concat chunks) < fuel)%nat ->
  let k := Z.to_nat (Z.min (Z.of_nat (length p) / 8)
                       (Z.of_nat (length (concat chunks)))) in
  exists chunks',
    chunkDecoderLoop fuel chunks p filled n
    = Some (filled ++ payload (take k (concat chunks)) ++ drop (8 * k) p,
            n + 8 * Z.of_nat k,
            if Z.of_nat (length (concat chunks)) <? Z.of_nat (length p) / 8
            then Some EOF else None,
            chunks') /\
    concat chunks' = drop k (concat chunks) /\
    (Z.of_nat (length (concat chunks)) < Z.of_nat (length p) / 8 ->
     chunks' = []).
Proof.
  induction fuel as [|fuel IH]; intros chunks p filled n Hfuel k; [lia|].
  cbn [chunkDecoderLoop].
  destruct (Nat.leb_spec 8 (length p)) as [Hp|Hp].
  - destruct chunks as [|[|u words] rest].
    + exists []. cbn [concat length] in *.
      assert (Hk : k = 0%nat) by (unfold k; cbn [concat length]; lia).
      rewrite Hk, Nat.mul_0_r, drop_0, take_0.
      cbn [payload flat_map app]. change (Z.of_nat 0) with 0.
      rewrite Z.mul_0_r, Z.add_0_r.
      replace (0 <? Z.of_nat (length p) / 8) with true
        by (symmetry; apply Z.ltb_lt; Z.div_mod_to_equations; lia).
      split; [reflexivity|]. split; [reflexivity|auto].
    + cbn [concat app length] in *.
      destruct (IH rest p filled n ltac:(lia)) as (chunks' & Hrun & Hc & He).
      exists chunks'. rewrite Hrun. fold k. auto.
    + cbn [concat length] in Hfuel. rewrite length_app in Hfuel.
      cbn [length] in Hfuel.
      destruct (IH (words :: rest) (drop 8 p) (filled ++ wordBytes u) (n + 8))
        as (chunks' & Hrun & Hc & He).
      { cbn [concat length]. rewrite length_app. lia. }
      rewrite length_drop in Hrun, Hc, He.
      cbn [concat] in *. set (W := words ++ concat rest) in *.
      set (k' := Z.to_nat (Z.min (Z.of_nat (length p - 8) / 8)
                             (Z.of_nat (length W)))) in *.
      assert (Hdiv : Z.of_nat (length p) / 8
                     = Z.of_nat (length p - 8) / 8 + 1)
        by (Z.div_mod_to_equations; lia).
      assert (Hq : 0 <= Z.of_nat (length p - 8) / 8)
        by (apply Z.div_pos; lia).
      assert (Hk : k = S k').
      { unfold k, k'. change ((u :: words) ++ concat rest) with (u :: W).
        cbn [length]. rewrite Hdiv. lia. }
      exists chunks'. rewrite Hrun, Hk.
      change ((u :: words) ++ concat rest) with (u :: W).
      cbn [take drop length]. rewrite payload_cons.
      split; [|split].
      * assert (EX : (filled ++ wordBytes u) ++ payload (take k' W)
                       ++ drop (8 * k') (drop 8 p)
                     = filled ++ (wordBytes u ++ payload (take k' W))
                       ++ drop (8 * S k') p).
        { rewrite <- !app_assoc. do 3 f_equal. rewrite drop_drop.
          f_equal. lia. }
        assert (EN : n + 8 + 8 * Z.of_nat k' = n + 8 * Z.of_nat (S k'))
          by lia.
        assert (EE : (if Z.of_nat (length W) <? Z.of_nat (length p - 8) / 8
                      then Some EOF else None)
                     = (if Z.of_nat (S (length W)) <? Z.of_nat (length p) / 8
                        then Some EOF else None)).
        { rewrite Hdiv.
          destruct (Z.ltb_spec (Z.of_nat (length W))
                      (Z.of_nat (length p - 8) / 8));
            destruct (Z.ltb_spec (Z.of_nat (S (length W)))
                        (Z.of_nat (length p - 8) / 8 + 1));
            try reflexivity; lia. }
        rewrite EX, EN, EE. reflexivity.
      * exact Hc.
      * intros Hlt. apply He. rewrite Hdiv in Hlt. lia.
  - exists chunks.
    assert (Hk : k = 0%nat) by (unfold k; Z.div_mod_to_equations; lia).
    rewrite Hk, Nat.mul_0_r, drop_0, take_0.
    cbn [payload flat_map app]. change (Z.of_nat 0) with 0.
    rewrite Z.mul_0_r, Z.add_0_r.
    replace (Z.of_nat (length (concat chunks)) <? Z.of_nat (length p) / 8)
      with false
      by (symmetry; apply Z.ltb_ge; Z.div_mod_to_equations; lia).
    split; [reflexivity|]. split; [reflexivity|].
    intros Hlt. exfalso. Z.div_mod_to_equations; lia.
Qed.

(** X13.  One call of the generated [Read] stores whole words only:
    with [k] the smaller of [len(p)/8] and the number of words left in
    [chunks], it stores the bytes of the next [k] words, each word as
    its eight bytes from the lowest to the highest, leaves the rest of
    [p] alone, returns [8*k] and removes these words from [chunks].
    It reports [io.EOF] exactly when the words ran out before [p] was
    filled, and then [chunks] is empty; with a [p] shorter than eight
    bytes it returns [(0, nil)] and takes nothing. *)
Theorem chunkDecoderRead_words (chunks : list (list Z)) (p : list byte) :
  let k := Z.to_nat (Z.min (Z.of_nat (length p) / 8)
                       (Z.of_nat (length (concat chunks)))) in
  exists chunks',
    chunkDecoderRead chunks p
    = Some (payload (take k (concat chunks)) ++ drop (8 * k) p,
            8 * Z.of_nat k,
            if Z.of_nat (length (concat chunks)) <? Z.of_nat (length p) / 8
            then Some EOF else None,
            chunks') /\
    concat chunks' = drop k (concat chunks) /\
    (Z.of_nat (length (concat chunks)) < Z.of_nat (length p) / 8 ->
     chunks' = []) /\
    ((length p < 8)%nat ->
     chunkDecoderRead chunks p = Some (p, 0, None, chunks)).
Proof.
  intros k. unfold chunkDecoderRead.
  destruct (chunkDecoderLoop_spec
              (S (length chunks + length (concat chunks))) chunks p [] 0
              ltac:(lia)) as (chunks' & Hrun & Hc & He).
  exists chunks'. fold k in Hrun, Hc. cbn [app] in Hrun.
  split; [exact Hrun|]. split; [exact Hc|]. split; [exact He|].
  intros Hp. cbn [chunkDecoderLoop].
  destruct (Nat.leb_spec 8 (length p)); [lia|reflexivity].
Qed.

Lemma chunked_payload maxSize pr fs cs :
  0 < maxSize -> maxSize mod 8 = 0 ->
  chunked maxSize pr fs cs ->
  exists pad,
    payload (concat fs) = pr ++ pad /\
    Z.of_nat (length pad) = (- Z.of_nat (length pr)) mod 8.
Proof.
  intros HM H8. induction 1 as [|pr words pad files counts Hne Hpay Hpad Hch IH].
  - exists []. split; reflexivity.
  - destruct IH as (pad' & Hrest & Hpad').
    cbn [concat]. rewrite payload_app, Hpay, Hrest.
    set (c := Z.min maxSize (Z.of_nat (length pr))) in *.
    destruct (Z.le_gt_cases maxSize (Z.of_nat (length pr))) as [Hfull|Hlast].
    + assert (Hc : c = maxSize) by (unfold c; lia).
      assert (Hnil : pad = []).
      { apply length_zero_iff_nil. rewrite Hc in Hpad.
        revert Hpad. Z.div_mod_to_equations. lia. }
      exists pad'. rewrite Hnil, app_nil_r, app_assoc, take_drop.
      split; [reflexivity|].
      rewrite Hpad', length_drop. rewrite Hc.
      Z.div_mod_to_equations; lia.
    + assert (Hc : c = Z.of_nat (length pr)) by (unfold c; lia).
      assert (Hd : drop (Z.to_nat c) pr = []) by (apply drop_ge; lia).
      rewrite Hd in Hrest, Hpad'. cbn [app length] in Hrest, Hpad'.
      assert (Hp0 : pad' = []).
      { apply length_zero_iff_nil.
        change (Z.of_nat (length pad') = 0) in Hpad'. lia. }
      exists pad. rewrite Hd, Hp0, !app_nil_r. rewrite take_ge by lia.
      split; [reflexivity|]. rewrite Hpad, Hc. reflexivity.
Qed.

(** X14.  What a generated package decodes: the words of its chunk
    files, read in order through [chunkDecoder.Read], are the
    compressed stream of the font followed by fewer than eight padding
    bytes that complete the last word; only the last chunk file is
    padded.  A [Read] into a buffer that can take all of it delivers
    these bytes, reports [io.EOF] and leaves [chunks] empty. *)
Theorem generateChunks_decoder_stream
    (gzip : list byte -> list byte) (data p : list byte) :
  exists o pad,
    generateChunks gzip data = Some o /\
    payload (concat (map snd (chunkFiles o))) = gzip data ++ pad /\
    Z.of_nat (length pad) = (- Z.of_nat (length (gzip data))) mod 8 /\
    ((length (gzip data) + 16 <= length p)%nat ->
     chunkDecoderRead (map snd (chunkFiles o)) p
     = Some ((gzip data ++ pad) ++ drop (length (gzip data ++ pad)) p,
             Z.of_nat (length (gzip data ++ pad)), Some EOF, [])).
Proof.
  destruct (generateChunksWith_spec chunkSize gzip data chunkSize_pos)
    as (fs & cs & Hch & Hrun).
  destruct (chunked_payload _ _ _ _ chunkSize_pos chunkSize_words Hch)
    as (pad & Hpay & Hpad).
  unfold generateChunks. rewrite Hrun. eexists. exists pad.
  split; [reflexivity|]. cbn [chunkFiles].
  rewrite map_snd_zip by apply chunkFileNames_length.
  split; [exact Hpay|]. split; [exact Hpad|].
  intros Hp.
  assert (Hlen : (length (payload (concat fs)) = 8 * length (concat fs))%nat)
    by apply payload_length.
  assert (Hlen' : length (gzip data ++ pad) = (8 * length (concat fs))%nat)
    by (rewrite <- Hpay; exact Hlen).
  assert (Hpadlt : (length pad < 8)%nat)
    by (revert Hpad; Z.div_mod_to_equations; lia).
  assert (Hlen2 : (length (gzip data) + length pad
                   = 8 * length (concat fs))%nat)
    by (rewrite <- Hlen', length_app; reflexivity).
  unfold chunkDecoderRead.
  destruct (chunkDecoderLoop_spec
              (S (length fs + length (concat fs))) fs p [] 0 ltac:(lia))
    as (chunks' & Hread & _ & He).
  assert (Hlt : Z.of_nat (length (concat fs)) < Z.of_nat (length p) / 8)
    by (Z.div_mod_to_equations; lia).
  rewrite (He Hlt) in Hread. rewrite Hread. cbn [app].
  replace (Z.to_nat (Z.min (Z.of_nat (length p) / 8)
                       (Z.of_nat (length (concat fs)))))
    with (length (concat fs)) by lia.
  rewrite take_ge by lia. rewrite Hpay, Hlen'.
  replace (Z.of_nat (length (concat fs)) <? Z.of_nat (length p) / 8)
    with true by lia.
  replace (Z.of_nat (8 * length (concat fs)))
    with (0 + 8 * Z.of_nat (length (concat fs))) by lia.
  reflexivity.
Qed.

(** ** The padding of a chunk *)

Lemma pad_bytes (tail : list byte) (p : nat) :
  (p <= length tail)%nat ->
  take p (copyBytes tail [x00; x00; x00; x00]).1
  = take p ([x00; x00; x00; x00] ++ drop 4 tail).
Proof.
  intros Hp. unfold copyBytes. cbn [fst length].
  destruct (Nat.le_gt_cases 4 (length tail)) as [H4|H4].
  - rewrite (take_ge [x00; x00; x00; x00]) by (cbn [length]; lia).
    reflexivity.
  - rewrite (drop_ge tail) by lia. rewrite !app_nil_r.
    rewrite take_take. f_equal. lia.
Qed.

Lemma writeChunkLoop_padding fuel : forall r buf comma out count,
  (length (pending r) < fuel)%nat ->
  Z.of_nat (length buf) = blockSize ->
  let c := Z.min (Z.max (limit r) 0) (Z.of_nat (length (pending r))) in
  let n := c mod 4096 in
  let B := if c <? 4096 then buf
           else take 4096 (drop (Z.to_nat (c - n - 4096)) (pending r)) in
  exists ws more count' r',
    writeChunkLoop fuel r buf comma out count
    = Some (more, out ++ ws, count', r') /\
    payload ws
    = take (Z.to_nat c) (pending r)
      ++ take (Z.to_nat ((- c) mod 8))
           ([x00; x00; x00; x00] ++ drop (Z.to_nat n + 4) B).
Proof.
  induction fuel as [|fuel IH]; intros r buf comma out count Hfuel Hbuf c n B;
    [lia|].
  destruct r as [pr lim]. cbn [pending limit] in *.
  cbn [writeChunkLoop]. unfold ReadFull. cbn [pending limit].
  set (k := Z.to_nat (Z.min blockSize lim)).
  set (got := take k pr).
  assert (Hn : Z.of_nat (length got) = Z.min blockSize c).
  { unfold got, k, c. rewrite length_take. unfold blockSize. lia. }
  set (buf1 := got ++ drop (length got) buf).
  assert (Hbuf1 : Z.of_nat (length buf1) = blockSize).
  { unfold buf1. rewrite length_app, length_drop. unfold blockSize in *. lia. }
  set (n0 := Z.of_nat (length got)) in *.
  unfold blockSize in *.
  destruct (Z.eqb_spec n0 4096) as [Hfull|Hpart].
  - (* a full block: the loop goes on with this block in the buffer *)
    rewrite Hfull. change (negb (4096 mod 8 =? 0)) with false. cbv iota beta.
    change (Z.to_nat ((4096 + 7) / 8)) with (Z.to_nat 512).
    assert (Hk : k = Z.to_nat 4096) by (unfold k; lia).
    assert (Hgot : buf1 = got).
    { unfold buf1. rewrite drop_ge by lia. apply app_nil_r. }
    destruct (IH (mkLimitedReader (drop k pr) (lim - 4096)) buf1
                (comma || (0 <? 4096))
                (out ++ encodeWords (Z.to_nat 512) buf1) (count + 4096))
      as (ws & more & count' & r' & Hrun & Hpay).
    { cbn [pending]. rewrite length_drop. lia. }
    { assumption. }
    cbn [pending limit] in Hrun, Hpay.
    rewrite length_drop in Hpay.
    set (c' := Z.min (Z.max (lim - 4096) 0) (Z.of_nat (length pr - k))) in *.
    assert (Hc : c = 4096 + c') by (unfold c, c'; lia).
    assert (Hc0 : 0 <= c') by (unfold c'; lia).
    assert (Hn' : c' mod 4096 = n)
      by (unfold n; rewrite Hc; Z.div_mod_to_equations; lia).
    assert (Hm8 : (- c') mod 8 = (- c) mod 8)
      by (rewrite Hc; Z.div_mod_to_equations; lia).
    assert (HB : (if c' <? 4096 then buf1
                  else take 4096
                         (drop (Z.to_nat (c' - c' mod 4096 - 4096))
                            (drop k pr))) = B).
    { unfold B. replace (c <? 4096) with false by lia.
      rewrite Hn'. destruct (Z.ltb_spec c' 4096) as [Hlt|Hge].
      - assert (n = c') by (unfold n in *; Z.div_mod_to_equations; lia).
        replace (Z.to_nat (c - n - 4096)) with 0%nat by lia.
        rewrite drop_0, Hgot. unfold got. f_equal. lia.
      - rewrite drop_drop. do 2 f_equal.
        unfold n in *. Z.div_mod_to_equations; lia. }
    exists (encodeWords (Z.to_nat 512) buf1 ++ ws), more, count', r'.
    rewrite Hrun, <- app_assoc. split; [reflexivity|].
    rewrite payload_app, Hpay, payload_encodeWords by lia.
    rewrite HB, Hn', Hm8.
    rewrite Hgot at 1. rewrite take_ge by lia.
    rewrite app_assoc. f_equal.
    rewrite Hc. replace (Z.to_nat (4096 + c')) with (k + Z.to_nat c')%nat by lia.
    unfold got. rewrite take_take_drop. reflexivity.
  - (* the last block of the chunk *)
    assert (Hc : n0 = c) by lia.
    assert (Hc4 : 0 <= c < 4096) by lia.
    assert (Hnn : n = c) by (unfold n; apply Z.mod_small; lia).
    assert (HB : B = buf) by (unfold B; replace (c <? 4096) with true by lia; reflexivity).
    assert (Hgot : got = take (Z.to_nat c) pr).
    { unfold got. destruct (Nat.le_gt_cases k (length pr)).
      - f_equal. lia.
      - rewrite !take_ge by lia. reflexivity. }
    assert (Hlen : length got = Z.to_nat c) by lia.
    assert (Htake : take (length got) buf1 = got).
    { unfold buf1. apply take_app_exact. reflexivity. }
    replace (n0 =? 4096) with false by lia.
    rewrite <- Hgot, HB, Hnn, <- Hc.
    assert (Herr : (if n0 =? 0 then Some EOF else Some ErrUnexpectedEOF)
                   = Some (if n0 =? 0 then EOF else ErrUnexpectedEOF))
      by (destruct (n0 =? 0); reflexivity).
    rewrite Herr; clear Herr.
    destruct (Z.eqb_spec (n0 mod 8) 0) as [Hal|Hunal]; cbn [negb]; cbv iota beta.
    + do 4 eexists. split; [reflexivity|].
      replace ((- n0) mod 8) with 0 by (Z.div_mod_to_equations; lia).
      rewrite take_0, app_nil_r.
      rewrite payload_encodeWords by (Z.div_mod_to_equations; lia).
      etrans; [|exact Htake]. f_equal. Z.div_mod_to_equations; lia.
    + set (n1 := n0 + (8 - n0 mod 8)).
      set (buf2 := take (Z.to_nat n0) buf1
                   ++ (copyBytes (drop (Z.to_nat n0) buf1) [x00; x00; x00; x00]).1).
      do 4 eexists. split; [reflexivity|].
      rewrite payload_encodeWords.
      2:{ unfold buf2.
          rewrite length_app, copyBytes_length, length_take, length_drop.
          unfold n1. Z.div_mod_to_equations; lia. }
      replace (8 * Z.to_nat ((n1 + 7) / 8))%nat
        with (length got + Z.to_nat ((- n0) mod 8))%nat
        by (unfold n1; Z.div_mod_to_equations; lia).
      unfold buf2. replace (Z.to_nat n0) with (length got) by lia.
      rewrite Htake, take_app_add. f_equal.
      assert (Hdrop : drop (length got) buf1 = drop (length got) buf).
      { unfold buf1. rewrite drop_app_length. reflexivity. }
      rewrite Hdrop, pad_bytes.
      * rewrite drop_drop. reflexivity.
      * rewrite length_drop. Z.div_mod_to_equations; lia.
Qed.

Lemma all_zero_take (l : list byte) (p : nat) :
  Forall (eq x00) l -> (p <= length l)%nat -> take p l = repeat x00 p.
Proof.
  intros Hall. revert p. induction Hall as [|x l <- Hl IH]; intros p Hp.
  - cbn [length] in Hp. replace p with 0%nat by lia. reflexivity.
  - destruct p as [|p]; [reflexivity|]. cbn [take repeat]. f_equal.
    apply IH. cbn [length] in Hp. lia.
Qed.

Lemma Forall_repeat_zero (k : nat) : Forall (eq x00) (repeat x00 k).
Proof. induction k; cbn [repeat]; constructor; auto. Qed.

(** X15.  The padding of a chunk, byte for byte.  A chunk of [c]
    stream bytes is written as [ceil(c/8)] words; the [(-c) mod 8]
    bytes that complete the last word are up to four zero bytes and,
    when more than four are needed, the bytes that the previous block
    of 4096 bytes left in the buffer at these offsets.  The padding
    is all zero when the chunk is shorter than one block or needs at
    most four bytes. *)
Theorem writeChunk_padding (pr : list byte) (maxSize : Z) :
  0 < maxSize ->
  let c := Z.min maxSize (Z.of_nat (length pr)) in
  let n := c mod 4096 in
  let B := if c <? 4096 then repeat x00 4096
           else take 4096 (drop (Z.to_nat (c - n - 4096)) pr) in
  exists ws,
    writeChunk (mkLimitedReader pr maxSize)
    = Some (0 <? c, ws, c,
            mkLimitedReader (drop (Z.to_nat c) pr) (maxSize - c)) /\
    Z.of_nat (length ws) = (c + 7) / 8 /\
    payload ws
    = take (Z.to_nat c) pr
      ++ take (Z.to_nat ((- c) mod 8))
           ([x00; x00; x00; x00] ++ drop (Z.to_nat n + 4) B) /\
    (c < 4096 \/ (- c) mod 8 <= 4 ->
     payload ws
     = take (Z.to_nat c) pr ++ repeat x00 (Z.to_nat ((- c) mod 8))).
Proof.
  intros HM c n B.
  destruct (writeChunk_spec pr maxSize HM) as (ws & pad & Hrun & Hpay & Hpad).
  fold c in Hrun, Hpay, Hpad.
  destruct (writeChunkLoop_padding (S (length pr)) (mkLimitedReader pr maxSize)
              (repeat x00 (Z.to_nat blockSize)) false [] 0)
    as (ws' & more & count' & r' & Hrun' & Hpay').
  { cbn [pending]. lia. }
  { rewrite repeat_length. unfold blockSize. lia. }
  cbn [pending limit app] in Hrun'. cbn [pending limit] in Hpay'.
  replace (Z.min (Z.max maxSize 0) (Z.of_nat (length pr))) with c in Hpay'
    by (unfold c; lia).
  fold n in Hpay'. change (Z.to_nat blockSize) with 4096%nat in Hpay'.
  fold B in Hpay'.
  unfold writeChunk in Hrun. cbn [pending] in Hrun. rewrite Hrun' in Hrun.
  injection Hrun as -> -> -> ->.
  exists ws.
  split; [unfold writeChunk; cbn [pending]; rewrite Hrun'; reflexivity|].
  assert (Hc0 : 0 <= c) by (unfold c; lia).
  assert (Hwords : Z.of_nat (length ws) = (c + 7) / 8).
  { pose proof (payload_length ws) as Hl. rewrite Hpay in Hl.
    rewrite length_app, length_take in Hl.
    revert Hl Hpad. unfold c. Z.div_mod_to_equations. lia. }
  split; [exact Hwords|]. split; [exact Hpay'|].
  intros Hzero. rewrite Hpay'. f_equal.
  assert (Hm : 0 <= (- c) mod 8 < 8) by (apply Z.mod_pos_bound; lia).
  destruct (Z.le_gt_cases ((- c) mod 8) 4) as [H4|H4].
  - rewrite take_app_le by (cbn [length]; lia).
    apply all_zero_take; [apply (Forall_repeat_zero 4)|cbn [length]; lia].
  - destruct Hzero as [Hlt|Hle]; [|lia].
    assert (Hnc : n = c) by (unfold n; apply Z.mod_small; lia).
    unfold B. replace (c <? 4096) with true by lia.
    apply all_zero_take.
    + apply Forall_app. split; [apply (Forall_repeat_zero 4)|].
      apply Forall_drop, Forall_repeat_zero.
    + rewrite length_app, length_drop, repeat_length. cbn [length].
      rewrite Hnc. revert H4. Z.div_mod_to_equations; lia.
Qed.

Lemma writeChunk_padding_witness :
  0 < chunkSize /\
  let c := Z.min chunkSize (Z.of_nat (length (repeat xff 4101))) in
  let n := c mod 4096 in
  let B := if c <? 4096 then repeat x00 4096
           else take 4096 (drop (Z.to_nat (c - n - 4096)) (repeat xff 4101)) in
  exists ws,
    writeChunk (mkLimitedReader (repeat xff 4101) chunkSize)
    = Some (0 <? c, ws, c,
            mkLimitedReader (drop (Z.to_nat c) (repeat xff 4101))
              (chunkSize - c)) /\
    Z.of_nat (length ws) = (c + 7) / 8 /\
    payload ws
    = take (Z.to_nat c) (repeat xff 4101)
      ++ take (Z.to_nat ((- c) mod 8))
           ([x00; x00; x00; x00] ++ drop (Z.to_nat n + 4) B) /\
    (c < 4096 \/ (- c) mod 8 <= 4 ->
     payload ws
     = take (Z.to_nat c) (repeat xff 4101)
       ++ repeat x00 (Z.to_nat ((- c) mod 8))).
Proof.
  split; [exact chunkSize_pos|].
  exact (writeChunk_padding (repeat xff 4101) chunkSize chunkSize_pos).
Defined.

(** ** The names of the chunk files *)

Lemma string_app_inv_tail (t : string) : forall s1 s2 : string,
  (s1 +:+ t = s2 +:+ t)%string -> s1 = s2.
Proof.
  induction s1 as [|c s1 IH]; intros [|d s2] H.
  - reflexivity.
  - exfalso. apply (f_equal String.length) in H.
    rewrite !string_app_length in H. cbn [String.length] in H. lia.
  - exfalso. apply (f_equal String.length) in H.
    rewrite !string_app_length in H. cbn [String.length] in H. lia.
  - rewrite !append_String in H. injection H as -> H.
    f_equal. apply IH, H.
Qed.

Lemma chunkVarName_inj i j : chunkVarName i = chunkVarName j -> i = j.
Proof.
  unfold chunkVarName. intros H.
  apply String.app_inj in H. apply pretty_nat_inj in H. exact H.
Qed.

(** X16.  The chunk files of a package bear distinct names, so that no
    chunk overwrites another, the variables listed in [chunk.go] are
    distinct, and the [i]-th variable is the one that the [i]-th file
    declares: the file is named after it. *)
Theorem generateChunks_names_distinct
    (gzip : list byte -> list byte) (data : list byte) :
  exists o,
    generateChunks gzip data = Some o /\
    NoDup (map fst (chunkFiles o)) /\
    NoDup (chunks o) /\
    length (chunks o) = length (chunkFiles o) /\
    forall (i : nat) v, chunks o !! i = Some v ->
      v = chunkVarName i /\
      map fst (chunkFiles o) !! i = Some (v +:+ ".go")%string.
Proof.
  destruct (generateChunksWith_spec chunkSize gzip data chunkSize_pos)
    as (fs & cs & Hch & Hrun).
  unfold generateChunks. rewrite Hrun. eexists. split; [reflexivity|].
  cbn [chunkFiles chunks].
  rewrite map_fst_zip by apply chunkFileNames_length.
  rewrite length_zip, chunkFileNames_length, Nat.min_id.
  unfold chunkFileNames, chunkVarNames.
  split; [|split; [|split]].
  - apply (NoDup_fmap_2_strong _ (seq 0 (length fs))); [|apply NoDup_seq].
    intros x y _ _ H. apply string_app_inv_tail in H.
    apply chunkVarName_inj, H.
  - apply (NoDup_fmap_2_strong _ (seq 0 (length fs))); [|apply NoDup_seq].
    intros x y _ _ H. apply chunkVarName_inj, H.
  - rewrite length_map, length_seq. reflexivity.
  - intros i v Hv.
    change (map chunkVarName (seq 0 (length fs)))
      with (chunkVarName <$> seq 0 (length fs)) in Hv.
    rewrite list_lookup_fmap in Hv.
    destruct (seq 0 (length fs) !! i) as [k|] eqn:Hk; [|discriminate].
    apply lookup_seq in Hk. destruct Hk as [-> Hlt]. cbn in Hv.
    injection Hv as <-. split; [reflexivity|].
    change (map ?f ?l) with (f <$> l).
    rewrite list_lookup_fmap, lookup_seq_lt by exact Hlt. reflexivity.
Qed.

(** ** The buffer pool *)

Lemma last_take_split {A} (l : list A) b :
  last l = Some b -> l = take (length l - 1) l ++ [b].
Proof.
  intros H. apply last_Some in H. destruct H as [l' ->].
  rewrite length_app. cbn [length].
  replace (length l' + 1 - 1)%nat with (length l') by lia.
  rewrite take_app_length. reflexivity.
Qed.

Lemma poolStep_conserves {A} (s s' : poolState A) e :
  poolStep s e = Some s' -> bufs s' ++ held s' ≡ₚ bufs s ++ held s.
Proof.
  destruct e as [|i]; cbn [poolStep].
  - destruct (last (bufs s)) as [b|] eqn:Hl; [|discriminate].
    intros H. injection H as <-. cbn [bufs held].
    rewrite (last_take_split _ _ Hl) at 3.
    rewrite <- app_assoc. reflexivity.
  - destruct (held s !! i) as [b|] eqn:Hi; [|discriminate].
    intros H. injection H as <-. cbn [bufs held].
    rewrite <- app_assoc. cbn [app].
    apply Permutation_app_head. symmetry. apply delete_Permutation, Hi.
Qed.

Lemma poolRun_conserves {A} events : forall s s' : poolState A,
  poolRun s events = Some s' -> bufs s' ++ held s' ≡ₚ bufs s ++ held s.
Proof.
  induction events as [|e events IH]; intros s s' H; cbn [poolRun] in H.
  - injection H as <-. reflexivity.
  - destruct (poolStep s e) as [s1|] eqn:E; [|discriminate].
    rewrite (IH _ _ H). apply (poolStep_conserves _ _ _ E).
Qed.

(** X17.  The pool neither loses nor duplicates a buffer.  After any
    sequence of communications the buffers in the pool and those the
    workers hold are the initial buffers, each once: no buffer is held
    by two workers at the same time, none is both held and available,
    and no more workers hold a buffer than there were buffers.  With
    the pool empty no buffer can be handed out: a worker waits until
    another one recycles. *)
Theorem poolRun_conservation {A} (init : list A) (events : list poolEvent)
    (s : poolState A) :
  NoDup init ->
  poolRun (mkPoolState init []) events = Some s ->
  bufs s ++ held s ≡ₚ init /\
  NoDup (held s) /\
  (forall b, b ∈ held s -> b ∉ bufs s) /\
  (length (held s) <= length init)%nat /\
  (bufs s = [] -> poolStep s Hand = None).
Proof.
  intros Hnd Hrun. apply poolRun_conserves in Hrun.
  cbn [bufs held] in Hrun. rewrite app_nil_r in Hrun.
  assert (Hnd' : NoDup (bufs s ++ held s)) by (rewrite Hrun; exact Hnd).
  apply NoDup_app in Hnd'. destruct Hnd' as (_ & Hdisj & Hheld).
  split; [exact Hrun|]. split; [exact Hheld|]. split; [|split].
  - intros b Hb Hin. apply (Hdisj b Hin Hb).
  - rewrite <- Hrun, length_app. lia.
  - intros E. cbn [poolStep]. rewrite E. reflexivity.
Qed.

Lemma poolRun_conservation_witness :
  NoDup [1%nat; 2%nat] /\
  poolRun (mkPoolState [1%nat; 2%nat] []) [Hand; Hand; Recycle 1; Hand]
    = Some (mkPoolState [] [2%nat; 1%nat]) /\
  bufs (mkPoolState (@nil nat) [2%nat; 1%nat])
    ++ held (mkPoolState (@nil nat) [2%nat; 1%nat]) ≡ₚ [1%nat; 2%nat] /\
  NoDup (held (mkPoolState (@nil nat) [2%nat; 1%nat])) /\
  (forall b, b ∈ held (mkPoolState (@nil nat) [2%nat; 1%nat]) ->
             b ∉ bufs (mkPoolState (@nil nat) [2%nat; 1%nat])) /\
  (length (held (mkPoolState (@nil nat) [2%nat; 1%nat]))
   <= length [1%nat; 2%nat])%nat /\
  (bufs (mkPoolState (@nil nat) [2%nat; 1%nat]) = [] ->
   poolStep (mkPoolState (@nil nat) [2%nat; 1%nat]) Hand = None).
Proof.
  assert (Hn : NoDup [1%nat; 2%nat]).
  { apply NoDup_cons. split; [|apply NoDup_singleton].
    intros H. apply list_elem_of_singleton in H. discriminate. }
  assert (Hr : poolRun (mkPoolState [1%nat; 2%nat] []) [Hand; Hand; Recycle 1; Hand]
               = Some (mkPoolState [] [2%nat; 1%nat]))
    by (vm_compute; reflexivity).
  split; [exact Hn|]. split; [exact Hr|].
  exact (poolRun_conservation [1%nat; 2%nat] _ _ Hn Hr).
Defined.
